(** * MJSS: the command interpreter and the property-script engine

    A shallow embedding of [mjssInterpreter.ts] (class [MJSSInterpreter]) and
    [mjssEngine.ts] (class [MJSSEngine]) and the properties proved about them,
    with the environment detection and the configuration of the entry
    script [index.ts].

    Conventions of the embedding.
    - A JavaScript string is the list of its UTF-16 code units ([list N]).
    - A JavaScript object is the list of its own enumerable properties in
      the order [Object.entries] enumerates them: array-index keys first, in
      ascending numeric order, then the other keys in creation order.
    - Both classes are strict-mode code (class bodies always are), so a
      property write on a primitive string throws a [TypeError] (unless it
      is taken by a setter: that of [__proto__]).
    - A string coercion of an object (a template literal, or the DOM on a
      value written to the page) calls the [toString] of the object and
      throws a [TypeError] when the object has one of its own, which a
      script can give it and which is not callable.
    - Every object literal inherits the members of [Object.prototype]. The
      operators that look through the prototype chain ([in], assignment to
      [__proto__]) are modelled for objects of the tree; a script line that
      walks *into* an inherited member reaches a built-in object, and the
      parser model answers [Escapes] for it. What the built-in objects do
      with the reads and writes of the parser, and what the rest of the
      call does in a realm that a script has written to, is told by the
      host ([realm]); the engine catches what is thrown there as it does
      in the tree. A later call in such a realm is not described.
    - The error callback ([onError], or [console.error] in its absence) is
      an observer: a call is recorded in a log and returns normally. A
      command handler and the [onLineParsed] callback may throw. *)

From Stdlib Require Import NArith Ascii String DecimalString.
From stdpp Require Import base list gmap.

(* ================================================================== *)
(** * Part I: the model *)
(* ================================================================== *)

(** ** JavaScript strings *)

Abbreviation jstring := (list N).

Module JS.

(** A string literal of the source, as code units (ASCII only). *)
Definition js (s : string) : jstring :=
  (λ a, N_of_ascii a) <$> list_ascii_of_string s.
#[global] Arguments js : simpl never.

(** WhiteSpace and LineTerminator code points: what [String.prototype.trim]
    removes and what the regular expression class [\s] matches. *)
Definition is_ws (c : N) : bool :=
  ((9 <=? c) && (c <=? 13) || (c =? 32) || (c =? 160) || (c =? 5760)
   || (8192 <=? c) && (c <=? 8202) || (c =? 8232) || (c =? 8233)
   || (c =? 8239) || (c =? 8287) || (c =? 12288) || (c =? 65279))%N.

Fixpoint trimStart (s : jstring) : jstring :=
  match s with
  | [] => []
  | c :: s' => if is_ws c then trimStart s' else s
  end.

Definition trimEnd (s : jstring) : jstring :=
  reverse (trimStart (reverse s)).

(** [s.trim()] *)
Definition trim (s : jstring) : jstring := trimEnd (trimStart s).

(** [s.split(sep)] for a one-character separator; the result is never
    empty: the empty string splits into one empty piece. *)
Fixpoint split (sep : N) (s : jstring) : list jstring :=
  match s with
  | [] => [[]]
  | c :: s' =>
      if decide (c = sep) then [] :: split sep s'
      else match split sep s' with
           | piece :: pieces => (c :: piece) :: pieces
           | [] => [[c]]
           end
  end.

(** [pieces.join(sep)] *)
Fixpoint join (sep : jstring) (pieces : list jstring) : jstring :=
  match pieces with
  | [] => []
  | [piece] => piece
  | piece :: pieces' => piece ++ sep ++ join sep pieces'
  end.

(** [s.split(/\s+/)]: [in_run] tells that the previous character belonged
    to the run of white space that is being skipped. *)
Fixpoint split_ws_from (in_run : bool) (s : jstring) : list jstring :=
  match s with
  | [] => [[]]
  | c :: s' =>
      if is_ws c then
        if in_run then split_ws_from true s' else [] :: split_ws_from true s'
      else match split_ws_from false s' with
           | piece :: pieces => (c :: piece) :: pieces
           | [] => [[c]]
           end
  end.

Definition split_ws (s : jstring) : list jstring := split_ws_from false s.

(** [s.startsWith(prefix)] *)
Fixpoint startsWith (prefix s : jstring) : bool :=
  match prefix, s with
  | [], _ => true
  | p :: prefix', c :: s' => bool_decide (p = c) && startsWith prefix' s'
  | _ :: _, [] => false
  end.

(** [!s] for a string: only the empty string is falsy. *)
Definition is_empty (s : jstring) : bool :=
  match s with [] => true | _ :: _ => false end.

(** The decimal numeral of [n], the property name of index [n]. *)
Definition of_nat (n : nat) : jstring :=
  js (NilZero.string_of_uint (Nat.to_uint n)).

Definition LF : N := 10.
Definition EQUALS : N := 61.
Definition DOT : N := 46.
Definition HASH : N := 35.
Definition DQUOTE : N := 34.
Definition SQUOTE : N := 39.

(** ** JavaScript values and objects *)

(** The values that occur in a property tree and in the interpreter's
    environment: strings and (nested) objects. *)
#[warnings="-register-all"]
Inductive value : Type :=
  | VStr (s : jstring)
  | VObj (o : list (jstring * value)).

Abbreviation obj := (list (jstring * value)).

(** What can be thrown: [new Error(message)], the [TypeError] of the
    language itself, and whatever the host environment raises (a
    [DOMException] of the given name). *)
Inductive jserror : Type :=
  | Error (message : jstring)
  | TypeError
  | DOMException (name : jstring).

(** The completion of an expression or a call: normal, with a value, or
    abrupt, with what is thrown. *)
Inductive completion (A : Type) : Type :=
  | Normal (a : A)
  | Abrupt (error : jserror).
Arguments Normal {A} a.
Arguments Abrupt {A} error.

Definition and_then {A B} (c : completion A) (k : A → completion B)
    : completion B :=
  match c with
  | Normal a => k a
  | Abrupt e => Abrupt e
  end.

(** The result of running code that walks a property tree: it returns, it
    throws, or it leaves the tree for the built-in objects of the realm
    (see the header). For a call of the engine, which catches what is
    thrown there as anywhere, [beyond] is the state the call returns in,
    as the host tells it (see [host]); for the parser on its own it is
    nothing. *)
Inductive outcome (A : Type) : Type :=
  | Returns (a : A)
  | Throws (e : jserror)
  | Escapes (beyond : option A).
Arguments Returns {A} a.
Arguments Throws {A} e.
Arguments Escapes {A} beyond.

Definition bind {A B} (m : outcome A) (k : A → outcome B) : outcome B :=
  match m with
  | Returns a => k a
  | Throws e => Throws e
  | Escapes _ => Escapes None
  end.

(** Own property lookup: [o[k]] when [k] is an own property. *)
Fixpoint obj_get (o : obj) (k : jstring) : option value :=
  match o with
  | [] => None
  | (k', v) :: o' => if decide (k' = k) then Some v else obj_get o' k
  end.

(** [Object.hasOwn(o, k)] *)
Definition obj_has (o : obj) (k : jstring) : bool :=
  match obj_get o k with Some _ => true | None => false end.

(** Value of a decimal digit. *)
Definition digit_val (c : N) : option N :=
  if ((48 <=? c) && (c <=? 57))%N then Some (c - 48)%N else None.

Fixpoint digits_val (acc : N) (s : jstring) : option N :=
  match s with
  | [] => Some acc
  | c :: s' =>
      match digit_val c with
      | Some d => digits_val (acc * 10 + d)%N s'
      | None => None
      end
  end.

(** A property name is an array index when it is the canonical decimal
    numeral of an integer below 2^32 - 1. *)
Definition array_index (k : jstring) : option N :=
  match k with
  | [] => None
  | [c] => digit_val c
  | c :: _ =>
      if decide (c = 48%N) then None
      else match digits_val 0 k with
           | Some n => if (n <? 4294967295)%N then Some n else None
           | None => None
           end
  end.

(** Overwrite the existing own property [k]; its position is kept. *)
Fixpoint obj_update (o : obj) (k : jstring) (v : value) : obj :=
  match o with
  | [] => []
  | (k', v') :: o' =>
      if decide (k' = k) then (k, v) :: o' else (k', v') :: obj_update o' k v
  end.

(** Create the array-index property [k] (of index [i]): it is enumerated
    after the smaller indices and before everything else. *)
Fixpoint obj_insert_index (o : obj) (k : jstring) (i : N) (v : value) : obj :=
  match o with
  | [] => [(k, v)]
  | (k', v') :: o' =>
      match array_index k' with
      | Some j =>
          if (j <? i)%N then (k', v') :: obj_insert_index o' k i v
          else (k, v) :: o
      | None => (k, v) :: o
      end
  end.

(** [CreateDataProperty(o, k, v)]: what an object literal and a spread do
    for each property. *)
Definition obj_define (o : obj) (k : jstring) (v : value) : obj :=
  if obj_has o k then obj_update o k v
  else match array_index k with
       | Some i => obj_insert_index o k i v
       | None => o ++ [(k, v)]
       end.

(** The property names every object literal inherits from
    [Object.prototype]. *)
Definition object_prototype_names : list jstring :=
  js <$> [ "constructor"; "__defineGetter__"; "__defineSetter__";
           "hasOwnProperty"; "__lookupGetter__"; "__lookupSetter__";
           "isPrototypeOf"; "propertyIsEnumerable"; "toString"; "valueOf";
           "__proto__"; "toLocaleString" ]%string.

Definition inherited (k : jstring) : bool :=
  bool_decide (k ∈ object_prototype_names).

(** [k in o] for an object literal [o]. *)
Definition js_in (k : jstring) (o : obj) : bool :=
  obj_has o k || inherited k.

(** The assignment [o[k] = v] on an object literal. An own property is
    overwritten. Otherwise the inherited members are writable data
    properties, so a new own property is created, except for [__proto__]:
    it is an accessor, and its setter creates no own property (it ignores
    a string; the code never assigns an object under that name). *)
Definition js_put (o : obj) (k : jstring) (v : value) : obj :=
  if obj_has o k then obj_update o k v
  else if decide (k = js "__proto__") then o
  else obj_define o k v.

(** [`${v}`] and the other string coercions. For an object the
    coercion calls its [toString]: the one of [Object.prototype], which
    answers [[object Object]], unless the object has a property
    [toString] of its own. The values of a tree are strings and trees, so
    that is not callable; the coercion goes on to [valueOf], which is not
    callable either or, inherited, returns the object itself, and throws
    a [TypeError]. *)
Definition to_string (v : value) : completion jstring :=
  match v with
  | VStr s => Normal s
  | VObj o =>
      if obj_has o (js "toString") then Abrupt TypeError
      else Normal (js "[object Object]")
  end.

(** Truthiness of an optional property: [undefined] and the empty string
    are falsy. *)
Definition truthy (v : option value) : bool :=
  match v with
  | None => false
  | Some (VStr s) => negb (is_empty s)
  | Some (VObj _) => true
  end.

(** The characters of a string as the own properties of its wrapper
    object: ["ab"] has ["0"] -> ["a"] and ["1"] -> ["b"]. *)
Fixpoint string_entries (i : nat) (s : jstring) : obj :=
  match s with
  | [] => []
  | c :: s' => (of_nat i, VStr [c]) :: string_entries (S i) s'
  end.

(** The own enumerable properties a spread [...v] copies. *)
Definition own_entries (v : option value) : obj :=
  match v with
  | None => []
  | Some (VStr s) => string_entries 0 s
  | Some (VObj o) => o
  end.

(** [{ ...target, ...source }] continued: copy [source] into [target]. *)
Definition spread (target source : obj) : obj :=
  foldl (λ acc kv, obj_define acc kv.1 kv.2) target source.

(** *** The representation invariant

    A list is the property list of an object when its keys are pairwise
    different and in enumeration order: every array index comes before
    every other key, and the array indices ascend. *)
Definition comes_before (k1 k2 : jstring) : bool :=
  negb (bool_decide (k1 = k2))
  && match array_index k1, array_index k2 with
     | Some i, Some j => (i <? j)%N
     | Some _, None => true
     | None, Some _ => false
     | None, None => true
     end.

Fixpoint enumeration_order (keys : list jstring) : bool :=
  match keys with
  | [] => true
  | k :: keys' => forallb (comes_before k) keys' && enumeration_order keys'
  end.

Fixpoint well_formed (v : value) : bool :=
  match v with
  | VStr _ => true
  | VObj o =>
      enumeration_order o.*1 && forallb (λ kv, well_formed kv.2) o
  end.

End JS.

(** ** The property-script engine ([mjssEngine.ts]) *)

Module MJSSEngine.
Import JS.

(** *** [parseMJSS] *)

(** The [replace] of [rawValue]: its pattern has two alternatives, a
    straight quote (double or single) anchored at the start and a straight
    quote anchored at the end, and the flag [g]; so it removes a straight
    quote at the very start, and a straight quote at the very end of what
    follows. *)
Definition is_quote (c : N) : bool :=
  bool_decide (c = DQUOTE) || bool_decide (c = SQUOTE).

Definition strip_leading_quote (s : jstring) : jstring :=
  match s with
  | c :: s' => if is_quote c then s' else s
  | [] => []
  end.

Definition strip_trailing_quote (s : jstring) : jstring :=
  reverse (strip_leading_quote (reverse s)).

Definition strip_quotes (s : jstring) : jstring :=
  strip_trailing_quote (strip_leading_quote s).

(** The value that is stored for [rawValue]: quotes removed, then trimmed. *)
Definition cleanedValue (rawValue : jstring) : jstring :=
  trim (strip_quotes rawValue).

(** The loop over [keyParts] and the final assignment
    [currentObj[lastKey] = cleanedValue]. The source walks the tree through
    the alias [currentObj] and writes in place; the tree has no sharing, so
    the model rebuilds the path it walked. For a part that is not the last:
    [if (!(part in currentObj)) currentObj[part] = {}] and then
    [currentObj = currentObj[part]]. What is found there is
    - a nested tree, and the walk goes on in it;
    - a string: with two or more parts left the next [in] throws a
      [TypeError]; with one part left the assignment
      [currentObj[lastKey] = cleanedValue] to a property of a string
      throws a [TypeError] in strict mode, unless [lastKey] is
      [__proto__]: that is an accessor of [Object.prototype], its setter
      is called, ignores a string and returns;
    - nothing of the tree's own: a member of [Object.prototype], and the
      walk leaves the tree. *)
Fixpoint assign_path (currentObj : obj) (keyParts : list jstring)
    (cleaned : jstring) : outcome obj :=
  match keyParts with
  | [] => Returns currentObj
  | part :: rest =>
      match rest with
      | [] => Returns (js_put currentObj part (VStr cleaned))
      | _ :: _ =>
          let created :=
            if js_in part currentObj then currentObj
            else js_put currentObj part (VObj []) in
          match obj_get created part with
          | Some (VObj child) =>
              bind (assign_path child rest cleaned)
                   (λ child', Returns (obj_update created part (VObj child')))
          | Some (VStr _) =>
              match rest with
              | [lastKey] =>
                  if decide (lastKey = js "__proto__") then Returns created
                  else Throws TypeError
              | _ => Throws TypeError
              end
          | None => Escapes None
          end
      end
  end.

(** The body of the loop over the trimmed lines. *)
Definition parse_line (props : obj) (line : jstring) : outcome obj :=
  if is_empty line || startsWith [HASH] line then Returns props
  else match trim <$> split EQUALS line with
       | rawKey :: rawValue :: _ =>
           if is_empty rawKey then Returns props
           else
             let keyParts := split DOT rawKey in
             assign_path props keyParts (cleanedValue rawValue)
       | _ => Returns props
       end.

Fixpoint parse_lines (props : obj) (lines : list jstring) : outcome obj :=
  match lines with
  | [] => Returns props
  | line :: lines' => bind (parse_line props line) (λ props', parse_lines props' lines')
  end.

Definition parseMJSS (script : jstring) : outcome obj :=
  parse_lines [] (trim <$> split LF script).

(** *** [buildMJSS]

    The lines are pushed one by one; a template literal that throws ends
    the call, and with it the lines made so far. *)

(** The inner loop: [lines.push(`${key}.${nestedKey} = "${nestedVal}"`)]. *)
Fixpoint build_nested (key : jstring) (nested : obj) : completion (list jstring) :=
  match nested with
  | [] => Normal []
  | (nestedKey, nestedVal) :: nested' =>
      and_then (to_string nestedVal) (λ text,
      and_then (build_nested key nested') (λ lines,
      Normal ((key ++ js "." ++ nestedKey ++ js " = "
               ++ [DQUOTE] ++ text ++ [DQUOTE]) :: lines)))
  end.

(** The outer loop over [Object.entries(this.currentMJSSProps)]. *)
Fixpoint build_lines (props : obj) : completion (list jstring) :=
  match props with
  | [] => Normal []
  | (key, val) :: props' =>
      and_then (match val with
                | VObj nested => build_nested key nested
                | VStr s => Normal [key ++ js " = " ++ [DQUOTE] ++ s ++ [DQUOTE]]
                end) (λ entry,
      and_then (build_lines props') (λ lines, Normal (entry ++ lines)))
  end.

Definition buildMJSS (props : obj) : completion jstring :=
  and_then (build_lines props) (λ lines, Normal (join [LF] lines)).

(** *** The merge of [updateMJSS]

    [{ ...current, ...newProps,
       animation: { ...current.animation, ...newProps.animation } }] *)
Definition ANIMATION : jstring := js "animation".

Definition merge_props (current newProps : obj) : obj :=
  obj_define (spread (spread [] current) newProps) ANIMATION
    (VObj (spread (spread [] (own_entries (obj_get current ANIMATION)))
                  (own_entries (obj_get newProps ANIMATION)))).

(** *** The page and the store

    The DOM and [localStorage] are outside the engine. The model keeps what
    the engine asks of them: the operations it performs on the render
    target, in order, and the contents of the store. *)

(** An element of the document, by an opaque handle. *)
Definition element : Type := nat.

Inductive dom_op : Type :=
  | CreateElement (tagName : jstring)
  | SetId (id : jstring)
  | AppendChild (parent : element)
  | SetTextContent (text : jstring)
  | SetStyle (property value : jstring).

(** A call of [handleError]: to the [onError] callback when the engine has
    one, to [console.error] otherwise. *)
Inductive report : Type :=
  | OnError (context : jstring) (error : jserror)
  | ConsoleError (label : jstring) (error : jserror).

Record world : Type := {
  storage : gmap jstring jstring;
  dom : list dom_op;
  reports : list report;
}.

Definition set_storage (w : world) (s : gmap jstring jstring) : world :=
  {| storage := s; dom := dom w; reports := reports w |}.
Definition log_dom (w : world) (op : dom_op) : world :=
  {| storage := storage w; dom := dom w ++ [op]; reports := reports w |}.
Definition log_report (w : world) (r : report) : world :=
  {| storage := storage w; dom := dom w; reports := reports w ++ [r] |}.

(** *** The engine object *)

Record MJSSEngine : Type := {
  containerElem : element;
  localStorageKey : jstring;
  onError : bool;                 (* is the callback defined? *)
  currentMJSSProps : obj;
  buttonElem : bool;              (* false stands for [null] *)
}.

Definition set_props (this : MJSSEngine) (props : obj) : MJSSEngine :=
  {| containerElem := containerElem this;
     localStorageKey := localStorageKey this;
     onError := onError this;
     currentMJSSProps := props;
     buttonElem := buttonElem this |}.
Definition set_button (this : MJSSEngine) : MJSSEngine :=
  {| containerElem := containerElem this;
     localStorageKey := localStorageKey this;
     onError := onError this;
     currentMJSSProps := currentMJSSProps this;
     buttonElem := true |}.

(** *** The host

    Whether an operation on the page or on the store raises is the host's
    matter; [host] carries that as an oracle.

    So is what happens once a script has led the parser out of the tree,
    to a built-in object (a key path that starts with [toString], with
    [constructor], with [__proto__], ...): what the built-in objects make
    of the reads and writes of the parser, and what the rest of the call
    does in a realm that a script has written to. For such a call the
    host tells, by [realm], what each of the calls in the [try] block
    does: an [excursion]. *)
Inductive call : Type :=
  | Initializing
  | Updating (newScript : jstring) (replace : bool).

Record excursion : Type := {
  parsed : completion obj;            (* [parseMJSS]: the tree, or what it throws *)
  merged_animation : obj;             (* the [animation] of the merge *)
  made_button : bool;                 (* [createElement] returned *)
  page_ops : list dom_op;             (* what [renderButton] did to the page *)
  render_thrown : option jserror;     (* what [renderButton] threw *)
  serialized : completion jstring;    (* [buildMJSS] *)
}.

Record host : Type := {
  getElementById : jstring → option element;
  dom_fault : dom_op → option jserror;
  getItem_fault : jstring → option jserror;
  setItem_fault : jstring → jstring → option jserror;
  realm : call → MJSSEngine → world → excursion;
}.

Definition handleError (this : MJSSEngine) (context : jstring)
    (error : jserror) (w : world) : world :=
  log_report w
    (if onError this then OnError context error
     else ConsoleError (js "[" ++ context ++ js " ERROR]") error).

(** *** [renderButton]

    A statement of [renderButton] that writes to the page first makes a
    string of the value it writes (the DOM does, for [id], [textContent]
    and the style properties; the template literal does, for the
    duration): the operation, or the [TypeError] of the coercion. *)
Definition coerced (v : value) (op : jstring → dom_op) : completion dom_op :=
  and_then (to_string v) (λ text, Normal (op text)).

(** Perform the statements in order; stop at the first that throws, in
    the coercion or in the operation. *)
Fixpoint perform (h : host) (steps : list (completion dom_op)) (w : world)
    : world * option jserror :=
  match steps with
  | [] => (w, None)
  | Abrupt e :: _ => (w, Some e)
  | Normal op :: steps' =>
      match dom_fault h op with
      | Some e => (w, Some e)
      | None => perform h steps' (log_dom w op)
      end
  end.

(** [if (props.name) target = props.name] *)
Definition when_set (props : obj) (name : string)
    (op : jstring → dom_op) : list (completion dom_op) :=
  match obj_get props (js name) with
  | Some v => if truthy (Some v) then [coerced v op] else []
  | None => []
  end.

(** The animation block: only [type === "fade"] has an effect. *)
Definition animation_steps (props : obj) : list (completion dom_op) :=
  let animation := obj_get props ANIMATION in
  if truthy animation then
    match animation with
    | Some (VObj a) =>
        match obj_get a (js "type") with
        | Some (VStr t) =>
            if decide (t = js "fade") then
              [and_then
                 (match obj_get a (js "duration") with
                  | Some duration =>
                      if truthy (Some duration) then to_string duration
                      else Normal (js "1s")
                  | None => Normal (js "1s")
                  end)
                 (λ duration,
                    Normal (SetStyle (js "transition")
                              (js "opacity " ++ duration ++ js " ease-in-out")))]
            else []
        | _ => []
        end
    | _ => []    (* a primitive string has no property [type] *)
    end
  else [].

Definition property_steps (props : obj) : list (completion dom_op) :=
  when_set props "text" SetTextContent
  ++ when_set props "color" (SetStyle (js "backgroundColor"))
  ++ when_set props "width" (SetStyle (js "width"))
  ++ when_set props "height" (SetStyle (js "height"))
  ++ animation_steps props.

Definition renderButton (h : host) (this : MJSSEngine) (w : world)
    : MJSSEngine * world * option jserror :=
  let props := currentMJSSProps this in
  if buttonElem this then
    let '(w', thrown) := perform h (property_steps props) w in
    (this, w', thrown)
  else
    match perform h [Normal (CreateElement (js "button"))] w with
    | (w1, Some e) => (this, w1, Some e)
    | (w1, None) =>
        (* [this.buttonElem] is assigned before anything else is tried *)
        let '(w', thrown) :=
          perform h
            (when_set props "buttonID" SetId
             ++ [Normal (AppendChild (containerElem this))]
             ++ property_steps props) w1 in
        (set_button this, w', thrown)
    end.

(** [renderButton] as the host tells it, in a realm a script has
    written to. *)
Definition beyond_render (x : excursion) (this : MJSSEngine) (w : world)
    : MJSSEngine * world * option jserror :=
  ({| containerElem := containerElem this;
      localStorageKey := localStorageKey this;
      onError := onError this;
      currentMJSSProps := currentMJSSProps this;
      buttonElem := buttonElem this || made_button x |},
   {| storage := storage w; dom := dom w ++ page_ops x; reports := reports w |},
   render_thrown x).

(** *** [initialize] and the constructor *)

(** [localStorage.getItem(key)], with the empty string for [null]. *)
Definition getItem (h : host) (key : jstring) (w : world) : completion jstring :=
  match getItem_fault h key with
  | Some e => Abrupt e
  | None => Normal (default [] (storage w !! key))
  end.

Definition setItem (h : host) (key value : jstring) (w : world)
    : world * option jserror :=
  match setItem_fault h key value with
  | Some e => (w, Some e)
  | None => (set_storage w (<[key := value]> (storage w)), None)
  end.

(** [if (savedScript) this.currentMJSSProps = this.parseMJSS(savedScript)]:
    the tree the engine has afterwards. *)
Definition restore (this : MJSSEngine) (savedScript : jstring) : outcome obj :=
  if is_empty savedScript then Returns (currentMJSSProps this)
  else parseMJSS savedScript.

(** The [try] block of [initialize] from the assignment of the tree on,
    and the [catch], given what the parser did and what [renderButton]
    does. *)
Definition initialize_try (this : MJSSEngine) (w : world)
    (restored : completion obj)
    (render : MJSSEngine → world → MJSSEngine * world * option jserror)
    : MJSSEngine * world :=
  match restored with
  | Abrupt err => (this, handleError this (js "Initialization") err w)
  | Normal props =>
      match render (set_props this props) w with
      | (this', w', Some err) =>
          (this', handleError this' (js "Initialization") err w')
      | (this', w', None) => (this', w')
      end
  end.

Definition initialize (h : host) (this : MJSSEngine) (w : world)
    : outcome (MJSSEngine * world) :=
  match getItem h (localStorageKey this) w with
  | Abrupt err => Returns (this, handleError this (js "Initialization") err w)
  | Normal savedScript =>
      match restore this savedScript with
      | Returns props =>
          Returns (initialize_try this w (Normal props) (renderButton h))
      | Throws err =>
          Returns (initialize_try this w (Abrupt err) (renderButton h))
      | Escapes _ =>
          let x := realm h Initializing this w in
          Escapes (Some (initialize_try this w (parsed x) (beyond_render x)))
      end
  end.

Inductive container_ref : Type :=
  | ById (id : jstring)
  | ByElement (elem : element).

Record MJSSEngineOptions : Type := {
  container : container_ref;
  opt_localStorageKey : option jstring;
  opt_onError : bool;
}.

Definition container_not_found (id : jstring) : jserror :=
  Error (js "MJSSEngine: Container element with ID '" ++ id ++ js "' not found.").

(** The fields as the constructor sets them before it calls
    [initialize]. *)
Definition new_engine (elem : element) (options : MJSSEngineOptions)
    : MJSSEngine :=
  let key := default [] (opt_localStorageKey options) in
  {| containerElem := elem;
     localStorageKey := if is_empty key then js "MJSS_SCRIPT" else key;
     onError := opt_onError options;
     currentMJSSProps := [];
     buttonElem := false |}.

Definition constructor (h : host) (options : MJSSEngineOptions) (w : world)
    : outcome (MJSSEngine * world) :=
  bind (match container options with
        | ById id =>
            match getElementById h id with
            | None => Throws (container_not_found id)
            | Some elem => Returns elem
            end
        | ByElement elem => Returns elem
        end)
       (λ elem, initialize h (new_engine elem options) w).

(** *** [updateMJSS] *)

(** The [try] block of [updateMJSS] from the assignment of the tree on,
    and the [catch], given what the parser did, the tree that is
    installed for a parsed tree, and what [renderButton] and [buildMJSS]
    do. *)
Definition updateMJSS_try (h : host) (this : MJSSEngine) (w : world)
    (parsedProps : completion obj) (install : obj → obj)
    (render : MJSSEngine → world → MJSSEngine * world * option jserror)
    (build : obj → completion jstring) : MJSSEngine * world :=
  match parsedProps with
  | Abrupt err => (this, handleError this (js "UpdateMJSS") err w)
  | Normal newProps =>
      match render (set_props this (install newProps)) w with
      | (this2, w2, Some err) =>
          (this2, handleError this2 (js "UpdateMJSS") err w2)
      | (this2, w2, None) =>
          match build (currentMJSSProps this2) with
          | Abrupt err => (this2, handleError this2 (js "UpdateMJSS") err w2)
          | Normal script =>
              match setItem h (localStorageKey this2) script w2 with
              | (w3, Some err) =>
                  (this2, handleError this2 (js "UpdateMJSS") err w3)
              | (w3, None) => (this2, w3)
              end
          end
      end
  end.

Definition updateMJSS (h : host) (this : MJSSEngine) (w : world)
    (newScript : jstring) (replace : bool) : outcome (MJSSEngine * world) :=
  let install newProps :=
    if replace then newProps
    else merge_props (currentMJSSProps this) newProps in
  match parseMJSS newScript with
  | Returns newProps =>
      Returns (updateMJSS_try h this w (Normal newProps) install
                 (renderButton h) buildMJSS)
  | Throws err =>
      Returns (updateMJSS_try h this w (Abrupt err) install
                 (renderButton h) buildMJSS)
  | Escapes _ =>
      let x := realm h (Updating newScript replace) this w in
      Escapes (Some (updateMJSS_try h this w (parsed x)
                       (λ newProps,
                          if replace then newProps
                          else obj_define
                                 (spread (spread [] (currentMJSSProps this)) newProps)
                                 ANIMATION (VObj (merged_animation x)))
                       (beyond_render x) (λ _, serialized x)))
  end.

End MJSSEngine.

(** ** The command interpreter ([mjssInterpreter.ts]) *)

Module MJSSInterpreter.
Import JS.

(** A handler receives the arguments and works on the shared environment
    ([this.env] for the built-in ones); it returns normally or throws, and
    in both cases leaves the environment as it made it. What a handler
    prints with [console.log] is not kept. *)
Abbreviation MJSSCommandHandler :=
  (list jstring → obj → obj * option jserror)%type.

(** [onLineParsed] is called inside the [try] block of [parse]: what it
    throws is reported like a failure of the command. *)
Record MJSSInterpreterConfig : Type := {
  onError : bool;
  onLineParsed : option (jstring → list jstring → option jserror);
}.

Inductive event : Type :=
  | OnError (context : jstring) (error : jserror)
  | ConsoleError (label : jstring) (error : jserror)
  | OnLineParsed (command : jstring) (args : list jstring).

Record MJSSInterpreter : Type := {
  config : MJSSInterpreterConfig;
  env : obj;
  commandRegistry : gmap jstring MJSSCommandHandler;
  events : list event;
}.

Definition set_env (this : MJSSInterpreter) (e : obj) : MJSSInterpreter :=
  {| config := config this; env := e;
     commandRegistry := commandRegistry this; events := events this |}.
Definition set_registry (this : MJSSInterpreter)
    (r : gmap jstring MJSSCommandHandler) : MJSSInterpreter :=
  {| config := config this; env := env this;
     commandRegistry := r; events := events this |}.
Definition log_event (this : MJSSInterpreter) (ev : event) : MJSSInterpreter :=
  {| config := config this; env := env this;
     commandRegistry := commandRegistry this; events := events this ++ [ev] |}.

Definition setEnvironment (this : MJSSInterpreter) (e : obj) : MJSSInterpreter :=
  set_env this e.

Definition registerFunction (commandName : jstring)
    (handler : MJSSCommandHandler) (this : MJSSInterpreter)
    : outcome MJSSInterpreter :=
  if is_empty commandName then
    Throws (Error (js "Cannot register MJSS function without a name."))
  else Returns (set_registry this (<[commandName := handler]> (commandRegistry this))).

Definition handleError (this : MJSSInterpreter) (context : jstring)
    (error : jserror) : MJSSInterpreter :=
  log_event this
    (if onError (config this) then OnError context error
     else ConsoleError (js "[MJSS " ++ context ++ js " ERROR]") error).

(** The body of the loop of [parse] for one trimmed line. *)
Definition parse_line (this : MJSSInterpreter) (line : jstring)
    : MJSSInterpreter :=
  if is_empty line || startsWith [HASH] line then this
  else
    let tokens := split_ws line in
    let commandName := hd [] tokens in
    let args := tl tokens in
    match commandRegistry this !! commandName with
    | None =>
        handleError this (js "parse")
          (Error (js "Unrecognized command: " ++ commandName))
    | Some commandHandler =>
        let '(env', thrown) := commandHandler args (env this) in
        let this' := set_env this env' in
        let context := js "Command '" ++ commandName ++ js "'" in
        match thrown with
        | Some err => handleError this' context err
        | None =>
            match onLineParsed (config this') with
            | None => this'
            | Some hook =>
                let this'' := log_event this' (OnLineParsed commandName args) in
                match hook commandName args with
                | Some err => handleError this'' context err
                | None => this''
                end
            end
        end
    end.

Definition parse (this : MJSSInterpreter) (script : jstring) : MJSSInterpreter :=
  foldl parse_line this (trim <$> split LF script).

(** *** The built-in commands *)

Definition setProperty : MJSSCommandHandler := λ args env,
  if length args <? 2 then
    (env, Some (Error (js "setProperty requires at least 2 args: key, value")))
  else match args with
       | key :: rest => (js_put env key (VStr (join (js " ") rest)), None)
       | [] => (env, None)
       end.

Definition animateElement : MJSSCommandHandler := λ args env,
  if length args <? 2 then
    (env, Some (Error (js "animateElement requires at least 2 args: animationName, duration")))
  else match args with
       | animationName :: duration :: _ =>
           (js_put env (js "lastAnimation")
              (VObj (obj_define
                       (obj_define [] (js "animationName") (VStr animationName))
                       (js "duration") (VStr duration))),
            None)
       | _ => (env, None)
       end.

Definition registerDefaultCommands (this : MJSSInterpreter)
    : outcome MJSSInterpreter :=
  bind (registerFunction (js "setProperty") setProperty this)
       (registerFunction (js "animateElement") animateElement).

Definition constructor (config : option MJSSInterpreterConfig)
    : outcome MJSSInterpreter :=
  registerDefaultCommands
    {| config := default {| onError := false; onLineParsed := None |} config;
       env := [];
       commandRegistry := ∅;
       events := [] |}.

End MJSSInterpreter.

(** ** The entry script ([index.ts])

    The script first decides, from the platform it runs on, whether it is
    in development or in production, and builds its configuration from the
    answer; its error handler reads the configuration. The servers and
    modules it then loads are outside this development. *)

Module Bootstrap.
Import JS.

(** *** Regular expressions

    The patterns of the script use characters, character classes given by
    a range, sequence, alternation and the option [?]. A pattern is run as
    ECMAScript runs it: by backtracking, each part given the
    continuation that matches what follows it; an option tries its
    pattern first. *)
Inductive regex : Type :=
  | Empty
  | Char (c : N)
  | Class (lo hi : N)
  | Seq (r1 r2 : regex)
  | Alt (r1 r2 : regex)
  | Opt (r : regex).

Fixpoint run (r : regex) (s : jstring) (k : jstring → bool) : bool :=
  match r with
  | Empty => k s
  | Char c =>
      match s with
      | x :: s' => (x =? c)%N && k s'
      | [] => false
      end
  | Class lo hi =>
      match s with
      | x :: s' => (lo <=? x)%N && (x <=? hi)%N && k s'
      | [] => false
      end
  | Seq r1 r2 => run r1 s (λ s', run r2 s' k)
  | Alt r1 r2 => run r1 s k || run r2 s k
  | Opt r' => run r' s k || k s
  end.

(** [s.match(/^r$/)] as a truth value: the pattern has to match from the
    start of the string, up to its end. *)
Definition matches (r : regex) (s : jstring) : bool := run r s is_empty.

(** [\d] *)
Definition digit : regex := Class 48 57.

(** [25[0-5]|2[0-4]\d|[01]?\d?\d] *)
Definition octet : regex :=
  Alt (Seq (Char 50) (Seq (Char 53) (Class 48 53)))
      (Alt (Seq (Char 50) (Seq (Class 48 52) digit))
           (Seq (Opt (Class 48 49)) (Seq (Opt digit) digit))).

(** [\.(?:octet)] *)
Definition dotted : regex := Seq (Char DOT) octet.

(** [/^127(?:\.(?:25[0-5]|2[0-4]\d|[01]?\d?\d)){3}$/] *)
Definition loopback : regex :=
  Seq (Char 49) (Seq (Char 50) (Seq (Char 55)
    (Seq dotted (Seq dotted dotted)))).

(** *** The platform and the environment mode *)

(** What the script reads of its platform: whether [process] is that of
    Node.js, the variable [NODE_ENV], whether there is a [window], and the
    host name of its location. *)
Record platform : Type := {
  isNode : bool;
  NODE_ENV : option jstring;
  isBrowser : bool;
  hostname : jstring;
}.

Inductive EnvironmentMode : Type := development | production.

Definition isLocalhost (hostname : jstring) : bool :=
  bool_decide (hostname = js "localhost")
  || bool_decide (hostname = js "[::1]")
  || matches loopback hostname.

Definition ENV (p : platform) : EnvironmentMode :=
  if isNode p then
    if bool_decide (NODE_ENV p = Some (js "development")) then development
    else production
  else if isBrowser p then
    if isLocalhost (hostname p) then development else production
  else production.

Definition debugMode (p : platform) : bool :=
  if isNode p then bool_decide (NODE_ENV p = Some (js "development"))
  else if isBrowser p then isLocalhost (hostname p)
  else false.

(** *** The configuration and the error handler *)

Record IConfig : Type := {
  environment : EnvironmentMode;
  debug : bool;
  apiEndpoint : jstring;
}.

Definition config (p : platform) : IConfig :=
  {| environment := ENV p;
     debug := debugMode p;
     apiEndpoint := if debugMode p then js "http://localhost:3000/api"
                    else js "https://api.yourdomain.com" |}.

(** A call of the console. *)
Inductive console_call : Type :=
  | ConsoleError (label : jstring) (error : jserror)
  | ConsoleLog (label : jstring) (error : jserror).

Definition sendErrorToMonitoringService (context : jstring) (err : jserror)
    : console_call :=
  ConsoleLog (js "[" ++ context
              ++ js "] [PRODUCTION] Sending error to monitoring service:") err.

Definition handleError (config : IConfig) (context : jstring)
    (error : jserror) : console_call :=
  if debug config then
    ConsoleError (js "[" ++ context ++ js " ERROR - DEV MODE]") error
  else sendErrorToMonitoringService context error.

End Bootstrap.

(** ** The vocabulary of the statements

    Predicates and example data that the theorems of Part II are stated
    with. *)

Module JSSpec.
Import JS.

(** A string is its own trim when it neither starts nor ends with white
    space. *)
Definition trimmed (s : jstring) : bool :=
  match s with
  | [] => true
  | c :: _ => negb (is_ws c) && negb (is_ws (List.last s c))
  end.

(** All the values of a property list are well formed. *)
Definition values_well_formed (o : obj) : bool :=
  forallb (λ kv, well_formed kv.2) o.

End JSSpec.

Module EngineSpec.
Import JS JSSpec MJSSEngine.

(** Does the string start, or end, with a straight quote? *)
Definition starts_with_quote (s : jstring) : bool :=
  match s with c :: _ => is_quote c | [] => false end.

Definition ends_with_quote (s : jstring) : bool :=
  starts_with_quote (reverse s).

(** The nested tree [m] is the one-level merge of [a] and [b]: the keys
    of [b] override, the other keys of [a] are kept. *)
Definition one_level_merge (a b m : obj) : Prop :=
  ∀ n, obj_get m n = match obj_get b n with Some v => Some v | None => obj_get a n end.

(** The report [handleError] adds. *)
Definition failure_report (this : MJSSEngine) (context : jstring)
    (error : jserror) : report :=
  if onError this then OnError context error
  else ConsoleError (js "[" ++ context ++ js " ERROR]") error.

(** The tree [updateMJSS] installs. *)
Definition combined (this : MJSSEngine) (newProps : obj) (replace : bool) : obj :=
  if replace then newProps else merge_props (currentMJSSProps this) newProps.


(** What is stored under the key of the engine, the empty string when
    there is nothing. *)
Definition savedScript (this : MJSSEngine) (w : world) : jstring :=
  default [] (storage w !! localStorageKey this).

(** The container the options name exists. *)
Definition resolves (h : host) (options : MJSSEngineOptions) (elem : element)
    : Prop :=
  container options = ByElement elem
  ∨ ∃ id, container options = ById id ∧ getElementById h id = Some elem.

(** The realm of the examples: the walk of the parser throws a
    [TypeError], as it does for [toString.length = 5] (the length of a
    function cannot be written) and, where the built-in objects are
    frozen, for every write to them. Nothing else of the call is reached
    then. *)
Definition refusing : call → MJSSEngine → world → excursion :=
  λ _ _ _,
    {| parsed := Abrupt TypeError; merged_animation := [];
       made_button := false; page_ops := []; render_thrown := None;
       serialized := Normal [] |}.

(** A page with the element [app] and nothing that fails. *)
Definition page : host :=
  {| getElementById := λ id, if decide (id = js "app") then Some 7 else None;
     dom_fault := λ _, None;
     getItem_fault := λ _, None;
     setItem_fault := λ _ _, None;
     realm := refusing |}.

(** The same page with a container that refuses children. *)
Definition page_no_children : host :=
  {| getElementById := getElementById page;
     dom_fault := λ op, match op with
                        | AppendChild _ => Some (DOMException (js "HierarchyRequestError"))
                        | _ => None
                        end;
     getItem_fault := λ _, None;
     setItem_fault := λ _ _, None;
     realm := refusing |}.

(** The same page with a store that is full. *)
Definition page_store_full : host :=
  {| getElementById := getElementById page;
     dom_fault := λ _, None;
     getItem_fault := λ _, None;
     setItem_fault := λ _ _, Some (DOMException (js "QuotaExceededError"));
     realm := refusing |}.


(** [a] is first a string and then descended into: the [in] operator
    throws on the string. *)
Definition conflicting_script : jstring :=
  js "a = 1" ++ [LF] ++ js "a.b.c = 2".

(** A world with nothing stored, and one with a saved script. *)
Definition blank : world := {| storage := ∅; dom := []; reports := [] |}.

Definition saved (script : jstring) : world :=
  {| storage := {[ js "MJSS_SCRIPT" := script ]}; dom := []; reports := [] |}.

(** An engine that has not rendered yet, and the options that name the
    element of the page. *)
Definition an_engine : MJSSEngine :=
  {| containerElem := 7; localStorageKey := js "MJSS_SCRIPT"; onError := true;
     currentMJSSProps := [(js "text", VStr (js "Hi"))]; buttonElem := false |}.

Definition app_options : MJSSEngineOptions :=
  {| container := ById (js "app"); opt_localStorageKey := None;
     opt_onError := true |}.

(** Keys and texts that survive the script syntax. *)
Definition segment_char (c : N) : bool :=
  negb (is_ws c) && negb (bool_decide (c = DOT)) && negb (bool_decide (c = EQUALS)).

(** A segment of the grammar: not empty, without dot, equals sign or white
    space. *)
Definition segment (k : jstring) : bool :=
  negb (is_empty k) && forallb segment_char k.

(** A segment that is not read as a comment and is not the name of a
    member of [Object.prototype]. *)
Definition plain_key (k : jstring) : bool :=
  segment k && negb (startsWith [HASH] k) && negb (inherited k).

Definition text_char (c : N) : bool :=
  negb (bool_decide (c = EQUALS)) && negb (bool_decide (c = LF)).

(** A text without equals sign and line feed that does not start or end
    with white space. *)
Definition plain_text (s : jstring) : bool :=
  trimmed s && forallb text_char s.

Definition plain_leaf (v : value) : bool :=
  match v with VStr s => plain_text s | VObj _ => false end.

(** A nested entry: a plain key with a plain text. *)
Definition plain_nested (nkv : jstring * value) : bool :=
  plain_key nkv.1 && plain_leaf nkv.2.

(** A top-level entry: a plain key with a plain text, or with a nested
    tree of nested entries. *)
Definition plain_entry (kv : jstring * value) : bool :=
  plain_key kv.1
  && match kv.2 with
     | VStr s => plain_text s
     | VObj nested =>
         enumeration_order nested.*1 && forallb plain_nested nested
     end.

(** A tree with one level of nesting whose keys and texts are plain. *)
Definition plain_tree (t : obj) : bool :=
  enumeration_order t.*1 && forallb plain_entry t.

(** No leaf has a straight quote. *)
Definition quote_free (s : jstring) : bool := forallb (λ c, negb (is_quote c)) s.

Definition quote_free_value (v : value) : bool :=
  match v with
  | VStr s => quote_free s
  | VObj nested =>
      forallb (λ nkv, match nkv.2 with VStr s => quote_free s | VObj _ => true end)
              nested
  end.

Definition quote_free_tree (t : obj) : bool :=
  forallb (λ kv, quote_free_value kv.2) t.

(** An entry that serializes to no line at all. *)
Definition is_empty_nested (kv : jstring * value) : bool :=
  match kv.2 with VObj [] => true | _ => false end.

(** The tree without its empty nested trees. *)
Definition without_empty_nested (t : obj) : obj :=
  List.filter (λ kv, negb (is_empty_nested kv)) t.

(** The text a coercion gives when it does not throw, and the values for
    which it does not. *)
Definition value_text (v : value) : jstring :=
  match v with
  | VStr s => s
  | VObj _ => js "[object Object]"
  end.

Definition coercible (v : value) : bool :=
  match v with
  | VStr _ => true
  | VObj o => negb (obj_has o (js "toString"))
  end.

(** A tree [buildMJSS] serializes: no value at the second level is an
    object with a [toString] of its own. *)
Definition serializable (t : obj) : bool :=
  forallb (λ kv, match kv.2 with
                 | VStr _ => true
                 | VObj nested => forallb (λ nkv, coercible nkv.2) nested
                 end) t.

(** A tree that is rendered and serialized without a coercion that
    throws: no object at the first or second level has a [toString] of
    its own. *)
Definition coercible_tree (t : obj) : bool :=
  forallb (λ kv, coercible kv.2) t && serializable t.

(** The lines and the text of a tree that is serializable. *)
Definition entry_lines (kv : jstring * value) : list jstring :=
  let '(key, val) := kv in
  match val with
  | VObj nested =>
      (λ nkv : jstring * value,
         key ++ js "." ++ nkv.1 ++ js " = "
         ++ [DQUOTE] ++ value_text nkv.2 ++ [DQUOTE])
        <$> nested
  | VStr s => [key ++ js " = " ++ [DQUOTE] ++ s ++ [DQUOTE]]
  end.

Definition tree_lines (props : obj) : list jstring :=
  concat (entry_lines <$> props).

Definition tree_text (props : obj) : jstring :=
  join [LF] (tree_lines props).

(** The operations of the statements before the first whose coercion
    throws, and those of the property block of [renderButton]. *)
Fixpoint writes (steps : list (completion dom_op)) : list dom_op :=
  match steps with
  | Normal op :: steps' => op :: writes steps'
  | _ => []
  end.

Definition property_ops (props : obj) : list dom_op :=
  writes (property_steps props).

(** The line [buildMJSS] makes of a key path and a text. *)
Definition assignment (path text : jstring) : jstring :=
  path ++ js " = " ++ [DQUOTE] ++ text ++ [DQUOTE].

(** The path of a nested key. *)
Definition nested_path (key nestedKey : jstring) : jstring :=
  key ++ js "." ++ nestedKey.

End EngineSpec.

Module InterpreterSpec.
Import JS MJSSInterpreter.

(** The interpreter the constructor builds. *)
Definition fresh (cfg : option MJSSInterpreterConfig) : MJSSInterpreter :=
  {| config := default {| onError := false; onLineParsed := None |} cfg;
     env := [];
     commandRegistry :=
       <[js "animateElement" := animateElement]>
         (<[js "setProperty" := setProperty]> ∅);
     events := [] |}.

(** The events that are failures: the calls of [handleError]. *)
Definition is_failure (ev : event) : bool :=
  match ev with
  | OnError _ _ | ConsoleError _ _ => true
  | OnLineParsed _ _ => false
  end.

Definition failures (this : MJSSInterpreter) : list event :=
  List.filter is_failure (events this).

(** The failure [handleError] records. *)
Definition failure_event (this : MJSSInterpreter) (context : jstring)
    (error : jserror) : event :=
  if onError (config this) then OnError context error
  else ConsoleError (js "[MJSS " ++ context ++ js " ERROR]") error.

End InterpreterSpec.

(** ** More vocabulary: lines, tokens *)

Module MoreSpec.
Import JS JSSpec MJSSInterpreter InterpreterSpec.

(** A line the interpreter passes over: blank, or a comment. *)
Definition skipped (line : jstring) : bool :=
  is_empty (trim line) || startsWith [HASH] (trim line).

(** A token: not empty, and without white space. *)
Definition is_token (t : jstring) : bool :=
  negb (is_empty t) && forallb (λ c, negb (is_ws c)) t.

(** Without white space (possibly empty). *)
Definition ws_free (t : jstring) : bool := forallb (λ c, negb (is_ws c)) t.

(** Empty, or ending with a character that is not white space. *)
Definition ends_well (s : jstring) : Prop :=
  match reverse s with [] => True | d :: _ => is_ws d = false end.

(** A name a line can call: a token that does not start with a hash
    sign. *)
Definition dispatchable (name : jstring) : bool :=
  is_token name && negb (startsWith [HASH] name).

(** Two interpreters that differ at most in the handler of [name]. *)
Definition agree_except (name : jstring) (this1 this2 : MJSSInterpreter) : Prop :=
  config this1 = config this2 ∧ env this1 = env this2
  ∧ events this1 = events this2
  ∧ ∀ other, other ≠ name →
      commandRegistry this1 !! other = commandRegistry this2 !! other.

End MoreSpec.

Module MoreEngineSpec.
Import JS JSSpec MJSSEngine EngineSpec.

(** A line the property parser passes over: blank, a comment, without
    equals sign, or with nothing but white space before the first equals
    sign. *)
Definition ignored (line : jstring) : bool :=
  is_empty (trim line) || startsWith [HASH] (trim line)
  || negb (bool_decide (EQUALS ∈ line))
  || is_empty (trim (hd [] (split EQUALS (trim line)))).

(** The operations that set a property of the button: its text, and the
    four style properties [renderButton] writes. *)
Definition style_properties : list jstring :=
  js <$> [ "backgroundColor"; "width"; "height"; "transition" ]%string.

Definition is_property_op (op : dom_op) : bool :=
  match op with
  | SetTextContent _ => true
  | SetStyle property _ => bool_decide (property ∈ style_properties)
  | CreateElement _ | SetId _ | AppendChild _ => false
  end.

(** The text or value an operation writes. *)
Definition written (op : dom_op) : jstring :=
  match op with
  | CreateElement tagName => tagName
  | SetId id => id
  | AppendChild _ => js "child"
  | SetTextContent text => text
  | SetStyle _ value => value
  end.

(** The operations that make the button and put it on the page. *)
Definition creation_ops (this : MJSSEngine) (props : obj) : list dom_op :=
  if buttonElem this then []
  else CreateElement (js "button")
       :: writes (when_set props "buttonID" SetId
                  ++ [Normal (AppendChild (containerElem this))]).



(** The world after a rendering in which nothing raised. *)
Definition rendered (this : MJSSEngine) (props : obj) (w : world) : world :=
  {| storage := storage w;
     dom := dom w ++ creation_ops this props ++ property_ops props;
     reports := reports w |}.

(** A session: calls of [updateMJSS] one after the other, each given as
    the script and the [replace] flag. *)
Fixpoint session (h : host) (this : MJSSEngine) (w : world)
    (updates : list (jstring * bool)) : outcome (MJSSEngine * world) :=
  match updates with
  | [] => Returns (this, w)
  | (newScript, replace) :: updates' =>
      bind (updateMJSS h this w newScript replace)
           (λ tw, session h tw.1 tw.2 updates')
  end.

(** A host on which nothing raises. *)
Definition faultless (h : host) : Prop :=
  (∀ op, dom_fault h op = None)
  ∧ (∀ key, getItem_fault h key = None)
  ∧ (∀ key value, setItem_fault h key value = None).

End MoreEngineSpec.

Module BootstrapSpec.
Import JS Bootstrap.

(** The strings a pattern matches, part by part. *)
Fixpoint lang (r : regex) (s : jstring) : Prop :=
  match r with
  | Empty => s = []
  | Char c => s = [c]
  | Class lo hi => ∃ x, s = [x] ∧ (lo ≤ x ≤ hi)%N
  | Seq r1 r2 => ∃ s1 s2, s = s1 ++ s2 ∧ lang r1 s1 ∧ lang r2 s2
  | Alt r1 r2 => lang r1 s ∨ lang r2 s
  | Opt r' => s = [] ∨ lang r' s
  end.

(** One to three decimal digits with a value of at most 255. *)
Definition is_octet (o : jstring) : bool :=
  negb (is_empty o) && (length o <=? 3)
  && match digits_val 0 o with
     | Some n => (n <=? 255)%N
     | None => false
     end.

(** The host name [127.o1.o2.o3]. *)
Definition dotted_quad (o1 o2 o3 : jstring) : jstring :=
  js "127." ++ o1 ++ js "." ++ o2 ++ js "." ++ o3.

(** The characters from [lo] on, [n] of them. *)
Definition chars_from (lo : N) (n : nat) : list N :=
  (λ i, (lo + N.of_nat i)%N) <$> seq 0 n.

(** A browser at a host name, and Node.js with a value of [NODE_ENV]. *)
Definition browser_at (host : jstring) : platform :=
  {| isNode := false; NODE_ENV := None; isBrowser := true; hostname := host |}.

Definition node_with (mode : option jstring) : platform :=
  {| isNode := true; NODE_ENV := mode; isBrowser := false; hostname := [] |}.

End BootstrapSpec.

(* ================================================================== *)
(** * Part II: properties *)
(* ================================================================== *)

(** ** Strings *)

Module JSFacts.
Import JS JSSpec.

Lemma split_nonempty sep s : split sep s ≠ [].
Proof.
  destruct s as [|c s]; simpl; [done|].
  case_decide; [done|]. by destruct (split sep s).
Qed.

Lemma split_no_sep sep s : sep ∉ s → split sep s = [s].
Proof.
  induction s as [|c s IH]; intros Hs; simpl; [done|].
  apply not_elem_of_cons in Hs as [Hc Hs].
  case_decide; [congruence|]. by rewrite IH.
Qed.

Lemma split_app sep a b :
  sep ∉ a → split sep (a ++ sep :: b) = a :: split sep b.
Proof.
  induction a as [|c a IH]; intros Ha; simpl.
  - by case_decide.
  - apply not_elem_of_cons in Ha as [Hc Ha].
    case_decide; [congruence|]. by rewrite IH.
Qed.

Lemma split_join sep pieces :
  pieces ≠ [] → Forall (λ p, sep ∉ p) pieces →
  split sep (join [sep] pieces) = pieces.
Proof.
  intros Hne Hall. induction Hall as [|p ps Hp Hps IH]; [done|].
  destruct ps as [|q ps]; simpl.
  - by apply split_no_sep.
  - rewrite split_app by done. f_equal. by apply IH.
Qed.

Lemma trimStart_cons_keep c s : is_ws c = false → trimStart (c :: s) = c :: s.
Proof. intros H. simpl. by rewrite H. Qed.

Lemma trimStart_cons_drop c s : is_ws c = true → trimStart (c :: s) = trimStart s.
Proof. intros H. simpl. by rewrite H. Qed.

Lemma trimStart_app_keep c s s' :
  is_ws c = false → trimStart ((c :: s) ++ s') = (c :: s) ++ s'.
Proof. intros H. simpl. by rewrite H. Qed.

Lemma trimEnd_snoc_keep s c : is_ws c = false → trimEnd (s ++ [c]) = s ++ [c].
Proof.
  intros H. unfold trimEnd. rewrite reverse_snoc, trimStart_cons_keep by done.
  by rewrite reverse_cons, reverse_involutive.
Qed.

Lemma trimEnd_snoc_drop s c : is_ws c = true → trimEnd (s ++ [c]) = trimEnd s.
Proof.
  intros H. unfold trimEnd. by rewrite reverse_snoc, trimStart_cons_drop.
Qed.

Lemma trimEnd_nil : trimEnd [] = [].
Proof. done. Qed.

Lemma last_snoc {A} (s : list A) (c d : A) : List.last (s ++ [c]) d = c.
Proof. induction s as [|x s IH]; [done|]. simpl. destruct (s ++ [c]) eqn:E; [by destruct s|done]. Qed.

Lemma trim_trimmed s : trimmed s = true → trim s = s.
Proof.
  destruct s as [|c s]; [done|]. unfold trimmed, trim.
  intros [Hc Hl]%andb_true_iff. apply negb_true_iff in Hc, Hl.
  rewrite trimStart_cons_keep by done.
  destruct (exists_last (l := c :: s)) as (s0 & d & E); [done|].
  rewrite E in Hl |- *. rewrite last_snoc in Hl. by apply trimEnd_snoc_keep.
Qed.

End JSFacts.

(** ** Objects *)

Module ObjFacts.
Import JS.

Lemma obj_has_true o k : obj_has o k = true ↔ is_Some (obj_get o k).
Proof. unfold obj_has. destruct (obj_get o k); split; (done || by intros [? ?] || eauto). Qed.

Lemma obj_has_false o k : obj_has o k = false ↔ obj_get o k = None.
Proof. unfold obj_has. by destruct (obj_get o k). Qed.

Lemma obj_get_None o k : obj_get o k = None ↔ k ∉ o.*1.
Proof.
  induction o as [|[k' v] o IH]; simpl.
  - split; [intros _; apply not_elem_of_nil | done].
  - rewrite not_elem_of_cons. simpl. case_decide; subst.
    + split; [done | by intros [? _]].
    + rewrite IH. split; [intros ?; split; [congruence | done] | by intros [_ ?]].
Qed.

Lemma obj_get_app o1 o2 k :
  obj_get (o1 ++ o2) k =
  match obj_get o1 k with Some v => Some v | None => obj_get o2 k end.
Proof.
  induction o1 as [|[k' v] o1 IH]; simpl; [done|]. by case_decide.
Qed.

Lemma obj_get_update_eq o k v :
  obj_has o k = true → obj_get (obj_update o k v) k = Some v.
Proof.
  unfold obj_has. induction o as [|[k' v'] o IH]; simpl; [done|].
  case_decide; simpl; case_decide; done.
Qed.

Lemma obj_get_update_ne o k k' v :
  k ≠ k' → obj_get (obj_update o k v) k' = obj_get o k'.
Proof.
  intros Hne. induction o as [|[k0 v0] o IH]; simpl; [done|].
  repeat (case_decide; simpl); subst; congruence.
Qed.

Lemma obj_get_insert_index_eq o k i v :
  obj_get o k = None → obj_get (obj_insert_index o k i v) k = Some v.
Proof.
  induction o as [|[k' v'] o IH]; simpl.
  - by case_decide.
  - case_decide; [done|]. intros Hk.
    destruct (array_index k') as [j|]; [destruct (j <? i)%N|]; simpl;
      repeat case_decide; try done; by apply IH.
Qed.

Lemma obj_get_insert_index_ne o k k' i v :
  k ≠ k' → obj_get (obj_insert_index o k i v) k' = obj_get o k'.
Proof.
  intros Hne. induction o as [|[k0 v0] o IH]; simpl.
  - by case_decide.
  - destruct (array_index k0) as [j|]; [destruct (j <? i)%N|]; simpl;
      repeat case_decide; try done; congruence.
Qed.

Lemma obj_get_define_eq o k v : obj_get (obj_define o k v) k = Some v.
Proof.
  unfold obj_define. destruct (obj_has o k) eqn:E.
  - by apply obj_get_update_eq.
  - apply obj_has_false in E. destruct (array_index k).
    + by apply obj_get_insert_index_eq.
    + rewrite obj_get_app, E. simpl. by case_decide.
Qed.

Lemma obj_get_define_ne o k k' v :
  k ≠ k' → obj_get (obj_define o k v) k' = obj_get o k'.
Proof.
  intros Hne. unfold obj_define. destruct (obj_has o k).
  - by apply obj_get_update_ne.
  - destruct (array_index k).
    + by apply obj_get_insert_index_ne.
    + rewrite obj_get_app. simpl. case_decide; [done|]. by destruct (obj_get o k').
Qed.

Lemma obj_get_define o k k' v :
  obj_get (obj_define o k v) k' = if decide (k = k') then Some v else obj_get o k'.
Proof.
  case_decide; subst; [apply obj_get_define_eq | by apply obj_get_define_ne].
Qed.

Lemma obj_get_put_ne o k k' v :
  k ≠ k' → obj_get (js_put o k v) k' = obj_get o k'.
Proof.
  intros Hne. unfold js_put. destruct (obj_has o k).
  - by apply obj_get_update_ne.
  - case_decide; [done|]. by apply obj_get_define_ne.
Qed.

Lemma obj_get_put_eq o k v :
  k ≠ js "__proto__" → obj_get (js_put o k v) k = Some v.
Proof.
  intros Hne. unfold js_put. destruct (obj_has o k) eqn:E.
  - by apply obj_get_update_eq.
  - case_decide; [done|]. apply obj_get_define_eq.
Qed.

Lemma js_put_plain o k v :
  k ≠ js "__proto__" → js_put o k v = obj_define o k v.
Proof.
  intros Hne. unfold js_put, obj_define. destruct (obj_has o k); [done|].
  by case_decide.
Qed.

End ObjFacts.

(** ** The property parser: value normalization and key paths *)

Module ParserFacts.
Import JS JSSpec MJSSEngine EngineSpec JSFacts ObjFacts.

Lemma strip_leading_quote_cons q s :
  is_quote q = true → strip_leading_quote (q :: s) = s.
Proof. intros H. simpl. by rewrite H. Qed.

Lemma strip_leading_quote_id s :
  starts_with_quote s = false → strip_leading_quote s = s.
Proof. destruct s as [|c s]; simpl; [done|]. by intros ->. Qed.

Lemma strip_trailing_quote_snoc s q :
  is_quote q = true → strip_trailing_quote (s ++ [q]) = s.
Proof.
  intros H. unfold strip_trailing_quote.
  by rewrite reverse_snoc, strip_leading_quote_cons, reverse_involutive.
Qed.

Lemma strip_trailing_quote_id s :
  ends_with_quote s = false → strip_trailing_quote s = s.
Proof.
  intros H. unfold strip_trailing_quote.
  by rewrite strip_leading_quote_id, reverse_involutive.
Qed.

Lemma starts_with_quote_app s s' :
  s ≠ [] → starts_with_quote (s ++ s') = starts_with_quote s.
Proof. by destruct s. Qed.

Lemma cleanedValue_both_ends q1 q2 body :
  is_quote q1 = true → is_quote q2 = true →
  cleanedValue (q1 :: body ++ [q2]) = trim body.
Proof.
  intros H1 H2. unfold cleanedValue, strip_quotes.
  by rewrite strip_leading_quote_cons, strip_trailing_quote_snoc.
Qed.

Lemma cleanedValue_start_only q body :
  is_quote q = true → ends_with_quote body = false →
  cleanedValue (q :: body) = trim body.
Proof.
  intros Hq Hb. unfold cleanedValue, strip_quotes.
  by rewrite strip_leading_quote_cons, strip_trailing_quote_id.
Qed.

Lemma cleanedValue_end_only q body :
  is_quote q = true → starts_with_quote body = false →
  cleanedValue (body ++ [q]) = trim body.
Proof.
  intros Hq Hb. unfold cleanedValue, strip_quotes. destruct body as [|c body].
  - simpl. by rewrite Hq.
  - rewrite strip_leading_quote_id by (by rewrite starts_with_quote_app).
    by rewrite strip_trailing_quote_snoc.
Qed.

Lemma cleanedValue_no_quote raw :
  starts_with_quote raw = false → ends_with_quote raw = false →
  cleanedValue raw = trim raw.
Proof.
  intros H1 H2. unfold cleanedValue, strip_quotes.
  by rewrite strip_leading_quote_id, strip_trailing_quote_id.
Qed.

(** C7 (as the code has it): the replace removes one straight quote at the
    start of the raw value when there is one and, independently, one at the
    end when there is one, whether or not the two are the same character
    and whether or not the other end has one; the result is then trimmed.
    Nothing else is removed: a value that neither starts nor ends with a
    straight quote (curly quotes included) is only trimmed. *)
Theorem cleanedValue_strips_each_end :
  (∀ q1 q2 body, is_quote q1 = true → is_quote q2 = true →
     cleanedValue (q1 :: body ++ [q2]) = trim body)
  ∧ (∀ q body, is_quote q = true → ends_with_quote body = false →
       cleanedValue (q :: body) = trim body)
  ∧ (∀ q body, is_quote q = true → starts_with_quote body = false →
       cleanedValue (body ++ [q]) = trim body)
  ∧ (∀ raw, starts_with_quote raw = false → ends_with_quote raw = false →
       cleanedValue raw = trim raw).
Proof.
  split; [exact cleanedValue_both_ends|].
  split; [exact cleanedValue_start_only|].
  split; [exact cleanedValue_end_only | exact cleanedValue_no_quote].
Qed.

(** An unmatched quote, two different quotes, and a pair of curly quotes. *)
Lemma cleanedValue_strips_each_end_witness :
  cleanedValue (DQUOTE :: js "abc" ++ [SQUOTE]) = js "abc"
  ∧ cleanedValue (DQUOTE :: js "abc") = js "abc"
  ∧ cleanedValue (js "abc" ++ [SQUOTE]) = js "abc"
  ∧ cleanedValue ([8220%N] ++ js "abc" ++ [8221%N]) = [8220%N] ++ js "abc" ++ [8221%N].
Proof.
  destruct cleanedValue_strips_each_end as (Hboth & Hlead & Htrail & Hnone).
  split; [|split; [|split]].
  - exact (Hboth DQUOTE SQUOTE (js "abc") eq_refl eq_refl).
  - exact (Hlead DQUOTE (js "abc") eq_refl eq_refl).
  - exact (Htrail SQUOTE (js "abc") eq_refl eq_refl).
  - exact (Hnone ([8220%N] ++ js "abc" ++ [8221%N]) eq_refl eq_refl).
Defined.

(** C7, the claim as stated fails: a raw value with a quote at its start
    only loses that quote. *)
Lemma cleanedValue_unmatched_quote_stripped :
  ends_with_quote (DQUOTE :: js "abc") = false
  ∧ cleanedValue (DQUOTE :: js "abc") = js "abc"
  ∧ cleanedValue (DQUOTE :: js "abc") ≠ DQUOTE :: js "abc".
Proof.
  split; [reflexivity|]. split; [reflexivity|].
  intros H. vm_compute in H. discriminate H.
Qed.

(** C6: the line is split at every [=] and only the first two pieces are
    used, so a value is cut at its first [=]; of a quoted value the closing
    quote is cut off with the rest. *)
Theorem parseMJSS_cuts_value_at_equals :
  parseMJSS (js "a = x=y") = Returns [(js "a", VStr (js "x"))]
  ∧ parseMJSS (js "url = 'http://h/?q=1'")
    = Returns [(js "url", VStr (js "http://h/?q"))].
Proof. split; reflexivity. Qed.

(** C8: a key path with an empty segment stores a mapping under the empty
    key, at the top level or in a nested tree. *)
Theorem parseMJSS_stores_empty_key :
  parseMJSS (js ".a = 1") = Returns [([], VObj [(js "a", VStr (js "1"))])]
  ∧ parseMJSS (js "a. = 1") = Returns [(js "a", VObj [([], VStr (js "1"))])].
Proof. split; reflexivity. Qed.

End ParserFacts.

(** ** The command interpreter *)

Module InterpreterFacts.
Import JS JSSpec MJSSInterpreter InterpreterSpec JSFacts ObjFacts.

Lemma constructor_returns cfg : constructor cfg = Returns (fresh cfg).
Proof. reflexivity. Qed.

Lemma fresh_setProperty cfg :
  commandRegistry (fresh cfg) !! js "setProperty" = Some setProperty.
Proof.
  unfold fresh. cbn [commandRegistry].
  rewrite lookup_insert_ne by (intros H; vm_compute in H; discriminate H).
  apply lookup_insert_eq.
Qed.

(** C10: with at least two arguments the built-in [animateElement], the
    handler a new interpreter has under that name, returns normally,
    stores the object with [animationName] (first argument) and [duration]
    (second argument) under [lastAnimation], whatever arguments follow, and
    leaves every other key of the environment as it was. *)
Theorem animateElement_records_last_animation :
  ∀ cfg, ∃ this,
    constructor cfg = Returns this
    ∧ commandRegistry this !! js "animateElement" = Some animateElement
    ∧ ∀ (animationName duration : jstring) (more : list jstring) (e : obj),
        let record := VObj [(js "animationName", VStr animationName);
                            (js "duration", VStr duration)] in
        animateElement (animationName :: duration :: more) e
          = (js_put e (js "lastAnimation") record, None)
        ∧ obj_get (js_put e (js "lastAnimation") record) (js "lastAnimation")
            = Some record
        ∧ ∀ k, k ≠ js "lastAnimation" →
            obj_get (js_put e (js "lastAnimation") record) k = obj_get e k.
Proof.
  intros cfg. exists (fresh cfg). split; [apply constructor_returns|].
  split; [apply lookup_insert_eq|].
  intros a d more e record. split; [done|]. split.
  - by apply obj_get_put_eq.
  - intros k Hk. by apply obj_get_put_ne.
Qed.

Lemma parse_line_registry this line :
  commandRegistry (parse_line this line) = commandRegistry this
  ∧ config (parse_line this line) = config this.
Proof.
  unfold parse_line.
  destruct (is_empty line || startsWith [HASH] line); [done|].
  destruct (commandRegistry this !! _) as [h|]; [|done].
  destruct (h _ _) as [e' [err|]]; [done|]. simpl.
  destruct (onLineParsed (config this)) as [hook|]; [|done].
  by destruct (hook _ _).
Qed.

Lemma parse_line_events this line :
  ∃ evs, events (parse_line this line) = events this ++ evs.
Proof.
  unfold parse_line.
  destruct (is_empty line || startsWith [HASH] line);
    [exists []; by rewrite app_nil_r|].
  destruct (commandRegistry this !! _) as [h|]; [|by eexists].
  destruct (h _ _) as [e' [err|]]; [by eexists|]. simpl.
  destruct (onLineParsed (config this)) as [hook|];
    [|exists []; by rewrite app_nil_r].
  destruct (hook _ _); simpl; [rewrite <- app_assoc|]; by eexists.
Qed.

Lemma parse_lines_events lines : ∀ this,
  ∃ evs, events (foldl parse_line this lines) = events this ++ evs.
Proof.
  induction lines as [|l lines IH]; intros this; simpl.
  - exists []. by rewrite app_nil_r.
  - destruct (IH (parse_line this l)) as [evs ->].
    destruct (parse_line_events this l) as [evs' ->].
    rewrite <- app_assoc. by eexists.
Qed.

(** C5: in a script whose second line names a command that is not
    registered and whose third line is a [setProperty] with a key and a
    value, whatever the first line and the lines after the third are:
    the second line adds exactly one failure, the one for its command; the
    third line is run and assigns the joined value to the key in the
    environment the first line left; the remaining lines are run from
    there and only add to the log. *)
Theorem parse_isolates_failing_line
    (this : MJSSInterpreter) (line1 line2 line3 : jstring)
    (others : list jstring) (name key word : jstring) (words : list jstring) :
  Forall (λ l, LF ∉ l) (line1 :: line2 :: line3 :: others) →
  is_empty (trim line2) = false →
  startsWith [HASH] (trim line2) = false →
  hd [] (split_ws (trim line2)) = name →
  commandRegistry this !! name = None →
  split_ws (trim line3) = js "setProperty" :: key :: word :: words →
  commandRegistry this !! js "setProperty" = Some setProperty →
  (∀ hook, onLineParsed (config this) = Some hook →
           hook (js "setProperty") (key :: word :: words) = None) →
  let after1 := parse_line this (trim line1) in
  let after2 := parse_line after1 (trim line2) in
  let after3 := parse_line after2 (trim line3) in
  let script := join [LF] (line1 :: line2 :: line3 :: others) in
  events after2 = events after1
     ++ [failure_event this (js "parse")
           (Error (js "Unrecognized command: " ++ name))]
  ∧ env after2 = env after1
  ∧ env after3 = js_put (env after1) key (VStr (join (js " ") (word :: words)))
  ∧ failures after3 = failures after2
  ∧ parse this script = foldl parse_line after3 (trim <$> others)
  ∧ ∃ later, events (parse this script) = events after3 ++ later.
Proof.
  intros Hlines Hne2 Hhash2 Hname Hunreg Htok3 Hset Hhook after1 after2 after3 script.
  destruct (parse_line_registry this (trim line1)) as [Hreg1 Hcfg1].
  fold after1 in Hreg1, Hcfg1.
  assert (Hafter2 : after2 = handleError after1 (js "parse")
            (Error (js "Unrecognized command: " ++ name))).
  { unfold after2, parse_line. rewrite Hne2, Hhash2. cbn [orb].
    by rewrite Hname, Hreg1, Hunreg. }
  destruct (parse_line_registry after1 (trim line2)) as [Hreg2 Hcfg2].
  fold after2 in Hreg2, Hcfg2.
  assert (Hstep3 : after3 =
            let this' := set_env after2
              (js_put (env after1) key (VStr (join (js " ") (word :: words)))) in
            match onLineParsed (config this) with
            | None => this'
            | Some _ => log_event this'
                (OnLineParsed (js "setProperty") (key :: word :: words))
            end).
  { unfold after3, parse_line. rewrite Htok3.
    assert (is_empty (trim line3) || startsWith [HASH] (trim line3) = false) as ->.
    { destruct (trim line3) as [|c s]; [done|]. cbn.
      case_bool_decide; [subst c|done]. exfalso.
      unfold split_ws in Htok3. cbn [split_ws_from] in Htok3.
      change (is_ws HASH) with false in Htok3.
      destruct (split_ws_from false s); vm_compute in Htok3; discriminate. }
    cbn [hd tl]. rewrite Hreg2, Hreg1, Hset.
    change (setProperty (key :: word :: words) (env after2))
      with (js_put (env after2) key (VStr (join (js " ") (word :: words))), @None jserror).
    cbv beta iota zeta. change (config (set_env after2 ?e)) with (config after2).
    rewrite Hcfg2, Hcfg1, Hafter2.
    change (env (handleError after1 ?c ?e)) with (env after1).
    destruct (onLineParsed (config this)) as [hook|] eqn:Ehook; [|done].
    by rewrite (Hhook hook). }
  split; [|split; [|split; [|split; [|split]]]].
  - rewrite Hafter2. unfold handleError, failure_event. cbn. by rewrite Hcfg1.
  - by rewrite Hafter2.
  - rewrite Hstep3. cbv zeta. by destruct (onLineParsed (config this)).
  - unfold failures. rewrite Hstep3. cbv zeta.
    destruct (onLineParsed (config this)); [|done]. cbn [log_event set_env events].
    rewrite List.filter_app. cbn. by rewrite app_nil_r.
  - unfold parse, script. by rewrite split_join.
  - unfold parse, script. rewrite split_join by done.
    change (foldl parse_line this (trim <$> line1 :: line2 :: line3 :: others))
      with (foldl parse_line after3 (trim <$> others)).
    apply parse_lines_events.
Qed.

(** A three-line script on a new interpreter: a [setProperty], an unknown
    command, a [setProperty]. *)
Lemma parse_isolates_failing_line_witness :
  let this := fresh None in
  let script :=
    js "setProperty a hello world" ++ [LF] ++ js "bogus 1 2" ++ [LF]
    ++ js "  setProperty b x y" in
  failures (parse this script)
    = [ConsoleError (js "[MJSS parse ERROR]")
         (Error (js "Unrecognized command: bogus"))]
  ∧ obj_get (env (parse this script)) (js "b") = Some (VStr (js "x y")).
Proof.
  intros this script.
  destruct (parse_isolates_failing_line this
              (js "setProperty a hello world") (js "bogus 1 2")
              (js "  setProperty b x y") [] (js "bogus") (js "b") (js "x")
              [js "y"])
    as (Hev2 & Henv2 & Henv3 & Hfail3 & Hparse & _).
  - apply (bool_decide_unpack _). vm_compute. exact I.
  - vm_compute. reflexivity.
  - vm_compute. reflexivity.
  - vm_compute. reflexivity.
  - vm_compute. reflexivity.
  - vm_compute. reflexivity.
  - apply fresh_setProperty.
  - intros hook Hhook. vm_compute in Hhook. discriminate Hhook.
  - change (parse this script)
      with (parse this (join [LF] [js "setProperty a hello world";
                                   js "bogus 1 2"; js "  setProperty b x y"])).
    rewrite Hparse. cbn [fmap list_fmap foldl]. split.
    + rewrite Hfail3. unfold failures. rewrite Hev2. vm_compute. reflexivity.
    + rewrite Henv3. vm_compute. reflexivity.
Defined.

(** [animateElement fadeIn 2s now] in an environment that has a key [a]. *)
Lemma animateElement_records_last_animation_witness :
  let e := [(js "a", VStr (js "1"))] in
  let record := VObj [(js "animationName", VStr (js "fadeIn"));
                      (js "duration", VStr (js "2s"))] in
  animateElement [js "fadeIn"; js "2s"; js "now"] e
    = ([(js "a", VStr (js "1")); (js "lastAnimation", record)], None)
  ∧ obj_get (js_put e (js "lastAnimation") record) (js "a") = Some (VStr (js "1")).
Proof.
  intros e record.
  destruct (animateElement_records_last_animation None) as (this & _ & _ & H).
  destruct (H (js "fadeIn") (js "2s") [js "now"] e) as (Hrun & _ & Hother).
  split.
  - rewrite Hrun. vm_compute. reflexivity.
  - refine (eq_trans (Hother (js "a") _) eq_refl).
    intros H'. vm_compute in H'. discriminate H'.
Defined.

End InterpreterFacts.

(** ** The merge of [updateMJSS] *)

Module MergeFacts.
Import JS JSSpec MJSSEngine EngineSpec JSFacts ObjFacts.

Lemma comes_before_ne k1 k2 : comes_before k1 k2 = true → k1 ≠ k2.
Proof.
  unfold comes_before. intros [H _]%andb_true_iff.
  by apply negb_true_iff, bool_decide_eq_false in H.
Qed.

Lemma enumeration_order_app ks1 ks2 :
  enumeration_order (ks1 ++ ks2) = true ↔
  enumeration_order ks1 = true ∧ enumeration_order ks2 = true
  ∧ ∀ k1 k2, k1 ∈ ks1 → k2 ∈ ks2 → comes_before k1 k2 = true.
Proof.
  induction ks1 as [|k ks1 IH]; simpl.
  - split; [intros H; repeat split; [done|]|by intros (_ & H & _)].
    intros ?? []%elem_of_nil.
  - rewrite !andb_true_iff, forallb_app, andb_true_iff, IH, !forallb_forall.
    setoid_rewrite <- list_elem_of_In. split.
    + intros [[H1 H2] (H3 & H4 & H5)]. repeat split; try done.
      intros k1 k2 [->|Hk1]%elem_of_cons Hk2; eauto.
    + intros ([H1 H2] & H3 & H4). repeat split; try done.
      * intros k2 Hk2. apply H4; [left|done].
      * intros k1 k2 Hk1 Hk2. apply H4; [by right|done].
Qed.

Lemma enumeration_order_fresh ks k :
  enumeration_order (ks ++ [k]) = true → k ∉ ks.
Proof.
  intros (_ & _ & H)%enumeration_order_app Hin.
  by apply (comes_before_ne k k); [apply H; [done|left]|].
Qed.

(** Removing a key keeps the order. *)
Lemma enumeration_order_delete ks1 k ks2 :
  enumeration_order (ks1 ++ k :: ks2) = true →
  enumeration_order (ks1 ++ ks2) = true.
Proof.
  rewrite !enumeration_order_app. simpl. rewrite andb_true_iff.
  intros (H1 & [_ H2] & H3). repeat split; try done.
  intros k1 k2 Hk1 Hk2. apply H3; [done|by right].
Qed.

Lemma obj_insert_index_last o k i v :
  array_index k = Some i →
  (∀ k', k' ∈ o.*1 → comes_before k' k = true) →
  obj_insert_index o k i v = o ++ [(k, v)].
Proof.
  intros Hk. induction o as [|[k' v'] o IH]; intros Hall; simpl; [done|].
  assert (Hk' : comes_before k' k = true) by (apply Hall; left).
  unfold comes_before in Hk'. rewrite Hk in Hk'.
  apply andb_true_iff in Hk' as [_ Hk'].
  destruct (array_index k') as [j|]; [|done]. rewrite Hk'.
  f_equal. apply IH. intros k'' Hin. apply Hall. by right.
Qed.

(** Defining a key that comes after all the keys an object has appends
    it. *)
Lemma obj_define_last o k v :
  enumeration_order (o.*1 ++ [k]) = true → obj_define o k v = o ++ [(k, v)].
Proof.
  intros Hord. unfold obj_define.
  assert (obj_has o k = false) as ->
    by (by apply obj_has_false, obj_get_None, enumeration_order_fresh).
  destruct (array_index k) as [i|] eqn:Hk; [|done].
  apply obj_insert_index_last; [done|].
  apply enumeration_order_app in Hord as (_ & _ & H).
  intros k' Hin. apply H; [done|left].
Qed.

Lemma spread_app target source :
  enumeration_order ((target ++ source).*1) = true →
  spread target source = target ++ source.
Proof.
  revert target. induction source as [|[k v] source IH]; intros target Hord.
  - by rewrite app_nil_r.
  - unfold spread. simpl. fold (spread (obj_define target k v) source).
    replace (target ++ (k, v) :: source) with ((target ++ [(k, v)]) ++ source)
      in * by by rewrite <- app_assoc.
    rewrite obj_define_last; [by apply IH|].
    rewrite !fmap_app in Hord. simpl in Hord.
    by apply enumeration_order_app in Hord as (H & _).
Qed.

(** Copying an object into a new one gives the same object. *)
Lemma spread_copy o : enumeration_order o.*1 = true → spread [] o = o.
Proof. intros H. by apply (spread_app [] o). Qed.

Lemma obj_get_spread_absent source : ∀ target k,
  obj_get source k = None → obj_get (spread target source) k = obj_get target k.
Proof.
  induction source as [|[k0 v0] source IH]; intros target k; simpl; [done|].
  case_decide; [done|]. intros Hk. unfold spread. simpl.
  fold (spread (obj_define target k0 v0) source).
  rewrite IH by done. by apply obj_get_define_ne.
Qed.

Lemma obj_get_spread_present source : ∀ target k v,
  NoDup source.*1 → obj_get source k = Some v →
  obj_get (spread target source) k = Some v.
Proof.
  induction source as [|[k0 v0] source IH]; intros target k v Hnd; simpl; [done|].
  apply NoDup_cons in Hnd as [Hk0 Hnd]. unfold spread. simpl.
  fold (spread (obj_define target k0 v0) source).
  case_decide as Hk.
  - subst k0. intros [= ->].
    rewrite obj_get_spread_absent by by apply obj_get_None.
    apply obj_get_define_eq.
  - intros Hget. by apply IH.
Qed.

Lemma enumeration_order_NoDup ks : enumeration_order ks = true → NoDup ks.
Proof.
  induction ks as [|k ks IH]; simpl; [constructor|].
  intros [H1 H2]%andb_true_iff. constructor; [|by apply IH].
  intros Hin. rewrite forallb_forall in H1.
  by apply (comes_before_ne k k); [apply H1, list_elem_of_In|].
Qed.

(** Lookup in a spread: the source wins. *)
Lemma obj_get_spread target source k :
  enumeration_order source.*1 = true →
  obj_get (spread target source) k =
  match obj_get source k with Some v => Some v | None => obj_get target k end.
Proof.
  intros Hord. destruct (obj_get source k) as [v|] eqn:E.
  - apply obj_get_spread_present; [by apply enumeration_order_NoDup|done].
  - by apply obj_get_spread_absent.
Qed.

Lemma well_formed_lookup o k v :
  well_formed (VObj o) = true → obj_get o k = Some v → well_formed v = true.
Proof.
  simpl. intros [_ Hall]%andb_true_iff.
  induction o as [|[k' v'] o IH]; simpl in *; [done|].
  apply andb_true_iff in Hall as [Hv Hall].
  case_decide; [by intros [= <-]|by apply IH].
Qed.

Lemma well_formed_order o :
  well_formed (VObj o) = true → enumeration_order o.*1 = true.
Proof. simpl. by intros [H _]%andb_true_iff. Qed.

Lemma animation_ne k : k ≠ ANIMATION → ANIMATION ≠ k.
Proof. done. Qed.

(** C2 (as the code has it): in merge mode the one-level merge of nested
    trees is done for the key [animation], and for no other key: when
    [animation] is a nested tree in both trees the combined tree has their
    one-level merge there; any other key of the new tree has the new value
    in the combined tree, a nested tree included, so that the nested keys
    the current tree had there are gone. *)
Theorem merge_props_one_level_for_animation (current newProps : obj) :
  well_formed (VObj current) = true →
  well_formed (VObj newProps) = true →
  (∀ a b, obj_get current ANIMATION = Some (VObj a) →
          obj_get newProps ANIMATION = Some (VObj b) →
          ∃ m, obj_get (merge_props current newProps) ANIMATION = Some (VObj m)
               ∧ one_level_merge a b m)
  ∧ (∀ k v, k ≠ ANIMATION → obj_get newProps k = Some v →
            obj_get (merge_props current newProps) k = Some v).
Proof.
  intros Hcur Hnew. split.
  - intros a b Ha Hb. eexists. split.
    + unfold merge_props. apply obj_get_define_eq.
    + rewrite Ha, Hb. simpl. intros n.
      assert (enumeration_order a.*1 = true)
        by (by apply well_formed_order, (well_formed_lookup current ANIMATION)).
      assert (enumeration_order b.*1 = true)
        by (by apply well_formed_order, (well_formed_lookup newProps ANIMATION)).
      rewrite obj_get_spread by done. by rewrite spread_copy.
  - intros k v Hk Hget. unfold merge_props.
    rewrite obj_get_define_ne by by apply animation_ne.
    rewrite obj_get_spread by by apply well_formed_order.
    by rewrite Hget.
Qed.

Lemma merge_props_one_level_for_animation_witness :
  let current := [(js "style", VObj [(js "a", VStr (js "1"))]);
                  (ANIMATION, VObj [(js "type", VStr (js "fade"));
                                    (js "duration", VStr (js "1s"))])] in
  let newProps := [(js "style", VObj [(js "b", VStr (js "2"))]);
                   (ANIMATION, VObj [(js "duration", VStr (js "2s"))])] in
  (∃ m, obj_get (merge_props current newProps) ANIMATION = Some (VObj m)
        ∧ obj_get m (js "type") = Some (VStr (js "fade"))
        ∧ obj_get m (js "duration") = Some (VStr (js "2s")))
  ∧ obj_get (merge_props current newProps) (js "style")
      = Some (VObj [(js "b", VStr (js "2"))]).
Proof.
  intros current newProps.
  destruct (merge_props_one_level_for_animation current newProps eq_refl eq_refl)
    as [Hanim Hother].
  split.
  - destruct (Hanim _ _ eq_refl eq_refl) as (m & Hm & Hmerge).
    exists m. split; [exact Hm|]. split.
    + exact (Hmerge (js "type")).
    + exact (Hmerge (js "duration")).
  - apply Hother; [|reflexivity].
    intros H. vm_compute in H. discriminate H.
Defined.

(** C2, the claim as stated fails: [style] is a nested tree in both trees,
    and the nested key [a] of the current tree is not kept. *)
Lemma merge_props_replaces_other_nested_tree :
  let current := [(js "style", VObj [(js "a", VStr (js "1"))])] in
  let newProps := [(js "style", VObj [(js "b", VStr (js "2"))])] in
  ¬ ∃ m, obj_get (merge_props current newProps) (js "style") = Some (VObj m)
         ∧ one_level_merge [(js "a", VStr (js "1"))] [(js "b", VStr (js "2"))] m.
Proof.
  intros current newProps (m & Hm & Hmerge).
  vm_compute in Hm. injection Hm as <-.
  specialize (Hmerge (js "a")). vm_compute in Hmerge. discriminate Hmerge.
Qed.

(** C3 (as the code has it): in merge mode a key that the new tree does
    not have keeps the value, or the absence, it has in the current tree,
    when it is not [animation]; [animation] keeps its value when that is a
    nested tree. *)
Theorem merge_props_keeps_untouched_key (current newProps : obj) (k : jstring) :
  well_formed (VObj current) = true →
  obj_get newProps k = None →
  (k ≠ ANIMATION →
     obj_get (merge_props current newProps) k = obj_get current k)
  ∧ (∀ a, k = ANIMATION → obj_get current k = Some (VObj a) →
       obj_get (merge_props current newProps) k = Some (VObj a)).
Proof.
  intros Hcur Habsent. split.
  - intros Hk. unfold merge_props.
    rewrite obj_get_define_ne by by apply animation_ne.
    rewrite obj_get_spread_absent by done.
    rewrite obj_get_spread by by apply well_formed_order.
    by destruct (obj_get current k).
  - intros a -> Ha. unfold merge_props.
    rewrite obj_get_define_eq, Ha, Habsent. simpl. f_equal. f_equal.
    change (spread (spread [] a) []) with (spread [] a).
    by apply spread_copy, well_formed_order, (well_formed_lookup current ANIMATION).
Qed.

Lemma merge_props_keeps_untouched_key_witness :
  let current := [(js "text", VStr (js "Hi"));
                  (ANIMATION, VObj [(js "type", VStr (js "fade"))])] in
  let newProps := [(js "width", VStr (js "200px"))] in
  obj_get (merge_props current newProps) (js "text") = Some (VStr (js "Hi"))
  ∧ obj_get (merge_props current newProps) (js "height") = None
  ∧ obj_get (merge_props current newProps) ANIMATION
      = Some (VObj [(js "type", VStr (js "fade"))]).
Proof.
  intros current newProps. split; [|split].
  - refine (proj1 (merge_props_keeps_untouched_key current newProps (js "text")
                     eq_refl eq_refl) _).
    intros H. vm_compute in H. discriminate H.
  - refine (proj1 (merge_props_keeps_untouched_key current newProps (js "height")
                     eq_refl eq_refl) _).
    intros H. vm_compute in H. discriminate H.
  - exact (proj2 (merge_props_keeps_untouched_key current newProps ANIMATION
                    eq_refl eq_refl) _ eq_refl eq_refl).
Defined.

(** C3, the claim as stated fails: [animation] is in neither tree and is
    in the combined tree. *)
Lemma merge_props_creates_animation :
  obj_get [] ANIMATION = None
  ∧ obj_get (merge_props [] []) ANIMATION ≠ obj_get [] ANIMATION.
Proof. split; [reflexivity|]. intros H. vm_compute in H. discriminate H. Qed.

End MergeFacts.

(** ** The engine: [updateMJSS] and the constructor *)

Module EngineFacts.
Import JS JSSpec MJSSEngine EngineSpec MoreEngineSpec JSFacts ObjFacts.

Lemma handleError_reports this context error w :
  reports (handleError this context error w)
    = reports w ++ [failure_report this context error]
  ∧ storage (handleError this context error w) = storage w
  ∧ dom (handleError this context error w) = dom w.
Proof. done. Qed.

Lemma perform_keeps h steps : ∀ w w' thrown,
  perform h steps w = (w', thrown) →
  reports w' = reports w ∧ storage w' = storage w.
Proof.
  induction steps as [|[op|e] steps IH]; intros w w' thrown; simpl.
  - by intros [= <- _].
  - destruct (dom_fault h op); [by intros [= <- _]|].
    intros H. by apply IH in H.
  - by intros [= <- _].
Qed.

(** Rendering changes neither the tree nor the settings of the engine, and
    touches neither the store nor the reports. *)
Lemma renderButton_keeps h this w this' w' thrown :
  renderButton h this w = (this', w', thrown) →
  currentMJSSProps this' = currentMJSSProps this
  ∧ localStorageKey this' = localStorageKey this
  ∧ onError this' = onError this
  ∧ containerElem this' = containerElem this
  ∧ reports w' = reports w ∧ storage w' = storage w.
Proof.
  unfold renderButton. destruct (buttonElem this).
  - destruct (perform h _ w) as [w1 t1] eqn:E. intros [= <- <- <-].
    apply perform_keeps in E as [? ?]. by repeat split.
  - simpl. destruct (dom_fault h _); [by intros [= <- <- <-]|].
    destruct (perform h _ _) as [w1 t1] eqn:E. intros [= <- <- <-].
    apply perform_keeps in E as [? ?]. by repeat split.
Qed.








End EngineFacts.

(** ** The representation invariant is kept *)

Module Invariant.
Import JS JSSpec MJSSEngine EngineSpec JSFacts ObjFacts MergeFacts.

(** *** Array indices are canonical numerals *)

Lemma digit_val_inv c d : digit_val c = Some d → c = (d + 48)%N ∧ (d < 10)%N.
Proof.
  unfold digit_val. destruct (_ && _) eqn:E; [|done]. intros [= <-].
  apply andb_true_iff in E as [H1%N.leb_le H2%N.leb_le]. lia.
Qed.

Lemma digits_val_shift s : ∀ acc,
  digits_val acc s
    = (λ m, acc * 10 ^ N.of_nat (length s) + m)%N <$> digits_val 0 s.
Proof.
  induction s as [|c s IH]; intros acc.
  - simpl. f_equal. lia.
  - cbn [digits_val]. destruct (digit_val c) as [d|]; [|done].
    rewrite (IH (acc * 10 + d)%N), (IH (0 * 10 + d)%N).
    destruct (digits_val 0 s) as [m|]; [|done]. cbn. f_equal.
    rewrite Nat2N.inj_succ, N.pow_succ_r'. lia.
Qed.

Lemma digits_val_bound s : ∀ m,
  digits_val 0 s = Some m → (m < 10 ^ N.of_nat (length s))%N.
Proof.
  induction s as [|c s IH]; intros m.
  - intros [= <-]. simpl. lia.
  - cbn [digits_val]. destruct (digit_val c) as [d|] eqn:Ed; [|done].
    rewrite digits_val_shift. destruct (digits_val 0 s) as [m'|]; [|done].
    intros [= <-]. apply digit_val_inv in Ed as [_ Hd].
    specialize (IH m' eq_refl).
    cbn [length]. rewrite Nat2N.inj_succ, N.pow_succ_r'. nia.
Qed.

Lemma digits_val_inj s1 : ∀ s2 m,
  length s1 = length s2 →
  digits_val 0 s1 = Some m → digits_val 0 s2 = Some m → s1 = s2.
Proof.
  induction s1 as [|c1 s1 IH]; intros [|c2 s2] m Hlen; try done.
  cbn [digits_val].
  destruct (digit_val c1) as [d1|] eqn:E1; [|done].
  destruct (digit_val c2) as [d2|] eqn:E2; [|done].
  rewrite !(digits_val_shift _ (0 * 10 + _)%N).
  destruct (digits_val 0 s1) as [m1|] eqn:Em1; [|done].
  destruct (digits_val 0 s2) as [m2|] eqn:Em2; [|done].
  cbn. intros [= <-] [= Heq].
  injection Hlen as Hlen. rewrite <- Hlen in Heq.
  apply digits_val_bound in Em1 as Hb1. apply digits_val_bound in Em2 as Hb2.
  rewrite <- Hlen in Hb2.
  apply digit_val_inv in E1 as [-> _]. apply digit_val_inv in E2 as [-> _].
  destruct (N.div_mod_unique (10 ^ N.of_nat (length s1)) d2 d1 m2 m1)
    as [-> ->]; [done|done|lia|].
  f_equal. by apply (IH s2 m1).
Qed.

(** What [array_index] accepts: a numeral, and either one digit or a
    value that needs all its digits. *)
Lemma array_index_inv k i :
  array_index k = Some i →
  digits_val 0 k = Some i
  ∧ (length k = 1 ∨ (2 ≤ length k ∧ (10 ^ N.of_nat (length k - 1) ≤ i)%N)).
Proof.
  destruct k as [|c [|c' k]]; [done| |].
  - cbn. destruct (digit_val c) as [d|]; [|done]. intros [= <-].
    split; [done | by left].
  - unfold array_index. case_decide as Hc; [done|].
    destruct (digits_val 0 (c :: c' :: k)) as [n|] eqn:En; [|done].
    destruct (n <? 4294967295)%N; [|done]. intros [= <-].
    split; [done|]. right. split; [simpl; lia|].
    change (digits_val 0 (c :: c' :: k))
      with (match digit_val c with
            | Some d => digits_val (0 * 10 + d) (c' :: k)
            | None => None
            end) in En.
    destruct (digit_val c) as [d|] eqn:Ed; [|done].
    rewrite digits_val_shift in En.
    destruct (digits_val 0 (c' :: k)) as [m|]; [|done].
    injection En as <-. apply digit_val_inv in Ed as [Hcd _].
    assert (d ≠ 0%N) by (intros ->; done).
    replace (length (c :: c' :: k) - 1) with (S (length k)) by (simpl; lia).
    assert (1 ≤ d)%N by lia. cbn [length].
    generalize (10 ^ N.of_nat (S (length k)))%N. intros P. nia.
Qed.

Lemma array_index_inj k1 k2 i :
  array_index k1 = Some i → array_index k2 = Some i → k1 = k2.
Proof.
  intros [H1 L1]%array_index_inv [H2 L2]%array_index_inv.
  apply (digits_val_inj k1 k2 i); [|done..].
  apply digits_val_bound in H1 as B1. apply digits_val_bound in H2 as B2.
  destruct (decide (length k1 = length k2)) as [|Hne]; [done|]. exfalso.
  assert (Hpow : ∀ a b, a < b →
            (10 ^ N.of_nat a ≤ 10 ^ N.of_nat (b - 1))%N).
  { intros a b Hab. apply N.pow_le_mono_r; lia. }
  destruct (decide (length k1 < length k2)) as [Hlt|Hge].
  - specialize (Hpow _ _ Hlt). destruct L2 as [?|[_ ?]]; [|lia].
    destruct k1; simpl in *; lia.
  - assert (Hlt : length k2 < length k1) by lia.
    specialize (Hpow _ _ Hlt). destruct L1 as [?|[_ ?]]; [|lia].
    destruct k2; simpl in *; lia.
Qed.

(** *** Defining a property keeps the enumeration order *)

Lemma obj_update_keys o k v : (obj_update o k v).*1 = o.*1.
Proof.
  induction o as [|[k' v'] o IH]; [done|]. cbn [obj_update].
  case_decide; rewrite !fmap_cons; [by subst|by rewrite IH].
Qed.

Lemma comes_before_index k1 k2 i j :
  k1 ≠ k2 → array_index k1 = Some i → array_index k2 = Some j → (i ≤ j)%N →
  comes_before k1 k2 = true.
Proof.
  intros Hne H1 H2 Hle. unfold comes_before. rewrite H1, H2.
  apply andb_true_iff. split; [by apply negb_true_iff, bool_decide_eq_false|].
  apply N.ltb_lt. destruct (decide (i = j)) as [->|]; [|lia].
  by destruct Hne; apply (array_index_inj k1 k2 j).
Qed.

Lemma comes_before_other k1 k2 :
  k1 ≠ k2 → array_index k2 = None → comes_before k1 k2 = true.
Proof.
  intros Hne H2. unfold comes_before. rewrite H2.
  apply andb_true_iff. split; [by apply negb_true_iff, bool_decide_eq_false|].
  by destruct (array_index k1).
Qed.

(** What comes after a key comes after an index that is not larger. *)
Lemma comes_before_trans_index k k' k'' i :
  array_index k = Some i → k ≠ k'' →
  (match array_index k' with Some j => (i ≤ j)%N | None => True end) →
  comes_before k' k'' = true → comes_before k k'' = true.
Proof.
  intros Hk Hne Hk' H. unfold comes_before in *. rewrite Hk.
  apply andb_true_iff in H as [_ H]. apply andb_true_iff.
  split; [by apply negb_true_iff, bool_decide_eq_false|].
  destruct (array_index k'') as [j''|]; [|done].
  destruct (array_index k') as [j|]; [|done].
  apply N.ltb_lt in H. apply N.ltb_lt. lia.
Qed.

Lemma obj_insert_index_keeps o k i v :
  enumeration_order o.*1 = true → k ∉ o.*1 → array_index k = Some i →
  enumeration_order (obj_insert_index o k i v).*1 = true
  ∧ ∀ P, forallb P (obj_insert_index o k i v).*1 = P k && forallb P o.*1.
Proof.
  intros Hord Hk Hi. induction o as [|[k' v'] o IH]; [done|].
  cbn [fmap list_fmap fst enumeration_order] in Hord, Hk.
  apply andb_true_iff in Hord as [Hk' Hord].
  apply not_elem_of_cons in Hk as [Hne Hk].
  destruct (IH Hord Hk) as [IHord IHall].
  assert (Hhead : ∀ P, forallb P (k :: k' :: o.*1) = P k && forallb P (k' :: o.*1))
    by done.
  assert (Hfirst :
    (match array_index k' with Some j => (i ≤ j)%N | None => True end) →
    enumeration_order (k :: k' :: o.*1) = true).
  { intros Hk'i. cbn [enumeration_order]. rewrite Hk', Hord, !andb_true_r.
    cbn [forallb]. apply andb_true_iff. split.
    - destruct (array_index k') as [j|] eqn:Ej.
      + by apply (comes_before_index k k' i j).
      + by apply comes_before_other.
    - apply forallb_forall. intros k'' Hin.
      rewrite forallb_forall in Hk'.
      apply (comes_before_trans_index k k' k'' i); [done| |done|by apply Hk'].
      intros ->. by apply Hk, list_elem_of_In. }
  cbn [obj_insert_index]. destruct (array_index k') as [j|] eqn:Ej.
  - destruct (j <? i)%N eqn:Eji.
    + cbn [fmap list_fmap fst enumeration_order]. split.
      * rewrite IHall, Hk', IHord, !andb_true_r.
        unfold comes_before. rewrite Ej, Hi, Eji, andb_true_r.
        apply negb_true_iff, bool_decide_eq_false. congruence.
      * intros P. cbn [forallb]. rewrite IHall.
        by destruct (P k), (P k').
    + apply N.ltb_ge in Eji. split; [by apply Hfirst | done].
  - split; [by apply Hfirst | done].
Qed.

Lemma enumeration_order_snoc ks k :
  enumeration_order ks = true → k ∉ ks → array_index k = None →
  enumeration_order (ks ++ [k]) = true.
Proof.
  intros Hord Hk Hi. apply enumeration_order_app. split; [done|]. split; [done|].
  intros k1 k2 Hk1 ->%list_elem_of_singleton.
  apply comes_before_other; [|done]. by intros ->.
Qed.

Lemma obj_define_keeps o k v :
  enumeration_order o.*1 = true →
  enumeration_order (obj_define o k v).*1 = true
  ∧ ∀ P : jstring * value → bool,
      P (k, v) = true → forallb P o = true → forallb P (obj_define o k v) = true.
Proof.
  intros Hord. unfold obj_define. destruct (obj_has o k) eqn:Ehas.
  - split; [by rewrite obj_update_keys|].
    intros P Hkv. clear Hord Ehas. induction o as [|[k' v'] o IH]; [done|].
    cbn [forallb obj_update]. intros [H1 H2]%andb_true_iff.
    case_decide; cbn [forallb]; apply andb_true_iff; split; auto.
  - apply obj_has_false, obj_get_None in Ehas.
    destruct (array_index k) as [i|] eqn:Ei.
    + split; [by apply obj_insert_index_keeps|].
      intros P Hkv. clear Hord Ehas. induction o as [|[k' v'] o IH].
      * intros _. cbn. by rewrite Hkv.
      * cbn [forallb obj_insert_index]. intros [H1 H2]%andb_true_iff.
        destruct (array_index k') as [j|]; [destruct (j <? i)%N|];
          cbn [forallb]; rewrite ?Hkv, ?H1, ?H2; try done.
        rewrite IH by done. done.
    + split.
      * rewrite fmap_app. by apply enumeration_order_snoc.
      * intros P Hkv Hall. rewrite forallb_app, Hall. cbn. by rewrite Hkv.
Qed.

(** *** The trees of the engine are objects *)

Lemma well_formed_obj o :
  well_formed (VObj o) = true
  ↔ enumeration_order o.*1 = true ∧ values_well_formed o = true.
Proof. cbn [well_formed]. by rewrite andb_true_iff. Qed.

Lemma well_formed_define o k v :
  well_formed (VObj o) = true → well_formed v = true →
  well_formed (VObj (obj_define o k v)) = true.
Proof.
  rewrite !well_formed_obj. intros [Hord Hall] Hv.
  destruct (obj_define_keeps o k v Hord) as [Hord' Hall'].
  split; [done|]. by apply Hall'.
Qed.

Lemma well_formed_update o k v :
  well_formed (VObj o) = true → well_formed v = true →
  well_formed (VObj (obj_update o k v)) = true.
Proof.
  rewrite !well_formed_obj, obj_update_keys. intros [Hord Hall] Hv.
  split; [done|]. clear Hord. unfold values_well_formed in *.
  induction o as [|[k' v'] o IH]; [done|].
  cbn [forallb obj_update] in *. apply andb_true_iff in Hall as [H1 H2].
  case_decide; cbn [forallb]; apply andb_true_iff; split; auto.
Qed.

Lemma well_formed_put o k v :
  well_formed (VObj o) = true → well_formed v = true →
  well_formed (VObj (js_put o k v)) = true.
Proof.
  intros Ho Hv. unfold js_put. destruct (obj_has o k).
  - by apply well_formed_update.
  - case_decide; [done|]. by apply well_formed_define.
Qed.

Lemma assign_path_well_formed keyParts cleaned : ∀ currentObj props,
  well_formed (VObj currentObj) = true →
  assign_path currentObj keyParts cleaned = Returns props →
  well_formed (VObj props) = true.
Proof.
  induction keyParts as [|part rest IH]; intros currentObj props Hwf.
  - by intros [= <-].
  - cbn [assign_path]. destruct rest as [|next rest].
    + intros [= <-]. by apply well_formed_put.
    + set (created := if js_in part currentObj then currentObj
                       else js_put currentObj part (VObj [])).
      assert (Hcreated : well_formed (VObj created) = true).
      { unfold created. destruct (js_in part currentObj); [done|].
        by apply well_formed_put. }
      destruct (obj_get created part) as [[text|child]|] eqn:Eget; [| |done].
      { destruct rest; [|done]. case_decide; [|done]. by intros [= <-]. }
      destruct (assign_path child (next :: rest) cleaned) as [child'| |] eqn:Echild;
        [|done..].
      cbn [bind]. intros [= <-]. apply well_formed_update; [done|].
      apply (IH child child'); [|done].
      by apply (well_formed_lookup created part).
Qed.

Lemma parse_line_well_formed props line props' :
  well_formed (VObj props) = true →
  MJSSEngine.parse_line props line = Returns props' →
  well_formed (VObj props') = true.
Proof.
  intros Hwf. unfold MJSSEngine.parse_line.
  destruct (is_empty line || startsWith [HASH] line); [by intros [= <-]|].
  destruct (trim <$> split EQUALS line) as [|rawKey [|rawValue pieces]];
    [by intros [= <-]..|].
  destruct (is_empty rawKey); [by intros [= <-]|].
  by apply assign_path_well_formed.
Qed.

Lemma parse_lines_well_formed lines : ∀ props props',
  well_formed (VObj props) = true →
  parse_lines props lines = Returns props' →
  well_formed (VObj props') = true.
Proof.
  induction lines as [|line lines IH]; intros props props' Hwf.
  - by intros [= <-].
  - cbn [parse_lines].
    destruct (MJSSEngine.parse_line props line) as [props1| |] eqn:E; [|done..].
    cbn [bind]. apply IH. by apply (parse_line_well_formed props line).
Qed.

(** The tree the parser returns is an object. *)
Lemma parseMJSS_well_formed script props :
  parseMJSS script = Returns props → well_formed (VObj props) = true.
Proof. by apply parse_lines_well_formed. Qed.

Lemma spread_well_formed source : ∀ target,
  well_formed (VObj target) = true → values_well_formed source = true →
  well_formed (VObj (spread target source)) = true.
Proof.
  induction source as [|[k v] source IH]; intros target Ht Hs; [done|].
  cbn [values_well_formed forallb] in Hs. apply andb_true_iff in Hs as [Hv Hs].
  unfold spread. cbn [foldl]. apply IH; [|done]. by apply well_formed_define.
Qed.

Lemma string_entries_well_formed s : ∀ i,
  values_well_formed (string_entries i s) = true.
Proof. induction s as [|c s IH]; intros i; [done|]. apply IH. Qed.

Lemma own_entries_well_formed o k :
  well_formed (VObj o) = true →
  values_well_formed (own_entries (obj_get o k)) = true.
Proof.
  intros Hwf. destruct (obj_get o k) as [[s|nested]|] eqn:E; [| |done].
  - apply string_entries_well_formed.
  - by apply well_formed_obj, (well_formed_lookup o k).
Qed.

(** The tree the merge builds is an object. *)
Lemma merge_props_well_formed current newProps :
  well_formed (VObj current) = true → well_formed (VObj newProps) = true →
  well_formed (VObj (merge_props current newProps)) = true.
Proof.
  intros Hc Hn. unfold merge_props.
  apply well_formed_obj in Hc as Hc'. destruct Hc' as [_ Hcv].
  apply well_formed_obj in Hn as Hn'. destruct Hn' as [_ Hnv].
  apply well_formed_define.
  - by repeat apply spread_well_formed.
  - repeat apply spread_well_formed; [done|by apply own_entries_well_formed..].
Qed.

(** The invariant of the engine: [updateMJSS] and the constructor leave a
    tree that is an object. *)
Lemma updateMJSS_well_formed h this w newScript replace this' w' :
  well_formed (VObj (currentMJSSProps this)) = true →
  updateMJSS h this w newScript replace = Returns (this', w') →
  well_formed (VObj (currentMJSSProps this')) = true.
Proof.
  intros Hwf. unfold updateMJSS.
  destruct (parseMJSS newScript) as [newProps|err|beyond] eqn:Eparse; [| |done].
  - apply parseMJSS_well_formed in Eparse. unfold updateMJSS_try.
    destruct (renderButton h _ w) as [[this2 w2] thrown] eqn:Erender.
    apply EngineFacts.renderButton_keeps in Erender as (Hprops & _).
    cbn in Hprops.
    assert (well_formed (VObj (currentMJSSProps this2)) = true).
    { rewrite Hprops. destruct replace; [done|]. by apply merge_props_well_formed. }
    destruct thrown; [by intros [= <- _]|].
    destruct (buildMJSS _); [|by intros [= <- _]].
    by destruct (setItem h _ _ w2) as [w3 [err|]]; intros [= <- _].
  - by intros [= <- _].
Qed.

Lemma constructor_well_formed h options w this' w' :
  constructor h options w = Returns (this', w') →
  well_formed (VObj (currentMJSSProps this')) = true.
Proof.
  unfold constructor.
  destruct (match container options with
            | ById id => _ | ByElement elem => _ end) as [elem| |]; [|done..].
  cbn [bind]. unfold initialize.
  destruct (getItem h _ w) as [script|err]; [|by intros [= <- _]].
  unfold restore.
  destruct (if is_empty script then _ else _) as [props|err|beyond] eqn:Erestore;
    [|by intros [= <- _]|done].
  assert (well_formed (VObj props) = true).
  { destruct (is_empty script); [by injection Erestore as <-|].
    by apply (parseMJSS_well_formed script). }
  unfold initialize_try.
  destruct (renderButton h _ w) as [[this2 w2] thrown] eqn:Erender.
  apply EngineFacts.renderButton_keeps in Erender as (Hprops & _).
  cbn in Hprops. destruct thrown; intros [= <- _]; by rewrite Hprops.
Qed.

End Invariant.

(** ** The serialization and its text *)

Module BuildFacts.
Import JS JSSpec MJSSEngine EngineSpec JSFacts ObjFacts.

Lemma to_string_text v :
  to_string v = if coercible v then Normal (value_text v) else Abrupt TypeError.
Proof. destruct v as [s|o]; [done|]. cbn. by destruct (obj_has o _). Qed.

Lemma build_nested_text key nested :
  build_nested key nested
    = if forallb (λ nkv, coercible nkv.2) nested
      then Normal (entry_lines (key, VObj nested))
      else Abrupt TypeError.
Proof.
  induction nested as [|[nk nv] nested IH]; [done|].
  cbn [build_nested forallb snd]. rewrite to_string_text.
  destruct (coercible nv); [|done]. cbn [and_then andb]. rewrite IH.
  by destruct (forallb _ nested).
Qed.

(** [buildMJSS] throws a [TypeError] for a tree that is not
    serializable, and returns its text for one that is. *)
Lemma build_lines_text t :
  build_lines t
    = if serializable t then Normal (tree_lines t) else Abrupt TypeError.
Proof.
  induction t as [|[key val] t IH]; [done|].
  cbn [build_lines serializable forallb snd].
  fold (serializable t). destruct val as [s|nested].
  - cbn [and_then andb]. rewrite IH. by destruct (serializable t).
  - rewrite build_nested_text.
    destruct (forallb _ nested); [|done]. cbn [and_then andb]. rewrite IH.
    by destruct (serializable t).
Qed.

Lemma buildMJSS_text t :
  buildMJSS t = if serializable t then Normal (tree_text t) else Abrupt TypeError.
Proof. unfold buildMJSS. rewrite build_lines_text. by destruct (serializable t). Qed.

Lemma plain_nested_no_toString nested :
  forallb plain_nested nested = true → obj_has nested (js "toString") = false.
Proof.
  intros Hall. apply obj_has_false, obj_get_None. intros Hin.
  apply list_elem_of_fmap in Hin as ([nk nv] & Hk & Hin). cbn in Hk. subst nk.
  rewrite forallb_forall in Hall. apply list_elem_of_In, Hall in Hin.
  unfold plain_nested, plain_key in Hin. cbn [fst] in Hin.
  apply andb_true_iff in Hin as [[_ Hin]%andb_true_iff _].
  by vm_compute in Hin.
Qed.

Lemma plain_entry_coercible kv :
  plain_entry kv = true →
  coercible kv.2 = true
  ∧ match kv.2 with
    | VStr _ => true
    | VObj nested => forallb (λ nkv, coercible nkv.2) nested
    end = true.
Proof.
  destruct kv as [k [s|nested]]; cbn [plain_entry coercible fst snd]; [done|].
  intros [_ [_ Hn]%andb_true_iff]%andb_true_iff. split.
  - by rewrite plain_nested_no_toString.
  - clear k. induction nested as [|[nk nv] nested IH]; [done|].
    cbn [forallb snd] in *. apply andb_true_iff in Hn as [Hleaf Hn].
    rewrite IH by done. unfold plain_nested in Hleaf. cbn [snd] in Hleaf.
    apply andb_true_iff in Hleaf as [_ Hleaf]. by destruct nv.
Qed.

(** A plain tree is rendered and serialized without a coercion that
    throws. *)
Lemma plain_coercible t : plain_tree t = true → coercible_tree t = true.
Proof.
  unfold plain_tree, coercible_tree, serializable.
  intros [_ Hall]%andb_true_iff.
  induction t as [|kv t IH]; [done|]. cbn [forallb] in *.
  apply andb_true_iff in Hall as [Hkv Hall].
  apply plain_entry_coercible in Hkv as [-> ->].
  apply IH in Hall. apply andb_true_iff in Hall as [-> ->]. done.
Qed.

Lemma forallb_filter_keeps {A} (f g : A → bool) (l : list A) :
  forallb f l = true → forallb f (List.filter g l) = true.
Proof.
  induction l as [|a l IH]; [done|]. cbn [forallb List.filter].
  intros [Ha Hl]%andb_true_iff. destruct (g a); [|by apply IH].
  cbn [forallb]. by rewrite Ha, IH.
Qed.

Lemma coercible_without_empty_nested t :
  coercible_tree t = true → coercible_tree (without_empty_nested t) = true.
Proof.
  unfold coercible_tree, serializable, without_empty_nested.
  intros [H1 H2]%andb_true_iff. by rewrite !forallb_filter_keeps.
Qed.

Lemma coercible_serializable t : coercible_tree t = true → serializable t = true.
Proof. unfold coercible_tree. by intros [_ ?]%andb_true_iff. Qed.

End BuildFacts.

(** ** Serializing and parsing again *)

Module RoundTrip.
Import JS JSSpec MJSSEngine EngineSpec JSFacts ObjFacts MergeFacts ParserFacts.

(** *** Facts about segments and texts *)

Lemma segment_inv k :
  segment k = true →
  k ≠ [] ∧ trimmed k = true ∧ (DOT ∉ k) ∧ (EQUALS ∉ k) ∧ (LF ∉ k).
Proof.
  unfold segment. intros [Hne Hall]%andb_true_iff.
  rewrite forallb_forall in Hall. setoid_rewrite <- list_elem_of_In in Hall.
  assert (Hc : ∀ c, c ∈ k → is_ws c = false ∧ c ≠ DOT ∧ c ≠ EQUALS).
  { intros c Hin. apply Hall in Hin. unfold segment_char in Hin.
    apply andb_true_iff in Hin as [[H1 H2]%andb_true_iff H3].
    apply negb_true_iff in H1. apply negb_true_iff, bool_decide_eq_false in H2, H3.
    done. }
  destruct k as [|c k]; [done|]. split; [done|]. split; [|split; [|split]].
  - unfold trimmed. apply andb_true_iff. split; apply negb_true_iff.
    + apply Hc. left.
    + apply Hc. destruct (exists_last (l := c :: k)) as (k0 & d & E); [done|].
      rewrite E at 1. rewrite last_snoc. rewrite E. apply elem_of_app. right. left.
  - intros Hin. by apply Hc in Hin as (_ & ? & _).
  - intros Hin. by apply Hc in Hin as (_ & _ & ?).
  - intros Hin. by apply Hc in Hin as (? & _ & _).
Qed.

Lemma plain_key_inv k :
  plain_key k = true →
  segment k = true ∧ startsWith [HASH] k = false ∧ inherited k = false.
Proof.
  unfold plain_key. intros [[H1 H2]%andb_true_iff H3]%andb_true_iff.
  by apply negb_true_iff in H2, H3.
Qed.

Lemma plain_text_inv s :
  plain_text s = true → trimmed s = true ∧ (EQUALS ∉ s) ∧ (LF ∉ s).
Proof.
  unfold plain_text. intros [Ht Hall]%andb_true_iff.
  rewrite forallb_forall in Hall. setoid_rewrite <- list_elem_of_In in Hall.
  split; [done|]. split; intros Hin; apply Hall in Hin;
    unfold text_char in Hin; apply andb_true_iff in Hin as [H1 H2];
    apply negb_true_iff, bool_decide_eq_false in H1, H2; done.
Qed.

(** *** One line of the serialization *)

Lemma assignment_shape path text :
  assignment path text
    = (path ++ [32%N]) ++ EQUALS :: ([32%N; DQUOTE] ++ text ++ [DQUOTE]).
Proof. unfold assignment. by rewrite <- app_assoc. Qed.

Lemma trimmed_nonempty_inv s :
  s ≠ [] → trimmed s = true →
  ∃ c s0 d, s = c :: s0 ∧ is_ws c = false ∧ (∃ s1, s = s1 ++ [d]) ∧ is_ws d = false.
Proof.
  destruct s as [|c s]; [done|]. intros _ [Hc Hd]%andb_true_iff.
  apply negb_true_iff in Hc, Hd.
  destruct (exists_last (l := c :: s)) as (s1 & d & E); [done|].
  rewrite E in Hd at 1. rewrite last_snoc in Hd.
  exists c, s, d. naive_solver.
Qed.

(** A trimmed path followed by a blank trims back to the path. *)
Lemma trim_path_blank path :
  path ≠ [] → trimmed path = true → trim (path ++ [32%N]) = path.
Proof.
  intros Hne Ht.
  destruct (trimmed_nonempty_inv path Hne Ht) as (c & s0 & d & -> & Hc & [s1 E] & Hd).
  unfold trim. rewrite trimStart_app_keep by done.
  rewrite trimEnd_snoc_drop by done. rewrite E. by apply trimEnd_snoc_keep.
Qed.

Lemma trim_quoted text :
  trim ([32%N; DQUOTE] ++ text ++ [DQUOTE]) = [DQUOTE] ++ text ++ [DQUOTE].
Proof.
  unfold trim. simpl app. rewrite trimStart_cons_drop by done.
  rewrite trimStart_cons_keep by done.
  change (DQUOTE :: text ++ [DQUOTE]) with ((DQUOTE :: text) ++ [DQUOTE]).
  by apply trimEnd_snoc_keep.
Qed.

Lemma cleanedValue_quoted text :
  trimmed text = true → cleanedValue ([DQUOTE] ++ text ++ [DQUOTE]) = text.
Proof.
  intros Ht. simpl app.
  rewrite cleanedValue_both_ends by done. by apply trim_trimmed.
Qed.

Lemma not_elem_of_snoc {A} (x y : A) l : x ∉ l → x ≠ y → x ∉ l ++ [y].
Proof.
  intros H1 H2. rewrite not_elem_of_app. split; [done|].
  by apply not_elem_of_cons; split; [|apply not_elem_of_nil].
Qed.

(** What the parser does with a line of the serialization. *)
Lemma parse_line_assignment props path text :
  path ≠ [] → trimmed path = true → startsWith [HASH] path = false →
  EQUALS ∉ path → EQUALS ∉ text → trimmed text = true →
  parse_line props (assignment path text)
    = assign_path props (split DOT path) text.
Proof.
  intros Hne Ht Hhash Hp Hs Hts. unfold parse_line.
  assert (is_empty (assignment path text) || startsWith [HASH] (assignment path text)
          = false) as ->.
  { destruct path as [|c path]; [done|]. simpl in *.
    by rewrite andb_true_r in *. }
  rewrite assignment_shape, split_app
    by (by apply not_elem_of_snoc).
  rewrite split_no_sep.
  2:{ simpl. rewrite !not_elem_of_cons. repeat split; try done.
      by apply not_elem_of_snoc. }
  cbn [fmap list_fmap]. rewrite trim_path_blank, trim_quoted by done.
  rewrite cleanedValue_quoted by done.
  by destruct path.
Qed.

Lemma trimmed_ends c s d :
  is_ws c = false → is_ws d = false → trimmed ((c :: s) ++ [d]) = true.
Proof.
  intros Hc Hd. unfold trimmed. cbn [app].
  change (c :: s ++ [d]) with ((c :: s) ++ [d]). by rewrite last_snoc, Hc, Hd.
Qed.

(** A line of the serialization is trimmed and has no line feed. *)
Lemma assignment_is_a_line path text :
  path ≠ [] → trimmed path = true → LF ∉ path → LF ∉ text →
  trim (assignment path text) = assignment path text
  ∧ LF ∉ assignment path text.
Proof.
  intros Hne Ht Hp Hs. split.
  - apply trim_trimmed.
    destruct (trimmed_nonempty_inv path Hne Ht) as (c & s0 & d & -> & Hc & _).
    unfold assignment.
    replace ((c :: s0) ++ js " = " ++ [DQUOTE] ++ text ++ [DQUOTE])
      with ((c :: s0 ++ js " = " ++ [DQUOTE] ++ text) ++ [DQUOTE])
      by (cbn [app]; f_equal; by rewrite <- !app_assoc).
    by apply trimmed_ends.
  - unfold assignment. rewrite !not_elem_of_app. repeat split; try done.
    + apply (bool_decide_unpack _). vm_compute. exact I.
    + by apply not_elem_of_cons; split; [|apply not_elem_of_nil].
    + by apply not_elem_of_cons; split; [|apply not_elem_of_nil].
Qed.

(** *** Key paths *)

Lemma nested_line key nestedKey text :
  key ++ js "." ++ nestedKey ++ js " = " ++ [DQUOTE] ++ text ++ [DQUOTE]
    = assignment (nested_path key nestedKey) text.
Proof. unfold assignment, nested_path. by rewrite <- !app_assoc. Qed.

Lemma startsWith_app c s s' :
  s ≠ [] → startsWith [c] (s ++ s') = startsWith [c] s.
Proof. by destruct s. Qed.

Lemma not_elem_of_path (x : N) key nestedKey :
  x ∉ key → x ≠ DOT → x ∉ nestedKey → x ∉ key ++ [DOT] ++ nestedKey.
Proof.
  intros Hk Hd Hn. apply not_elem_of_app. split; [done|].
  apply not_elem_of_app. split; [|done].
  by apply not_elem_of_cons; split; [|apply not_elem_of_nil].
Qed.

Lemma nested_path_inv key nestedKey :
  segment key = true → startsWith [HASH] key = false →
  segment nestedKey = true →
  let path := nested_path key nestedKey in
  path ≠ [] ∧ trimmed path = true ∧ startsWith [HASH] path = false
  ∧ (EQUALS ∉ path) ∧ (LF ∉ path) ∧ split DOT path = [key; nestedKey].
Proof.
  intros (Hk & Htk & Hdk & Hek & Hlk)%segment_inv Hhash
         (Hn & Htn & Hdn & Hen & Hln)%segment_inv path.
  unfold path, nested_path. change (js ".") with [DOT].
  destruct (trimmed_nonempty_inv key Hk Htk) as (c & k0 & _ & -> & Hc & _).
  destruct (trimmed_nonempty_inv nestedKey Hn Htn) as (_ & _ & d & _ & _ & [n1 ->] & Hd).
  split; [done|]. split; [|split; [|split; [|split]]].
  - replace ((c :: k0) ++ [DOT] ++ n1 ++ [d])
      with ((c :: k0 ++ [DOT] ++ n1) ++ [d])
      by (cbn [app]; f_equal; by rewrite <- !app_assoc).
    by apply trimmed_ends.
  - by rewrite startsWith_app.
  - by apply not_elem_of_path.
  - by apply not_elem_of_path.
  - cbn [app]. change (c :: k0 ++ DOT :: n1 ++ [d])
      with ((c :: k0) ++ DOT :: n1 ++ [d]).
    rewrite split_app by done. by rewrite split_no_sep.
Qed.

(** *** Objects that grow at the end *)

Lemma inherited_proto k : inherited k = false → k ≠ js "__proto__".
Proof. intros H ->. vm_compute in H. discriminate H. Qed.

Lemma js_put_last o k v :
  inherited k = false → enumeration_order (o.*1 ++ [k]) = true →
  js_put o k v = o ++ [(k, v)].
Proof.
  intros Hk Hord. rewrite js_put_plain by by apply inherited_proto.
  by apply obj_define_last.
Qed.

Lemma obj_get_last o k v : k ∉ o.*1 → obj_get (o ++ [(k, v)]) k = Some v.
Proof.
  intros Hk. rewrite obj_get_app. apply obj_get_None in Hk as ->.
  simpl. by case_decide.
Qed.

Lemma obj_update_last o k v v' :
  k ∉ o.*1 → obj_update (o ++ [(k, v)]) k v' = o ++ [(k, v')].
Proof.
  induction o as [|[k0 v0] o IH]; simpl.
  - intros _. by case_decide.
  - intros [Hne Hk]%not_elem_of_cons. case_decide; [congruence|].
    by rewrite IH.
Qed.

(** *** The lines of a tree *)

Lemma parse_lines_app lines1 lines2 : ∀ props,
  parse_lines props (lines1 ++ lines2)
    = bind (parse_lines props lines1) (λ props', parse_lines props' lines2).
Proof.
  induction lines1 as [|l lines1 IH]; intros props; simpl; [done|].
  destruct (parse_line props l); simpl; [apply IH|done..].
Qed.

(** The lines of the nested keys that follow the first one extend the
    nested tree the first one created. *)
Lemma parse_nested_rest key acc nested : ∀ current,
  plain_key key = true → key ∉ acc.*1 →
  enumeration_order (current ++ nested).*1 = true →
  forallb plain_nested nested = true →
  parse_lines (acc ++ [(key, VObj current)]) (entry_lines (key, VObj nested))
    = Returns (acc ++ [(key, VObj (current ++ nested))]).
Proof.
  induction nested as [|[n v] nested IH]; intros current Hkey Hfresh Hord Hall.
  - by rewrite app_nil_r.
  - simpl in Hall. apply andb_true_iff in Hall as [Hn Hall].
    unfold plain_nested in Hn. simpl in Hn.
    apply andb_true_iff in Hn as [Hn Hv].
    destruct v as [text|]; [|done]. simpl in Hv.
    apply plain_key_inv in Hkey as Hkey'. destruct Hkey' as (Hkseg & Hkhash & Hkinh).
    apply plain_key_inv in Hn as (Hnseg & Hnhash & Hninh).
    apply plain_text_inv in Hv as (Htt & Hte & Htl).
    destruct (nested_path_inv key n Hkseg Hkhash Hnseg)
      as (Hp1 & Hp2 & Hp3 & Hp4 & Hp5 & Hp6).
    cbn [entry_lines fmap list_fmap parse_lines fst snd value_text].
    rewrite nested_line. rewrite parse_line_assignment; [|done..]. rewrite Hp6.
    cbn [assign_path]. unfold js_in, obj_has.
    rewrite obj_get_last by done. cbn [orb].
    rewrite obj_get_last by done. cbn [bind].
    rewrite obj_update_last by done.
    assert (Hcur : enumeration_order ((current ++ [(n, VStr text)]).*1) = true).
    { rewrite fmap_app, fmap_cons, cons_middle, app_assoc in Hord.
      apply enumeration_order_app in Hord as (H & _). rewrite fmap_app. exact H. }
    rewrite js_put_last by (rewrite fmap_app in Hcur; done || exact Hcur).
    specialize (IH (current ++ [(n, VStr text)]) Hkey Hfresh).
    rewrite <- app_assoc in IH. apply IH; done.
Qed.

(** The lines of one entry add the entry at the end, unless it is an
    empty nested tree, which has no line. *)
Lemma parse_entry acc key val :
  plain_entry (key, val) = true →
  enumeration_order (acc.*1 ++ [key]) = true →
  parse_lines acc (entry_lines (key, val))
    = Returns (acc ++ without_empty_nested [(key, val)]).
Proof.
  unfold plain_entry. cbn [fst snd]. intros [Hkey Hval]%andb_true_iff Hord.
  apply plain_key_inv in Hkey as Hkey'. destruct Hkey' as (Hkseg & Hkhash & Hkinh).
  destruct (segment_inv key Hkseg) as (Hk1 & Hk2 & Hk3 & Hk4 & Hk5).
  destruct val as [text|nested].
  - apply plain_text_inv in Hval as (Htt & Hte & Htl).
    cbn [entry_lines parse_lines].
    change (key ++ js " = " ++ [DQUOTE] ++ text ++ [DQUOTE])
      with (assignment key text).
    rewrite parse_line_assignment by done. rewrite split_no_sep by done.
    cbn [assign_path bind parse_lines]. by rewrite js_put_last.
  - apply andb_true_iff in Hval as [Hnord Hall].
    destruct nested as [|[n v] nested]; [by rewrite app_nil_r|].
    pose proof Hall as Hall'. cbn [forallb] in Hall'.
    apply andb_true_iff in Hall' as [Hn Hrest].
    apply andb_true_iff in Hn as [Hn Hv]. cbn [fst snd] in Hn, Hv.
    destruct v as [text|]; [|done]. simpl in Hv.
    apply plain_key_inv in Hn as (Hnseg & Hnhash & Hninh).
    apply plain_text_inv in Hv as (Htt & Hte & Htl).
    destruct (nested_path_inv key n Hkseg Hkhash Hnseg)
      as (Hp1 & Hp2 & Hp3 & Hp4 & Hp5 & Hp6).
    assert (Hfresh : key ∉ acc.*1) by by apply enumeration_order_fresh.
    cbn [entry_lines fmap list_fmap parse_lines fst snd value_text].
    rewrite nested_line. rewrite parse_line_assignment by done. rewrite Hp6.
    cbn [assign_path]. unfold js_in, obj_has.
    apply obj_get_None in Hfresh as Hget. rewrite Hget, Hkinh. cbn [orb].
    rewrite (js_put_last acc key) by done. rewrite obj_get_last by done.
    cbn [bind]. rewrite (js_put_last [] n) by done.
    rewrite obj_update_last by done. cbn [app].
    apply (parse_nested_rest key acc nested [(n, VStr text)]); done.
Qed.

Lemma build_lines_cons kv t : tree_lines (kv :: t) = entry_lines kv ++ tree_lines t.
Proof. done. Qed.

(** The lines of a tree add its entries, in order, without the empty
    nested trees. *)
Lemma parse_entries t : ∀ acc,
  enumeration_order (acc ++ t).*1 = true →
  forallb plain_entry t = true →
  parse_lines acc (tree_lines t) = Returns (acc ++ without_empty_nested t).
Proof.
  induction t as [|[key val] t IH]; intros acc Hord Hall.
  - by rewrite app_nil_r.
  - cbn [forallb] in Hall. apply andb_true_iff in Hall as [Hentry Hall].
    rewrite fmap_app, fmap_cons in Hord. cbn [fst] in Hord.
    rewrite build_lines_cons, parse_lines_app, parse_entry; [|done|].
    2:{ rewrite cons_middle, app_assoc in Hord.
        by apply enumeration_order_app in Hord as (H & _). }
    cbn [bind]. unfold without_empty_nested.
    cbn [List.filter]. fold (without_empty_nested t).
    destruct (is_empty_nested (key, val)) eqn:Hempty; cbn [negb app].
    + rewrite app_nil_r. apply IH; [|done].
      rewrite fmap_app. by apply enumeration_order_delete in Hord.
    + rewrite IH; [by rewrite <- app_assoc| |done].
      rewrite <- app_assoc, fmap_app. exact Hord.
Qed.

(** Empty nested trees do not show in the serialization. *)
Lemma build_lines_without_empty_nested t :
  tree_lines (without_empty_nested t) = tree_lines t.
Proof.
  induction t as [|[key val] t IH]; [done|].
  unfold without_empty_nested. cbn [List.filter].
  fold (without_empty_nested t). rewrite build_lines_cons.
  destruct val as [text|[|nkv nested]]; cbn [is_empty_nested snd negb];
    [by rewrite build_lines_cons, IH | done | by rewrite build_lines_cons, IH].
Qed.

(** The lines of a plain tree are lines: trimmed, and without line feed. *)
Lemma build_lines_are_lines t :
  forallb plain_entry t = true →
  Forall (λ l, trim l = l ∧ LF ∉ l) (tree_lines t).
Proof.
  induction t as [|[key val] t IH]; intros Hall; [constructor|].
  cbn [forallb] in Hall. apply andb_true_iff in Hall as [Hentry Hall].
  rewrite build_lines_cons. apply Forall_app. split; [|by apply IH].
  unfold plain_entry in Hentry. cbn [fst snd] in Hentry.
  apply andb_true_iff in Hentry as [Hkey Hval].
  apply plain_key_inv in Hkey as (Hkseg & Hkhash & _).
  destruct (segment_inv key Hkseg) as (Hk1 & Hk2 & _ & _ & Hk5).
  destruct val as [text|nested].
  - apply plain_text_inv in Hval as (_ & _ & Htl).
    constructor; [|constructor]. by apply (assignment_is_a_line key text).
  - apply andb_true_iff in Hval as [_ Hnested]. cbn [entry_lines].
    induction nested as [|[n v] nested IHn]; [constructor|].
    cbn [forallb] in Hnested. apply andb_true_iff in Hnested as [Hn Hnested].
    apply andb_true_iff in Hn as [Hn Hv]. cbn [fst snd] in Hn, Hv.
    destruct v as [text|]; [|done].
    apply plain_key_inv in Hn as (Hnseg & _ & _).
    apply plain_text_inv in Hv as (_ & _ & Htl).
    destruct (nested_path_inv key n Hkseg Hkhash Hnseg)
      as (Hp1 & Hp2 & _ & _ & Hp5 & _).
    cbn [fmap list_fmap fst snd value_text]. constructor; [|by apply IHn].
    rewrite nested_line. by apply assignment_is_a_line.
Qed.

(** Parsing the serialization of a plain tree gives the tree back, without
    its empty nested trees. *)
Lemma parseMJSS_buildMJSS t :
  plain_tree t = true →
  parseMJSS (tree_text t) = Returns (without_empty_nested t).
Proof.
  unfold plain_tree. intros [Hord Hall]%andb_true_iff.
  pose proof (parse_entries t [] Hord Hall) as Hparse.
  pose proof (build_lines_are_lines t Hall) as Hlines.
  unfold parseMJSS, tree_text.
  destruct (tree_lines t) as [|l lines] eqn:E.
  - simpl in Hparse. injection Hparse as <-. reflexivity.
  - rewrite split_join; [|done|].
    2:{ eapply Forall_impl; [exact Hlines|]. by intros ? [_ ?]. }
    replace (trim <$> l :: lines) with (l :: lines); [done|].
    clear E Hparse. induction Hlines as [|x xs [Hx _] _ IH]; [done|].
    by rewrite fmap_cons, Hx, <- IH.
Qed.

(** C1 (as the code has it): for a tree in enumeration order, with one
    level of nesting, whose keys are segments of the grammar that do not
    start with a hash sign and are not members of [Object.prototype], and
    whose texts have no straight quote, no equals sign, no line feed and no
    white space at either end: the serialization parses, and the parsed
    tree serializes to the same text. *)
Theorem buildMJSS_parseMJSS_buildMJSS t :
  plain_tree t = true → quote_free_tree t = true →
  ∃ script t',
    buildMJSS t = Normal script
    ∧ parseMJSS script = Returns t'
    ∧ buildMJSS t' = Normal script.
Proof.
  intros Hplain _. exists (tree_text t), (without_empty_nested t).
  pose proof (BuildFacts.plain_coercible t Hplain) as Hcoercible.
  split; [|split].
  - rewrite BuildFacts.buildMJSS_text.
    by rewrite BuildFacts.coercible_serializable.
  - by apply parseMJSS_buildMJSS.
  - rewrite BuildFacts.buildMJSS_text.
    rewrite BuildFacts.coercible_serializable
      by by apply BuildFacts.coercible_without_empty_nested.
    unfold tree_text. by rewrite build_lines_without_empty_nested.
Qed.

(** A tree with an array index, a text with a blank inside, a nested tree
    and an empty nested tree. *)
Lemma buildMJSS_parseMJSS_buildMJSS_witness :
  let t := [(js "0", VStr (js "zero"));
            (js "text", VStr (js "Hi there"));
            (ANIMATION, VObj [(js "type", VStr (js "fade"));
                              (js "duration", VStr (js "2s"))]);
            (js "extra", VObj [])] in
  ∃ script t',
    buildMJSS t = Normal script
    ∧ parseMJSS script = Returns t'
    ∧ buildMJSS t' = Normal script.
Proof.
  intros t. exact (buildMJSS_parseMJSS_buildMJSS t eq_refl eq_refl).
Defined.

(** C1, the claim as stated fails: a text that starts with a blank has no
    quote and one level of nesting, and comes back without the blank. *)
Lemma buildMJSS_parseMJSS_trims_text :
  let t := [(js "a", VStr (js " x"))] in
  quote_free_tree t = true
  ∧ ∃ script t' script',
      buildMJSS t = Normal script
      ∧ parseMJSS script = Returns t'
      ∧ buildMJSS t' = Normal script'
      ∧ script' ≠ script.
Proof.
  intros t. split; [reflexivity|].
  eexists _, [(js "a", VStr (js "x"))], _.
  split; [reflexivity|]. split; [reflexivity|]. split; [reflexivity|].
  intros H. vm_compute in H. discriminate H.
Qed.

End RoundTrip.

(** ** More on strings: trimming, splitting, tokens *)

Module StringMore.
Import JS JSSpec MoreSpec JSFacts.

Lemma split_app_any sep a b :
  split sep (a ++ sep :: b) = split sep a ++ split sep b.
Proof.
  induction a as [|c a IH]; simpl.
  - by case_decide.
  - case_decide; [by rewrite IH|]. rewrite IH.
    destruct (split sep a) as [|p ps] eqn:E; [by apply split_nonempty in E|done].
Qed.

Lemma trimStart_suffix s : ∃ pre, s = pre ++ trimStart s.
Proof.
  induction s as [|c s [pre IH]]; [by exists []|]. simpl.
  destruct (is_ws c); [|by exists []].
  exists (c :: pre). simpl. by f_equal.
Qed.

Lemma trimStart_head s c s' : trimStart s = c :: s' → is_ws c = false.
Proof.
  induction s as [|d s IH]; [done|]. simpl.
  destruct (is_ws d) eqn:E; [done|]. by intros [= <- _].
Qed.

(** A trimmed string is empty, or starts and ends with a character that
    is not white space. *)
Lemma trim_ends s : trimmed (trim s) = true.
Proof.
  unfold trim, trimEnd.
  destruct (trimStart (reverse (trimStart s))) as [|d v] eqn:Ev; [done|].
  apply trimStart_head in Ev as Hd.
  destruct (trimStart_suffix (reverse (trimStart s))) as [pre Hpre].
  rewrite Ev in Hpre.
  assert (Hu : trimStart s = reverse v ++ d :: reverse pre).
  { rewrite <- (reverse_involutive (trimStart s)), Hpre.
    by rewrite reverse_app, reverse_cons, <- app_assoc. }
  rewrite reverse_cons.
  destruct (reverse v) as [|c r] eqn:Er.
  - simpl. by rewrite Hd.
  - change ((c :: r) ++ [d]) with ((c :: r) ++ [d]).
    apply RoundTrip.trimmed_ends; [|done].
    by apply (trimStart_head s c (r ++ d :: reverse pre)).
Qed.

Lemma ends_well_tail c s : s ≠ [] → ends_well (c :: s) → ends_well s.
Proof.
  unfold ends_well. rewrite reverse_cons.
  destruct (reverse s) as [|d r] eqn:E; [|done].
  intros Hs. by apply (f_equal reverse) in E; rewrite reverse_involutive in E.
Qed.

Lemma ends_well_single c : ends_well [c] → is_ws c = false.
Proof. done. Qed.

(** The pieces of the split at white space: after a character that is not
    white space the first piece continues a token and the others are
    tokens; inside a run of white space all the pieces are tokens. *)
Lemma split_ws_from_pieces s :
  ends_well s →
  (∃ p ps, split_ws_from false s = p :: ps
           ∧ ws_free p = true ∧ forallb is_token ps = true)
  ∧ (s ≠ [] → forallb is_token (split_ws_from true s) = true).
Proof.
  induction s as [|c s IH]; intros Hend.
  - split; [by exists [], []|done].
  - assert (Hs : s ≠ [] → ends_well s) by (intros ?; by apply (ends_well_tail c)).
    cbn [split_ws_from]. destruct (is_ws c) eqn:Ec.
    + destruct s as [|c' s].
      { apply ends_well_single in Hend. congruence. }
      destruct (IH (Hs ltac:(done))) as [_ IHrun].
      split; [|by intros _; apply IHrun].
      eexists [], _. split; [done|]. split; [done|]. by apply IHrun.
    + assert (Hfalse : ∃ p ps, split_ws_from false s = p :: ps
                ∧ ws_free p = true ∧ forallb is_token ps = true).
      { destruct s as [|c' s]; [by exists [], []|]. by apply IH, Hs. }
      destruct Hfalse as (p & ps & -> & Hp & Hps).
      assert (Hcp : ws_free (c :: p) = true) by (simpl; by rewrite Ec).
      split.
      * by exists (c :: p), ps.
      * intros _. cbn [forallb]. rewrite Hps, andb_true_r.
        unfold is_token. by rewrite andb_true_iff.
Qed.

Lemma split_ws_tokens line :
  is_empty (trim line) = false →
  forallb is_token (split_ws (trim line)) = true.
Proof.
  intros Hne. pose proof (trim_ends line) as Ht.
  destruct (trim line) as [|c s] eqn:E; [done|].
  assert (Hend : ends_well (c :: s)).
  { unfold ends_well.
    destruct (exists_last (l := c :: s)) as (s0 & d & Es); [done|].
    rewrite Es, reverse_snoc. unfold trimmed in Ht.
    apply andb_true_iff in Ht as [_ Hd]. rewrite Es in Hd at 1.
    rewrite last_snoc in Hd. by apply negb_true_iff in Hd. }
  assert (Hc : is_ws c = false).
  { unfold trimmed in Ht. apply andb_true_iff in Ht as [Hc _].
    by apply negb_true_iff in Hc. }
  destruct (split_ws_from_pieces (c :: s) Hend) as [(p & ps & Hsplit & Hp & Hps) _].
  unfold split_ws. rewrite Hsplit. cbn [forallb]. rewrite Hps, andb_true_r.
  cbn [split_ws_from] in Hsplit. rewrite Hc in Hsplit.
  destruct (split_ws_from false s) as [|p' ps']; injection Hsplit as <- <-;
    unfold is_token; apply andb_true_iff; split; done.
Qed.

Lemma is_token_inv t :
  is_token t = true → ∃ c t', t = c :: t' ∧ is_ws c = false ∧ ws_free t' = true.
Proof.
  destruct t as [|c t]; [done|]. unfold is_token. cbn.
  intros [Hc Ht]%andb_true_iff. apply negb_true_iff in Hc. by exists c, t.
Qed.

Lemma split_ws_from_token t : ∀ in_run,
  ws_free t = true → split_ws_from in_run t = [t] ∨ t = [].
Proof.
  induction t as [|c t IH]; intros in_run; [by right|]. cbn.
  intros [Hc%negb_true_iff Ht]%andb_true_iff. left. rewrite Hc.
  destruct (IH false Ht) as [->| ->]; done.
Qed.

Lemma split_ws_from_token_blank t rest :
  ws_free t = true → (∃ c r, rest = c :: r ∧ is_ws c = false) →
  split_ws_from false (t ++ 32%N :: rest) = t :: split_ws_from false rest.
Proof.
  intros Ht (c & r & -> & Hc). induction t as [|d t IH].
  - cbn. by rewrite Hc.
  - cbn in Ht. apply andb_true_iff in Ht as [Hd%negb_true_iff Ht].
    cbn [app split_ws_from]. rewrite Hd, (IH Ht). done.
Qed.

Lemma join_blank_head tokens :
  tokens ≠ [] → forallb is_token tokens = true →
  ∃ c r, join (js " ") tokens = c :: r ∧ is_ws c = false.
Proof.
  destruct tokens as [|t tokens]; [done|]. intros _ [Ht _]%andb_true_iff.
  apply is_token_inv in Ht as (c & t' & -> & Hc & _).
  destruct tokens; by eexists _, _.
Qed.

(** Splitting at white space undoes joining tokens with blanks. *)
Lemma split_ws_join tokens :
  tokens ≠ [] → forallb is_token tokens = true →
  split_ws (join (js " ") tokens) = tokens.
Proof.
  unfold split_ws. induction tokens as [|t tokens IH]; [done|].
  intros _ Hall. cbn [forallb] in Hall. apply andb_true_iff in Hall as [Ht Hall].
  pose proof Ht as Ht'. apply is_token_inv in Ht' as (c & t' & Et & Hc & Hfree).
  assert (Hfree_t : ws_free t = true) by (rewrite Et; cbn; by rewrite Hc).
  destruct tokens as [|t2 tokens].
  - cbn [join]. destruct (split_ws_from_token t false Hfree_t) as [->| ->]; [done|].
    by rewrite Et in Ht.
  - change (join (js " ") (t :: t2 :: tokens))
      with (t ++ 32%N :: join (js " ") (t2 :: tokens)).
    rewrite split_ws_from_token_blank;
      [|done|by apply join_blank_head].
    f_equal. by apply IH.
Qed.

Lemma join_blank_line tokens :
  tokens ≠ [] → forallb is_token tokens = true →
  trimmed (join (js " ") tokens) = true ∧ LF ∉ join (js " ") tokens.
Proof.
  induction tokens as [|t tokens IH]; [done|].
  intros _ Hall. cbn [forallb] in Hall. apply andb_true_iff in Hall as [Ht Hall].
  pose proof Ht as Ht'. apply is_token_inv in Ht' as (c & t' & Et & Hc & Hfree).
  assert (Hlf : LF ∉ t).
  { rewrite Et. intros Hin. unfold ws_free in Hfree.
    apply elem_of_cons in Hin as [<-|Hin]; [done|].
    rewrite forallb_forall in Hfree. by apply list_elem_of_In, Hfree in Hin. }
  assert (Hlast : ∃ t0 d, t = t0 ++ [d] ∧ is_ws d = false).
  { destruct (exists_last (l := t)) as (t0 & d & E); [by rewrite Et|].
    exists t0, d. split; [done|].
    assert (Hd : d ∈ t) by (rewrite E; apply elem_of_app; right; left).
    rewrite Et in Hd. apply elem_of_cons in Hd as [->|Hd]; [done|].
    unfold ws_free in Hfree. rewrite forallb_forall in Hfree.
    by apply list_elem_of_In, Hfree, negb_true_iff in Hd. }
  destruct tokens as [|t2 tokens].
  - cbn [join]. split; [|done].
    destruct Hlast as (t0 & d & E & Hd). rewrite E.
    destruct t0 as [|c0 t0]; [cbn; by rewrite Hd|].
    apply RoundTrip.trimmed_ends; [|done].
    rewrite Et in E. by injection E as <- _.
  - destruct (IH ltac:(done) Hall) as [Htr Hnl]. split.
    + change (join (js " ") (t :: t2 :: tokens))
        with (t ++ 32%N :: join (js " ") (t2 :: tokens)).
      destruct (exists_last (l := join (js " ") (t2 :: tokens)))
        as (j0 & d & Ej).
      { destruct (join_blank_head (t2 :: tokens)) as (? & ? & -> & _); done. }
      rewrite Ej in Htr |- *. rewrite Et.
      replace ((c :: t') ++ 32%N :: j0 ++ [d])
        with ((c :: t' ++ 32%N :: j0) ++ [d])
        by (cbn [app]; f_equal; by rewrite <- app_assoc).
      apply RoundTrip.trimmed_ends; [done|].
      destruct (j0 ++ [d]) as [|x xs] eqn:E; [by destruct j0|].
      unfold trimmed in Htr. apply andb_true_iff in Htr as [_ Hd].
      rewrite <- E in Hd at 1. rewrite last_snoc in Hd.
      by apply negb_true_iff in Hd.
    + change (join (js " ") (t :: t2 :: tokens))
        with (t ++ 32%N :: join (js " ") (t2 :: tokens)).
      rewrite not_elem_of_app, not_elem_of_cons. done.
Qed.

End StringMore.

(** ** More on the command interpreter *)

Module InterpreterMore.
Import JS JSSpec MJSSInterpreter InterpreterSpec MoreSpec JSFacts ObjFacts
  InterpreterFacts StringMore.

Lemma foldl_skipped this lines :
  Forall (λ l, skipped l = true) lines →
  foldl parse_line this (trim <$> lines) = this.
Proof.
  induction 1 as [|l lines Hl _ IH]; [done|].
  cbn [fmap list_fmap foldl]. unfold parse_line at 2.
  unfold skipped in Hl. by rewrite Hl.
Qed.

(** X1: a script in which every line is blank or a comment changes nothing:
    no command is run and nothing is reported. *)
Theorem parse_skips_blank_and_comment_lines this script :
  Forall (λ l, skipped l = true) (split LF script) → parse this script = this.
Proof. apply foldl_skipped. Qed.

Lemma parse_skips_blank_and_comment_lines_witness :
  let script := js "# setup" ++ [LF] ++ js "   " ++ [LF] ++ [LF]
                ++ js "  # setProperty a b" in
  parse (fresh None) script = fresh None.
Proof.
  intros script. apply parse_skips_blank_and_comment_lines.
  apply (bool_decide_unpack _). vm_compute. exact I.
Defined.

(** X2: running a script made of two scripts joined by a line feed is
    running the first and then the second. *)
Theorem parse_concatenation this script1 script2 :
  parse this (script1 ++ [LF] ++ script2) = parse (parse this script1) script2.
Proof.
  unfold parse. cbn [app]. by rewrite split_app_any, fmap_app, foldl_app.
Qed.

Lemma dispatched_tokens line :
  skipped line = false →
  let tokens := split_ws (trim line) in
  is_token (hd [] tokens) = true
  ∧ startsWith [HASH] (hd [] tokens) = false
  ∧ forallb is_token (tl tokens) = true.
Proof.
  intros H tokens. unfold skipped in H. apply orb_false_iff in H as [Hne Hhash].
  pose proof (split_ws_tokens line Hne) as Htok. fold tokens in Htok.
  assert (Hhd : ∃ c s p ps, trim line = c :: s ∧ tokens = (c :: p) :: ps).
  { unfold tokens, split_ws. destruct (trim line) as [|c s] eqn:E; [done|].
    pose proof (trim_ends line) as Ht. rewrite E in Ht.
    apply andb_true_iff in Ht as [Hc%negb_true_iff _].
    cbn [split_ws_from]. rewrite Hc.
    destruct (split_ws_from false s) as [|p ps]; by eexists _, _, _, _. }
  destruct Hhd as (c & s & p & ps & Eline & Etok).
  rewrite Etok in Htok |- *. cbn [hd tl forallb] in *.
  apply andb_true_iff in Htok as [H1 H2]. split; [done|]. split; [|done].
  rewrite Eline in Hhash. simpl in *. by rewrite andb_true_r in *.
Qed.

(** X3: whatever the line, the command name and the arguments the
    interpreter takes from it are tokens: none is empty and none has white
    space in it, and the command name does not start with a hash sign. *)
Theorem parse_line_tokens line :
  skipped line = false →
  let tokens := split_ws (trim line) in
  is_token (hd [] tokens) = true
  ∧ startsWith [HASH] (hd [] tokens) = false
  ∧ forallb is_token (tl tokens) = true.
Proof. apply dispatched_tokens. Qed.

Lemma parse_line_tokens_witness :
  let tokens := split_ws (trim (js "  setProperty   title  Hello   world ")) in
  tokens = [js "setProperty"; js "title"; js "Hello"; js "world"]
  ∧ is_token (hd [] tokens) = true
  ∧ forallb is_token (tl tokens) = true.
Proof.
  intros tokens.
  destruct (parse_line_tokens (js "  setProperty   title  Hello   world ") eq_refl)
    as (Hname & _ & Hargs).
  split; [reflexivity|]. split; [exact Hname | exact Hargs].
Defined.

(** *** Registration *)

Lemma registerFunction_returns name h this :
  name ≠ [] →
  registerFunction name h this
    = Returns (set_registry this (<[name := h]> (commandRegistry this))).
Proof. by destruct name. Qed.

(** The environment a line leaves when its command has a handler. *)
Lemma parse_line_env this line h :
  skipped line = false →
  commandRegistry this !! hd [] (split_ws (trim line)) = Some h →
  env (parse_line this (trim line))
    = (h (tl (split_ws (trim line))) (env this)).1.
Proof.
  unfold skipped, parse_line. intros -> ->.
  destruct (h _ _) as [e' [err|]]; [done|]. cbn.
  destruct (onLineParsed (config this)) as [hook|]; [|done].
  by destruct (hook _ _).
Qed.

(** X4: registering a handler under a name that is not empty returns; the
    name then has that handler, whatever it had before, and every other
    name keeps what it had; a line that names the command leaves the
    environment the handler makes of the arguments and the current
    environment. With the empty name, and only then, it throws. *)
Theorem registerFunction_then_dispatch
    (name : jstring) (h : MJSSCommandHandler) (this : MJSSInterpreter) :
  ((∃ err, registerFunction name h this = Throws err) ↔ name = [])
  ∧ (name ≠ [] →
     ∃ this', registerFunction name h this = Returns this'
       ∧ commandRegistry this' !! name = Some h
       ∧ (∀ other, other ≠ name →
            commandRegistry this' !! other = commandRegistry this !! other)
       ∧ env this' = env this ∧ events this' = events this
       ∧ ∀ line, skipped line = false →
           hd [] (split_ws (trim line)) = name →
           env (parse_line this' (trim line))
             = (h (tl (split_ws (trim line))) (env this)).1).
Proof.
  split.
  - destruct name as [|c name]; cbn; split.
    + done.
    + intros _. by eexists.
    + by intros [err H].
    + done.
  - intros Hname. eexists. split; [by apply registerFunction_returns|].
    cbn [set_registry commandRegistry env events].
    split; [apply lookup_insert_eq|].
    split; [by intros other Ho; apply lookup_insert_ne|].
    split; [done|]. split; [done|].
    intros line Hline Hhd.
    rewrite (parse_line_env _ line h); [done|done|].
    cbn [set_registry commandRegistry]. rewrite Hhd. apply lookup_insert_eq.
Qed.

(** A handler that counts its arguments replaces the built-in
    [setProperty]. *)
Lemma registerFunction_then_dispatch_witness :
  let count : MJSSCommandHandler :=
    λ args e, (obj_define e (js "n") (VStr (of_nat (length args))), None) in
  ∃ this', registerFunction (js "setProperty") count (fresh None) = Returns this'
    ∧ commandRegistry this' !! js "animateElement" = Some animateElement
    ∧ env (parse_line this' (trim (js " setProperty a b c ")))
        = [(js "n", VStr (js "3"))].
Proof.
  intros count.
  destruct (proj2 (registerFunction_then_dispatch (js "setProperty") count
                     (fresh None)))
    as (this' & Hreg & _ & Hother & _ & _ & Hrun).
  { intros H. vm_compute in H. discriminate H. }
  exists this'. split; [exact Hreg|]. split.
  - rewrite Hother; [apply lookup_insert_eq|].
    intros H. vm_compute in H. discriminate H.
  - rewrite (Hrun (js " setProperty a b c ") eq_refl eq_refl). reflexivity.
Defined.

(** *** Names no line can call *)

Lemma handleError_agree name this1 this2 context error :
  agree_except name this1 this2 →
  agree_except name (handleError this1 context error)
                    (handleError this2 context error).
Proof.
  intros (Hc & He & Hv & Hr). unfold handleError, log_event, agree_except.
  cbn. by rewrite Hc, Hv.
Qed.

Lemma parse_line_agree name this1 this2 line :
  dispatchable name = false → agree_except name this1 this2 →
  agree_except name (parse_line this1 (trim line)) (parse_line this2 (trim line)).
Proof.
  intros Hname Hagree. pose proof Hagree as (Hc & He & Hv & Hr).
  destruct (skipped line) eqn:Hskip.
  { unfold skipped in Hskip. unfold parse_line. by rewrite Hskip. }
  destruct (dispatched_tokens line Hskip) as (Htok & Hhash & _).
  assert (Hne : hd [] (split_ws (trim line)) ≠ name).
  { intros E. unfold dispatchable in Hname. by rewrite <- E, Htok, Hhash in Hname. }
  unfold skipped in Hskip. unfold parse_line. rewrite Hskip, (Hr _ Hne).
  destruct (commandRegistry this2 !! _) as [h|]; [|by apply handleError_agree].
  rewrite He. destruct (h _ (env this2)) as [e' [err|]].
  - apply handleError_agree. by unfold agree_except.
  - cbn. rewrite Hc. destruct (onLineParsed (config this2)) as [hook|].
    + destruct (hook _ _).
      * apply handleError_agree. unfold agree_except. cbn. by rewrite Hv.
      * unfold agree_except. cbn. by rewrite Hv.
    + by unfold agree_except.
Qed.

(** X5: a handler registered under a name that has white space in it, or
    that starts with a hash sign, is never run: with or without it every
    script leaves the same environment and the same events. *)
Theorem parse_never_calls_undispatchable_name
    (name : jstring) (h : MJSSCommandHandler) (this this' : MJSSInterpreter)
    (script : jstring) :
  dispatchable name = false →
  registerFunction name h this = Returns this' →
  env (parse this' script) = env (parse this script)
  ∧ events (parse this' script) = events (parse this script).
Proof.
  intros Hname Hreg.
  assert (Hagree : agree_except name this' this).
  { destruct name as [|c name]; [done|]. injection Hreg as <-.
    unfold agree_except. cbn. repeat split; try done.
    intros other Ho. by apply lookup_insert_ne. }
  clear Hreg. unfold parse.
  assert (Hall : agree_except name
            (foldl parse_line this' (trim <$> split LF script))
            (foldl parse_line this (trim <$> split LF script))).
  { revert this this' Hagree.
    induction (split LF script) as [|l ls IH]; intros this this' Hagree; [done|].
    cbn [fmap list_fmap foldl]. by apply IH, parse_line_agree. }
  by destruct Hall as (_ & ? & ? & _).
Qed.

Lemma parse_never_calls_undispatchable_name_witness :
  let wipe : MJSSCommandHandler := λ _ _, ([], None) in
  ∃ this', registerFunction (js "#wipe") wipe (fresh None) = Returns this'
    ∧ env (parse this' (js "setProperty a 1" ++ [LF] ++ js "#wipe"))
        = [(js "a", VStr (js "1"))].
Proof.
  intros wipe. eexists. split; [reflexivity|].
  rewrite (proj1 (parse_never_calls_undispatchable_name (js "#wipe") wipe
                    (fresh None) _ _ eq_refl eq_refl)).
  reflexivity.
Defined.

(** *** The built-in commands with too few arguments *)

(** X6: a line that calls [setProperty] or [animateElement], as a new
    interpreter has them, with fewer than two arguments changes nothing in
    the environment and reports one failure, under the name of the
    command, with the message of the arity error; [onLineParsed] is not
    called. *)
Theorem builtin_arity_failure
    (this : MJSSInterpreter) (line : jstring) (args : list jstring) :
  skipped line = false → length args < 2 →
  (commandRegistry this !! js "setProperty" = Some setProperty →
   split_ws (trim line) = js "setProperty" :: args →
   parse_line this (trim line)
     = handleError this (js "Command 'setProperty'")
         (Error (js "setProperty requires at least 2 args: key, value")))
  ∧ (commandRegistry this !! js "animateElement" = Some animateElement →
     split_ws (trim line) = js "animateElement" :: args →
     parse_line this (trim line)
       = handleError this (js "Command 'animateElement'")
           (Error (js "animateElement requires at least 2 args: animationName, duration")))
  ∧ ∀ context error,
      env (handleError this context error) = env this
      ∧ events (handleError this context error)
          = events this ++ [failure_event this context error].
Proof.
  intros Hskip Hlen. unfold skipped in Hskip.
  assert (Hshort : (length args <? 2) = true) by by apply Nat.ltb_lt.
  split; [|split; [|done]].
  - intros Hreg Htok. unfold parse_line. rewrite Hskip, Htok. cbn [hd tl].
    rewrite Hreg. unfold setProperty. rewrite Hshort.
    by destruct this.
  - intros Hreg Htok. unfold parse_line. rewrite Hskip, Htok. cbn [hd tl].
    rewrite Hreg. unfold animateElement. rewrite Hshort.
    by destruct this.
Qed.

Lemma builtin_arity_failure_witness :
  parse (fresh None) (js "setProperty lonely" ++ [LF] ++ js "animateElement")
  = handleError
      (handleError (fresh None) (js "Command 'setProperty'")
         (Error (js "setProperty requires at least 2 args: key, value")))
      (js "Command 'animateElement'")
      (Error (js "animateElement requires at least 2 args: animationName, duration")).
Proof.
  destruct (builtin_arity_failure (fresh None) (js "setProperty lonely")
              [js "lonely"] eq_refl ltac:(simpl; lia)) as (Hset & _ & _).
  pose proof (Hset (fresh_setProperty None) eq_refl) as Hfirst.
  destruct (builtin_arity_failure
              (handleError (fresh None) (js "Command 'setProperty'")
                 (Error (js "setProperty requires at least 2 args: key, value")))
              (js "animateElement") [] eq_refl ltac:(simpl; lia))
    as (_ & Hanim & _).
  pose proof (Hanim (lookup_insert_eq _ _ _) eq_refl) as Hsecond.
  unfold parse.
  change (trim <$> split LF (js "setProperty lonely" ++ [LF] ++ js "animateElement"))
    with [trim (js "setProperty lonely"); trim (js "animateElement")].
  cbn [foldl]. rewrite Hfirst. exact Hsecond.
Defined.

(** *** A command line and its tokens *)

(** X7: a command line written as [setProperty], a key and one or more
    words, all tokens, joined by blanks, is read back as written: run as a
    script it assigns the words, joined by blanks, to the key. *)
Theorem setProperty_line_round_trip
    (this : MJSSInterpreter) (key : jstring) (words : list jstring) :
  commandRegistry this !! js "setProperty" = Some setProperty →
  is_token key = true → words ≠ [] → forallb is_token words = true →
  let line := join (js " ") (js "setProperty" :: key :: words) in
  split_ws (trim line) = js "setProperty" :: key :: words
  ∧ env (parse this line) = js_put (env this) key (VStr (join (js " ") words)).
Proof.
  intros Hreg Hkey Hwords Hall line.
  assert (Htokens : forallb is_token (js "setProperty" :: key :: words) = true).
  { cbn [forallb]. by rewrite Hkey, Hall. }
  destruct (join_blank_line (js "setProperty" :: key :: words)) as [Htrim Hnl];
    [done|done|].
  fold line in Htrim, Hnl. apply trim_trimmed in Htrim.
  assert (Hsplit : split_ws (trim line) = js "setProperty" :: key :: words).
  { rewrite Htrim. by apply split_ws_join. }
  split; [done|].
  unfold parse. rewrite split_no_sep by done. cbn [fmap list_fmap foldl].
  assert (Hskip : skipped line = false).
  { unfold skipped. rewrite Htrim. reflexivity. }
  rewrite (parse_line_env this line setProperty Hskip).
  - rewrite Hsplit. cbn [tl]. unfold setProperty.
    destruct words as [|w ws]; [done|]. reflexivity.
  - by rewrite Hsplit.
Qed.

Lemma setProperty_line_round_trip_witness :
  env (parse (fresh None) (js "setProperty title Hello big world"))
  = [(js "title", VStr (js "Hello big world"))].
Proof.
  exact (proj2 (setProperty_line_round_trip (fresh None) (js "title")
                  [js "Hello"; js "big"; js "world"]
                  (fresh_setProperty None) eq_refl ltac:(done) eq_refl)).
Defined.

(** *** How many failures *)

Lemma parse_line_failures this line :
  length (failures (parse_line this line)) ≤ S (length (failures this)).
Proof.
  unfold parse_line. destruct (is_empty line || startsWith [HASH] line); [lia|].
  assert (Hone : ∀ that context error,
            length (failures (handleError that context error))
              = S (length (failures that))).
  { intros that context error. unfold failures, handleError, log_event. cbn.
    rewrite List.filter_app, length_app.
    destruct (onError (config that)); cbn; lia. }
  destruct (commandRegistry this !! _) as [h|]; [|by rewrite Hone].
  destruct (h _ _) as [e' [err|]]; [by rewrite Hone|]. cbn.
  destruct (onLineParsed (config this)) as [hook|]; [|unfold failures; cbn; lia].
  assert (Hlog : failures (log_event (set_env this e')
                    (OnLineParsed (hd [] (split_ws line)) (tl (split_ws line))))
                 = failures this).
  { unfold failures. cbn. by rewrite List.filter_app, app_nil_r. }
  destruct (hook _ _); [rewrite Hone|]; rewrite Hlog; lia.
Qed.

(** X8: a script reports at most one failure for each of its lines. *)
Theorem parse_failures_bound this script :
  length (failures (parse this script))
  ≤ length (failures this) + length (split LF script).
Proof.
  unfold parse. revert this.
  induction (split LF script) as [|l ls IH]; intros this; [simpl; lia|].
  cbn [fmap list_fmap foldl length]. specialize (IH (parse_line this (trim l))).
  pose proof (parse_line_failures this (trim l)). lia.
Qed.

End InterpreterMore.

(** ** More on the property parser *)

Module ParserMore.
Import JS JSSpec MJSSEngine EngineSpec MoreSpec MoreEngineSpec JSFacts ObjFacts
  ParserFacts MergeFacts StringMore.

Lemma trimStart_subset x s : x ∈ trimStart s → x ∈ s.
Proof.
  destruct (trimStart_suffix s) as [pre E]. intros H. rewrite E.
  apply elem_of_app. by right.
Qed.

Lemma trim_subset x s : x ∈ trim s → x ∈ s.
Proof.
  unfold trim, trimEnd. rewrite elem_of_reverse. intros H.
  apply trimStart_subset in H. rewrite elem_of_reverse in H.
  by apply trimStart_subset.
Qed.

(** The parser passes over an ignored line. *)
Lemma parse_line_ignored props line :
  ignored line = true → parse_line props (trim line) = Returns props.
Proof.
  unfold ignored, parse_line.
  destruct (is_empty (trim line) || startsWith [HASH] (trim line)); [done|].
  cbn [orb]. intros [Hno|Hkey]%orb_true_iff.
  - apply negb_true_iff, bool_decide_eq_false in Hno.
    rewrite split_no_sep; [done|]. intros Hin. by apply Hno, trim_subset.
  - destruct (split EQUALS (trim line)) as [|k [|v rest]]; [done..|].
    cbn [fmap list_fmap hd] in *. by rewrite Hkey.
Qed.

(** X9: a script in which every line is blank, a comment, without equals
    sign, or without a key before the first equals sign parses to the
    empty tree; the parser reports nothing about such lines. *)
Theorem parseMJSS_ignores_lines script :
  Forall (λ l, ignored l = true) (split LF script) →
  parseMJSS script = Returns [].
Proof.
  unfold parseMJSS. generalize (@nil (jstring * value)) as props.
  induction (split LF script) as [|line lines IH]; intros props Hall; [done|].
  apply Forall_cons in Hall as [Hline Hall].
  cbn [fmap list_fmap parse_lines]. rewrite parse_line_ignored by done.
  by apply IH.
Qed.

Lemma parseMJSS_ignores_lines_witness :
  parseMJSS (js "# only comments" ++ [LF] ++ js "no equals sign here" ++ [LF]
             ++ js "   = value without key" ++ [LF] ++ js "  ")
  = Returns [].
Proof.
  apply parseMJSS_ignores_lines.
  apply (bool_decide_unpack _). vm_compute. exact I.
Defined.

(** What a line with a key without dots does. *)
Lemma parse_line_flat props line rawKey rawValue more :
  is_empty line || startsWith [HASH] line = false →
  trim <$> split EQUALS line = rawKey :: rawValue :: more →
  rawKey ≠ [] → DOT ∉ rawKey →
  MJSSEngine.parse_line props line
    = Returns (js_put props rawKey (VStr (cleanedValue rawValue))).
Proof.
  intros Hline Hsplit Hne Hdot. unfold MJSSEngine.parse_line.
  rewrite Hline, Hsplit. destruct rawKey as [|c k]; [done|].
  cbn [is_empty]. by rewrite split_no_sep.
Qed.

(** The parser does not tell where it ends up beyond the tree. *)
Lemma assign_path_beyond keyParts cleaned : ∀ currentObj beyond,
  assign_path currentObj keyParts cleaned = Escapes beyond → beyond = None.
Proof.
  induction keyParts as [|part rest IH]; intros currentObj beyond; [done|].
  cbn [assign_path]. destruct rest as [|next rest]; [done|].
  destruct (obj_get _ part) as [[text|child]|]; [| |by intros [= <-]].
  - destruct rest; [|done]. by case_decide.
  - destruct (assign_path child (next :: rest) cleaned); [done|done|].
    by intros [= <-].
Qed.

Lemma parse_line_beyond props line beyond :
  MJSSEngine.parse_line props line = Escapes beyond → beyond = None.
Proof.
  unfold MJSSEngine.parse_line.
  destruct (is_empty line || startsWith [HASH] line); [done|].
  destruct (trim <$> split EQUALS line) as [|rawKey [|rawValue more]]; [done..|].
  destruct (is_empty rawKey); [done|]. apply assign_path_beyond.
Qed.

Lemma parseMJSS_app script line :
  LF ∉ line →
  parseMJSS (script ++ [LF] ++ line)
    = bind (parseMJSS script) (λ props, MJSSEngine.parse_line props (trim line)).
Proof.
  intros Hline. unfold parseMJSS. cbn [app].
  rewrite split_app_any, fmap_app, RoundTrip.parse_lines_app.
  rewrite (split_no_sep LF line) by done.
  destruct (parse_lines [] _) as [props| |]; [|done..].
  cbn. destruct (MJSSEngine.parse_line props (trim line)) eqn:E; [done..|].
  by apply parse_line_beyond in E as ->.
Qed.

(** X10: when a script parses and a line is added whose key has no dot,
    is not empty and is not [__proto__], the longer script parses too; its
    tree has under that key the cleaned value of the added line, whatever
    the key had before (the last occurrence wins, a nested tree is
    replaced by the string), and every other key has what it had. *)
Theorem parseMJSS_last_assignment_wins
    (script line rawKey rawValue : jstring) (more : list jstring) (props : obj) :
  parseMJSS script = Returns props →
  LF ∉ line →
  is_empty (trim line) || startsWith [HASH] (trim line) = false →
  trim <$> split EQUALS (trim line) = rawKey :: rawValue :: more →
  rawKey ≠ [] → DOT ∉ rawKey → rawKey ≠ js "__proto__" →
  ∃ props', parseMJSS (script ++ [LF] ++ line) = Returns props'
    ∧ obj_get props' rawKey = Some (VStr (cleanedValue rawValue))
    ∧ ∀ k, k ≠ rawKey → obj_get props' k = obj_get props k.
Proof.
  intros Hparse Hlf Hline Hsplit Hne Hdot Hproto.
  eexists. rewrite parseMJSS_app, Hparse by done. cbn [bind].
  split; [by apply (parse_line_flat props (trim line) rawKey rawValue more)|].
  split; [by apply obj_get_put_eq|].
  intros k Hk. by apply obj_get_put_ne.
Qed.

Lemma parseMJSS_last_assignment_wins_witness :
  ∃ props',
    parseMJSS ((js "size = 1" ++ [LF] ++ js "color.shade = dark")
               ++ [LF] ++ js "  color = 'blue' ") = Returns props'
    ∧ obj_get props' (js "color") = Some (VStr (js "blue")).
Proof.
  assert (Hparse : parseMJSS (js "size = 1" ++ [LF] ++ js "color.shade = dark")
                    = Returns [(js "size", VStr (js "1"));
                               (js "color", VObj [(js "shade", VStr (js "dark"))])])
    by reflexivity.
  destruct (parseMJSS_last_assignment_wins
              (js "size = 1" ++ [LF] ++ js "color.shade = dark")
              (js "  color = 'blue' ") (js "color") (js "'blue'") [] _ Hparse)
    as (props' & Hrun & Hget & _).
  - apply (bool_decide_unpack _). vm_compute. exact I.
  - reflexivity.
  - reflexivity.
  - intros H. vm_compute in H. discriminate H.
  - apply (bool_decide_unpack _). vm_compute. exact I.
  - intros H. vm_compute in H. discriminate H.
  - exists props'. by split.
Defined.

Lemma parseMJSS_throws_on script rest e :
  parseMJSS script = Throws e → parseMJSS (script ++ [LF] ++ rest) = Throws e.
Proof.
  unfold parseMJSS. intros H. cbn [app].
  by rewrite split_app_any, fmap_app, RoundTrip.parse_lines_app, H.
Qed.

Lemma split_cons_inv sep s p q ps : split sep s = p :: q :: ps → s ≠ [].
Proof. by intros H ->. Qed.

(** X11: a key path that goes below a key holding a string. When a
    script parses, a key of its tree holds a string, and the next line
    assigns to a path of two or more parts that starts with that key: the
    script with that line throws a [TypeError], whatever follows the line,
    unless the path is the key followed by [__proto__] and nothing else;
    that line is passed over, and the script with it parses to the same
    tree. *)
Theorem parseMJSS_throws_below_a_string
    (script line rawKey rawValue key part s : jstring)
    (more parts : list jstring) (props : obj) :
  parseMJSS script = Returns props →
  obj_get props key = Some (VStr s) →
  LF ∉ line →
  is_empty (trim line) || startsWith [HASH] (trim line) = false →
  trim <$> split EQUALS (trim line) = rawKey :: rawValue :: more →
  split DOT rawKey = key :: part :: parts →
  (parts ≠ [] ∨ part ≠ js "__proto__" →
     ∀ rest, parseMJSS (script ++ [LF] ++ line ++ [LF] ++ rest) = Throws TypeError)
  ∧ (parts = [] ∧ part = js "__proto__" →
     parseMJSS (script ++ [LF] ++ line) = Returns props).
Proof.
  intros Hparse Hkey Hlf Hline Hsplit Hparts.
  assert (Hline_is : MJSSEngine.parse_line props (trim line)
            = match parts with
              | [] => if decide (part = js "__proto__") then Returns props
                      else Throws TypeError
              | _ :: _ => Throws TypeError
              end).
  { unfold MJSSEngine.parse_line. rewrite Hline, Hsplit.
    destruct rawKey as [|c k]; [done|]. cbn [is_empty]. rewrite Hparts.
    cbn [assign_path]. unfold js_in.
    assert (obj_has props key = true) as -> by (apply obj_has_true; by eexists).
    cbn [orb]. by rewrite Hkey. }
  split.
  - intros Hpath rest.
    rewrite (app_assoc script), (app_assoc _ line). apply parseMJSS_throws_on.
    rewrite <- app_assoc, parseMJSS_app, Hparse by done. cbn [bind].
    rewrite Hline_is. destruct parts as [|p parts]; [|done].
    case_decide; [|done]. by destruct Hpath.
  - intros [-> ->]. rewrite parseMJSS_app, Hparse by done. cbn [bind].
    rewrite Hline_is. by case_decide.
Qed.

Lemma parseMJSS_throws_below_a_string_witness :
  parseMJSS (js "color = red" ++ [LF] ++ js "color.shade = dark" ++ [LF]
             ++ js "text = never read")
  = Throws TypeError
  ∧ parseMJSS (js "color = red" ++ [LF] ++ js "color.__proto__.x = dark" ++ [LF]
               ++ js "text = never read")
    = Throws TypeError
  ∧ parseMJSS (js "color = red" ++ [LF] ++ js "color.__proto__ = dark")
    = Returns [(js "color", VStr (js "red"))].
Proof.
  split; [|split].
  - apply (parseMJSS_throws_below_a_string (js "color = red")
             (js "color.shade = dark")
             (js "color.shade") (js "dark") (js "color") (js "shade") (js "red")
             [] [] [(js "color", VStr (js "red"))]).
    + reflexivity.
    + reflexivity.
    + apply (bool_decide_unpack _). vm_compute. exact I.
    + reflexivity.
    + reflexivity.
    + reflexivity.
    + right. intros H. vm_compute in H. discriminate H.
  - apply (parseMJSS_throws_below_a_string (js "color = red")
             (js "color.__proto__.x = dark")
             (js "color.__proto__.x") (js "dark") (js "color") (js "__proto__")
             (js "red") [] [js "x"] [(js "color", VStr (js "red"))]).
    + reflexivity.
    + reflexivity.
    + apply (bool_decide_unpack _). vm_compute. exact I.
    + reflexivity.
    + reflexivity.
    + reflexivity.
    + by left.
  - apply (parseMJSS_throws_below_a_string (js "color = red")
             (js "color.__proto__ = dark")
             (js "color.__proto__") (js "dark") (js "color") (js "__proto__")
             (js "red") [] [] [(js "color", VStr (js "red"))]).
    + reflexivity.
    + reflexivity.
    + apply (bool_decide_unpack _). vm_compute. exact I.
    + reflexivity.
    + reflexivity.
    + reflexivity.
    + done.
Defined.

(** X12: what [buildMJSS] makes of the values at the second level.
    It throws a [TypeError] when one of them is an object with a property
    [toString] of its own (a script line such as [a.b.toString = x] makes
    one), and only then: a tree without such a value it serializes, to
    the text of the tree. It does not see below the second level: an
    object there, without [toString] of its own, is written as
    [[object Object]], so that the tree serializes as the tree with that
    text in the place of the object. *)
Theorem buildMJSS_flattens_third_level
    (before after nestedBefore nestedAfter deep : obj) (key nestedKey : jstring) :
  let tree nestedVal :=
    before ++ (key, VObj (nestedBefore ++ (nestedKey, nestedVal) :: nestedAfter))
           :: after in
  (obj_has deep (js "toString") = true →
     buildMJSS (tree (VObj deep)) = Abrupt TypeError)
  ∧ (obj_has deep (js "toString") = false →
     buildMJSS (tree (VObj deep))
       = buildMJSS (tree (VStr (js "[object Object]"))))
  ∧ ∀ t, (serializable t = true → buildMJSS t = Normal (tree_text t))
         ∧ (serializable t = false → buildMJSS t = Abrupt TypeError).
Proof.
  intros tree.
  assert (Hserial : ∀ nestedVal,
            serializable (tree nestedVal)
            = serializable before
              && (forallb (λ nkv, coercible nkv.2) nestedBefore
                  && (coercible nestedVal
                      && forallb (λ nkv, coercible nkv.2) nestedAfter)
                  && serializable after)).
  { intros nestedVal. unfold tree, serializable.
    rewrite forallb_app. cbn [forallb snd]. by rewrite forallb_app. }
  split; [|split].
  - intros Hown. rewrite BuildFacts.buildMJSS_text, Hserial.
    cbn [coercible]. rewrite Hown. cbn [negb andb].
    rewrite andb_false_r. cbn [andb]. by rewrite andb_false_r.
  - intros Hown. rewrite !BuildFacts.buildMJSS_text, !Hserial.
    cbn [coercible]. rewrite Hown. cbn [negb andb].
    destruct (serializable before && _); [|done]. f_equal.
    unfold tree, tree_text, tree_lines. f_equal.
    rewrite !fmap_app, !fmap_cons. f_equal. f_equal. f_equal.
    unfold entry_lines. by rewrite !fmap_app, !fmap_cons.
  - intros t. rewrite BuildFacts.buildMJSS_text.
    by split; intros ->.
Qed.

(** The tree of the script [a.b.toString = x], and a tree with a third
    level. *)
Lemma buildMJSS_flattens_third_level_witness :
  parseMJSS (js "a.b.toString = x")
    = Returns [(js "a", VObj [(js "b", VObj [(js "toString", VStr (js "x"))])])]
  ∧ buildMJSS [(js "a", VObj [(js "b", VObj [(js "toString", VStr (js "x"))])])]
    = Abrupt TypeError
  ∧ buildMJSS [(js "a", VObj [(js "b", VObj [(js "c", VStr (js "x"))])])]
    = buildMJSS [(js "a", VObj [(js "b", VStr (js "[object Object]"))])].
Proof.
  split; [reflexivity|]. split.
  - exact (proj1 (buildMJSS_flattens_third_level [] [] [] []
                    [(js "toString", VStr (js "x"))] (js "a") (js "b")) eq_refl).
  - exact (proj1 (proj2 (buildMJSS_flattens_third_level [] [] [] []
                           [(js "c", VStr (js "x"))] (js "a") (js "b"))) eq_refl).
Defined.

End ParserMore.

(** ** More on the engine: rendering, saving, reloading *)

Module EngineMore.
Import JS JSSpec MJSSEngine EngineSpec MoreEngineSpec JSFacts ObjFacts
  MergeFacts EngineFacts BuildFacts.

Lemma writes_normal ops : writes (Normal <$> ops) = ops.
Proof. induction ops as [|op ops IH]; [done|]. cbn. by rewrite IH. Qed.

Lemma writes_app_prefix steps1 steps2 :
  writes (steps1 ++ steps2) `prefix_of` writes steps1 ++ writes steps2.
Proof.
  induction steps1 as [|[op|e] steps1 IH]; cbn [app writes].
  - done.
  - by apply prefix_cons.
  - apply prefix_nil.
Qed.

Lemma perform_log h steps : ∀ w w' thrown,
  perform h steps w = (w', thrown) →
  ∃ performed, dom w' = dom w ++ performed
    ∧ performed `prefix_of` writes steps
    ∧ (thrown = None → steps = Normal <$> performed).
Proof.
  induction steps as [|[op|e] steps IH]; intros w w' thrown; cbn [perform].
  - intros [= <- <-]. exists []. by rewrite app_nil_r.
  - destruct (dom_fault h op) as [e|].
    + intros [= <- <-]. exists []. rewrite app_nil_r.
      split; [done|]. split; [apply prefix_nil|done].
    + intros H. apply IH in H as (performed & Hdom & Hpre & Hall).
      exists (op :: performed). cbn [log_dom dom] in Hdom.
      rewrite Hdom, <- app_assoc. split; [done|].
      split; [by apply prefix_cons|]. intros Hnone. by rewrite Hall.
  - intros [= <- <-]. exists []. rewrite app_nil_r.
    split; [done|]. split; [apply prefix_nil|done].
Qed.

Lemma perform_faultless h ops : ∀ w,
  (∀ op, dom_fault h op = None) →
  perform h (Normal <$> ops) w
    = ({| storage := storage w; dom := dom w ++ ops; reports := reports w |}, None).
Proof.
  induction ops as [|op ops IH]; intros w Hh; cbn [perform fmap list_fmap].
  - rewrite app_nil_r. by destruct w.
  - rewrite Hh. fold (Normal (A := dom_op) <$> ops). rewrite IH by done.
    cbn [log_dom storage dom reports]. by rewrite <- app_assoc.
Qed.

Lemma set_button_id this : buttonElem this = true → set_button this = this.
Proof. destruct this. cbn. by intros ->. Qed.

Lemma obj_get_elem o k v : obj_get o k = Some v → (k, v) ∈ o.
Proof.
  induction o as [|[k' v'] o IH]; [done|]. cbn [obj_get].
  case_decide as Hk.
  - intros [= ->]. subst k'. left.
  - intros H. right. by apply IH.
Qed.

Lemma coercible_lookup o k v :
  forallb (λ kv, coercible kv.2) o = true → obj_get o k = Some v →
  coercible v = true.
Proof.
  intros Hall Hget. rewrite forallb_forall in Hall.
  by apply obj_get_elem, list_elem_of_In, Hall in Hget.
Qed.

Lemma coerced_normal v op :
  coercible v = true → coerced v op = Normal (op (value_text v)).
Proof. intros Hv. unfold coerced. by rewrite to_string_text, Hv. Qed.

(** When no coercion throws, the statements of [renderButton] are the
    operations they write. *)
Lemma when_set_normal props name op :
  forallb (λ kv, coercible kv.2) props = true →
  when_set props name op = Normal <$> writes (when_set props name op).
Proof.
  intros Hall. unfold when_set.
  destruct (obj_get props (js name)) as [v|] eqn:Eget; [|done].
  destruct (truthy (Some v)); [|done].
  by rewrite coerced_normal by by eapply coercible_lookup.
Qed.

Lemma animation_steps_normal props :
  serializable props = true →
  animation_steps props = Normal <$> writes (animation_steps props).
Proof.
  intros Hall. unfold animation_steps.
  destruct (truthy (obj_get props ANIMATION)); [|done].
  destruct (obj_get props ANIMATION) as [[s|a]|] eqn:Ea; [done| |done].
  destruct (obj_get a (js "type")) as [[t|?]|]; [|done..].
  destruct (decide (t = js "fade")); [|done].
  destruct (obj_get a (js "duration")) as [d|] eqn:Ed; [|done].
  destruct (truthy (Some d)); [|done].
  assert (coercible d = true) as Hd.
  { unfold serializable in Hall. rewrite forallb_forall in Hall.
    apply obj_get_elem, list_elem_of_In, Hall in Ea. cbn [snd] in Ea.
    by eapply coercible_lookup. }
  by rewrite to_string_text, Hd.
Qed.

Lemma property_steps_normal props :
  coercible_tree props = true →
  property_steps props = Normal <$> property_ops props.
Proof.
  intros [Hfirst Hsecond]%andb_true_iff. unfold property_ops, property_steps.
  rewrite (when_set_normal props "text") by done.
  rewrite (when_set_normal props "color") by done.
  rewrite (when_set_normal props "width") by done.
  rewrite (when_set_normal props "height") by done.
  rewrite (animation_steps_normal props) by done.
  rewrite <- !fmap_app. by rewrite !writes_normal.
Qed.

Lemma renderButton_faultless h this w :
  (∀ op, dom_fault h op = None) →
  coercible_tree (currentMJSSProps this) = true →
  renderButton h this w
    = (set_button this, rendered this (currentMJSSProps this) w, None).
Proof.
  intros Hh Hprops. unfold renderButton, rendered, creation_ops.
  rewrite property_steps_normal by done.
  destruct (buttonElem this) eqn:Eb.
  - rewrite perform_faultless, set_button_id by done. done.
  - cbn [perform]. rewrite Hh.
    apply andb_true_iff in Hprops as [Hfirst _].
    rewrite (when_set_normal _ "buttonID") by done.
    change [Normal (AppendChild (containerElem this))]
      with (Normal <$> [AppendChild (containerElem this)]).
    rewrite <- !fmap_app, writes_normal, perform_faultless by done.
    cbn [log_dom storage dom reports]. rewrite <- !app_assoc.
    f_equal. cbn [app]. f_equal. by rewrite <- app_assoc.
Qed.

Lemma truthy_text v : truthy (Some v) = true → value_text v ≠ [].
Proof.
  destruct v as [[|c s]|o]; cbn; [done|done|]. intros _ H. by vm_compute in H.
Qed.

Lemma when_set_writes props name op :
  Forall (λ o, ∃ text, o = op text ∧ text ≠ []) (writes (when_set props name op)).
Proof.
  unfold when_set. destruct (obj_get props (js name)) as [v|]; [|done].
  destruct (truthy (Some v)) eqn:Ev; [|done].
  unfold coerced. rewrite to_string_text. destruct (coercible v); [|done].
  cbn. constructor; [|done]. eexists. split; [done|]. by apply truthy_text.
Qed.

Lemma animation_steps_write props :
  Forall (λ op, is_property_op op = true ∧ written op ≠ [])
         (writes (animation_steps props)).
Proof.
  unfold animation_steps.
  destruct (truthy (obj_get props ANIMATION)); [|done].
  destruct (obj_get props ANIMATION) as [[s|a]|]; [done| |done].
  destruct (obj_get a (js "type")) as [[t|?]|]; [|done..].
  destruct (decide (t = js "fade")); [|done].
  destruct (match obj_get a (js "duration") with Some _ => _ | None => _ end)
    as [duration|err]; [|done].
  cbn. constructor; [|done]. split; [done|]. by vm_compute.
Qed.

Lemma Forall_prefix {A} (P : A → Prop) (l1 l2 : list A) :
  l1 `prefix_of` l2 → Forall P l2 → Forall P l1.
Proof. intros [k ->] H. by apply Forall_app in H as [? _]. Qed.

Lemma Forall_writes_app (P : dom_op → Prop) steps1 steps2 :
  Forall P (writes steps1) → Forall P (writes steps2) →
  Forall P (writes (steps1 ++ steps2)).
Proof.
  intros H1 H2. apply (Forall_prefix _ _ _ (writes_app_prefix steps1 steps2)).
  by apply Forall_app.
Qed.

Lemma property_ops_are_property_ops props :
  Forall (λ op, is_property_op op = true ∧ written op ≠ []) (property_ops props).
Proof.
  unfold property_ops, property_steps. repeat apply Forall_writes_app.
  1-4: eapply Forall_impl; [apply when_set_writes|];
       by intros o (text & -> & Htext).
  apply animation_steps_write.
Qed.

(** X13: what [renderButton] writes is the text of the button and the
    style properties [backgroundColor], [width], [height] and
    [transition], and it never writes an empty text or an empty style
    value: a property that is absent or the empty string is not applied
    (so an update cannot clear the text of the button). *)
Theorem property_ops_writes_no_empty_value (props : obj) (op : dom_op) :
  op ∈ property_ops props →
  is_property_op op = true ∧ written op ≠ [].
Proof.
  intros Hin.
  by apply (proj1 (Forall_forall _ _) (property_ops_are_property_ops props)).
Qed.

Lemma property_ops_writes_no_empty_value_witness :
  let props := [(js "text", VStr []); (js "color", VStr (js "red"))] in
  property_ops props = [SetStyle (js "backgroundColor") (js "red")]
  ∧ is_property_op (SetStyle (js "backgroundColor") (js "red")) = true
  ∧ written (SetStyle (js "backgroundColor") (js "red")) ≠ [].
Proof.
  intros props. split; [reflexivity|].
  apply (property_ops_writes_no_empty_value props).
  change (property_ops props) with [SetStyle (js "backgroundColor") (js "red")].
  left.
Defined.

(** X14: [renderButton] makes the button once. What it does to the page
    is a prefix of: the creation of the button, its identifier and its
    insertion into the container when the engine has no button yet, and
    then the properties; all of it when nothing raises. With a button the
    engine is unchanged and only properties are written; without one the
    engine has a button afterwards exactly when [createElement] did not
    raise, also when a later operation raised. *)
Theorem renderButton_creates_button_once
    (h : host) (this this' : MJSSEngine) (w w' : world) (thrown : option jserror) :
  renderButton h this w = (this', w', thrown) →
  let props := currentMJSSProps this in
  ∃ performed,
    dom w' = dom w ++ performed
    ∧ performed `prefix_of` creation_ops this props ++ property_ops props
    ∧ (thrown = None →
         performed = creation_ops this props ++ property_ops props
         ∧ buttonElem this' = true)
    ∧ (buttonElem this = true →
         this' = this ∧ Forall (λ op, is_property_op op = true) performed)
    ∧ (buttonElem this' = true ↔ buttonElem this = true ∨ performed ≠ []).
Proof.
  intros Hrender props. unfold renderButton in Hrender. fold props in Hrender.
  unfold creation_ops, property_ops. destruct (buttonElem this) eqn:Eb.
  - destruct (perform h (property_steps props) w) as [w1 t1] eqn:E.
    injection Hrender as <- <- <-.
    apply perform_log in E as (performed & Hdom & Hpre & Hall).
    exists performed. cbn [app]. split; [done|]. split; [done|].
    split.
    { intros Hnone. split; [|done]. by rewrite (Hall Hnone), writes_normal. }
    split; [|by split; [left|]]. intros _. split; [done|].
    apply (Forall_prefix _ _ _ Hpre).
    eapply Forall_impl; [apply property_ops_are_property_ops|]. by intros ? [? _].
  - cbn [perform] in Hrender.
    destruct (dom_fault h (CreateElement (js "button"))) as [e|].
    + injection Hrender as <- <- <-. exists []. rewrite app_nil_r.
      split; [done|]. split; [apply prefix_nil|]. split; [done|].
      split; [done|]. rewrite Eb. split; [done|]. by intros [?|?].
    + destruct (perform h _ (log_dom w _)) as [w1 t1] eqn:E.
      injection Hrender as <- <- <-.
      apply perform_log in E as (performed & Hdom & Hpre & Hall).
      exists (CreateElement (js "button") :: performed).
      cbn [log_dom dom] in Hdom. rewrite Hdom, <- app_assoc.
      split; [done|].
      split.
      { cbn [app]. apply prefix_cons. etrans; [exact Hpre|].
        rewrite app_assoc. apply writes_app_prefix. }
      split; [|split; [done|by split; [right|]]].
      intros Hnone. split; [|done]. cbn [app]. f_equal.
      specialize (Hall Hnone).
      assert (Hw : writes (when_set props "buttonID" SetId
                           ++ [Normal (AppendChild (containerElem this))]
                           ++ property_steps props) = performed)
        by by rewrite Hall, writes_normal.
      rewrite <- Hw. clear Hw.
      rewrite app_assoc in Hall. symmetry in Hall.
      apply fmap_app_inv in Hall as (ops1 & ops2 & H1 & H2 & _).
      rewrite app_assoc, H1, H2, <- fmap_app. by rewrite !writes_normal.
Qed.

Lemma renderButton_creates_button_once_witness :
  ∃ this' w' performed,
    renderButton page_no_children an_engine blank
      = (this', w', Some (DOMException (js "HierarchyRequestError")))
    ∧ dom w' = dom blank ++ performed
    ∧ performed = [CreateElement (js "button")]
    ∧ buttonElem this' = true.
Proof.
  edestruct (renderButton_creates_button_once page_no_children an_engine
               _ blank _ _ eq_refl) as (performed & Hdom & _ & _ & _ & Hbutton).
  eexists _, _, performed. split; [reflexivity|]. split; [exact Hdom|].
  assert (Hperformed : performed = [CreateElement (js "button")]).
  { change ([] ++ [CreateElement (js "button")] = [] ++ performed) in Hdom.
    cbn [app] in Hdom. by rewrite <- Hdom. }
  split; [exact Hperformed|]. apply Hbutton. right. by rewrite Hperformed.
Defined.

Lemma updateMJSS_faultless h this w newScript replace newProps :
  faultless h → parseMJSS newScript = Returns newProps →
  coercible_tree (combined this newProps replace) = true →
  updateMJSS h this w newScript replace
    = Returns (set_button (set_props this (combined this newProps replace)),
               set_storage (rendered this (combined this newProps replace) w)
                 (<[localStorageKey this
                    := tree_text (combined this newProps replace)]> (storage w))).
Proof.
  intros (Hdom & _ & Hset) Hparse Htree. unfold updateMJSS. rewrite Hparse.
  unfold updateMJSS_try. fold (combined this newProps replace).
  rewrite renderButton_faultless by done. unfold setItem.
  cbn [set_button set_props localStorageKey currentMJSSProps].
  rewrite buildMJSS_text, coercible_serializable by done.
  by rewrite Hset.
Qed.

(** X15: on a host where nothing raises, an update whose script parses
    to a combined tree in which no object of the first or second level
    has a [toString] of its own installs the combined tree, leaves the
    engine with a button, writes to the page the creation of the button
    (when there was none) and the properties of the combined tree, stores
    the serialization of the combined tree under the key of the engine,
    and reports nothing. *)
Theorem updateMJSS_saves_what_it_installs
    (h : host) (this : MJSSEngine) (w : world) (newScript : jstring)
    (replace : bool) (newProps : obj) :
  faultless h → parseMJSS newScript = Returns newProps →
  let tree := combined this newProps replace in
  coercible_tree tree = true →
  ∃ this' w' script,
    updateMJSS h this w newScript replace = Returns (this', w')
    ∧ currentMJSSProps this' = tree
    ∧ buttonElem this' = true
    ∧ dom w' = dom w ++ creation_ops this tree ++ property_ops tree
    ∧ buildMJSS tree = Normal script
    ∧ storage w' = <[localStorageKey this := script]> (storage w)
    ∧ reports w' = reports w.
Proof.
  intros Hh Hparse tree Htree. eexists _, _, (tree_text tree).
  split; [by apply updateMJSS_faultless|].
  split; [done|]. split; [done|]. split; [done|].
  split; [|done]. by rewrite buildMJSS_text, coercible_serializable.
Qed.

Lemma faultless_page : faultless page.
Proof. by repeat split. Qed.

Lemma updateMJSS_saves_what_it_installs_witness :
  ∃ this' w',
    updateMJSS page an_engine blank
      (js "color = 'red'" ++ [LF] ++ js "animation.type = fade") false
      = Returns (this', w')
    ∧ dom w' = [CreateElement (js "button"); AppendChild 7;
                SetTextContent (js "Hi");
                SetStyle (js "backgroundColor") (js "red");
                SetStyle (js "transition") (js "opacity 1s ease-in-out")]
    ∧ storage w' !! js "MJSS_SCRIPT"
        = Some (js "text = " ++ [DQUOTE] ++ js "Hi" ++ [DQUOTE] ++ [LF]
                ++ js "color = " ++ [DQUOTE] ++ js "red" ++ [DQUOTE] ++ [LF]
                ++ js "animation.type = " ++ [DQUOTE] ++ js "fade" ++ [DQUOTE])
    ∧ reports w' = [].
Proof.
  destruct (updateMJSS_saves_what_it_installs page an_engine blank
              (js "color = 'red'" ++ [LF] ++ js "animation.type = fade") false
              _ faultless_page eq_refl eq_refl)
    as (this' & w' & script & Hrun & _ & _ & Hdom & Hbuild & Hstorage & Hreports).
  exists this', w'. split; [exact Hrun|]. split; [exact Hdom|].
  split; [|exact Hreports]. rewrite Hstorage, lookup_insert_eq.
  injection Hbuild as <-. reflexivity.
Defined.

Lemma constructor_resolved h options w elem :
  resolves h options elem →
  constructor h options w = initialize h (new_engine elem options) w.
Proof. unfold constructor. by intros [->|(id & -> & ->)]. Qed.

Lemma initialize_faultless h this w props :
  faultless h → restore this (savedScript this w) = Returns props →
  coercible_tree props = true →
  initialize h this w
    = Returns (set_button (set_props this props), rendered this props w).
Proof.
  intros (Hdom & Hget & _) Hrestore Hprops. unfold initialize, getItem.
  rewrite Hget. fold (savedScript this w). rewrite Hrestore.
  unfold initialize_try. by rewrite renderButton_faultless.
Qed.

(** Parsing the serialization of a plain tree as [initialize] does it:
    the empty serialization is not parsed, and the tree of a new engine is
    empty. *)
Lemma restore_buildMJSS this t :
  currentMJSSProps this = [] → plain_tree t = true →
  restore this (tree_text t) = Returns (without_empty_nested t).
Proof.
  intros Hnew Hplain. unfold restore.
  pose proof (RoundTrip.parseMJSS_buildMJSS t Hplain) as Hparse.
  destruct (tree_text t) as [|c s]; [|done].
  cbn [is_empty]. rewrite Hnew. by injection Hparse as <-.
Qed.

Lemma plain_text_of t script :
  plain_tree t = true → buildMJSS t = Normal script → script = tree_text t.
Proof.
  intros Hplain. rewrite buildMJSS_text.
  rewrite coercible_serializable by by apply plain_coercible.
  by intros [= <-].
Qed.

(** X16: on a host where nothing raises, the constructor restores what is
    stored under its key: when that is the serialization of a plain tree,
    the new engine has that tree, without its empty nested trees, and has
    rendered it; the store is as it was and nothing is reported. *)
Theorem constructor_restores_saved_tree
    (h : host) (options : MJSSEngineOptions) (w : world) (elem : element)
    (t : obj) (script : jstring) :
  faultless h → resolves h options elem →
  plain_tree t = true →
  buildMJSS t = Normal script →
  storage w !! localStorageKey (new_engine elem options) = Some script →
  ∃ this' w',
    constructor h options w = Returns (this', w')
    ∧ currentMJSSProps this' = without_empty_nested t
    ∧ buttonElem this' = true
    ∧ dom w' = dom w
               ++ creation_ops (new_engine elem options) (without_empty_nested t)
               ++ property_ops (without_empty_nested t)
    ∧ storage w' = storage w
    ∧ reports w' = reports w.
Proof.
  intros Hh Hres Hplain Hbuild Hsaved. eexists _, _.
  apply plain_text_of in Hbuild as ->; [|done].
  rewrite (constructor_resolved h options w elem Hres).
  assert (Hinit : initialize h (new_engine elem options) w
            = Returns (set_button (set_props (new_engine elem options)
                                     (without_empty_nested t)),
                       rendered (new_engine elem options)
                         (without_empty_nested t) w)).
  { apply initialize_faultless; [done| |].
    - unfold savedScript. rewrite Hsaved.
      cbn [default]. by apply restore_buildMJSS.
    - by apply coercible_without_empty_nested, plain_coercible. }
  rewrite Hinit. by repeat split.
Qed.

Lemma resolves_app : resolves page app_options 7.
Proof. right. by exists (js "app"). Qed.

Lemma constructor_restores_saved_tree_witness :
  let t := [(js "text", VStr (js "Hi there"));
            (ANIMATION, VObj [(js "type", VStr (js "fade"))]);
            (js "extra", VObj [])] in
  ∃ this' w',
    constructor page app_options (saved (tree_text t)) = Returns (this', w')
    ∧ currentMJSSProps this'
        = [(js "text", VStr (js "Hi there"));
           (ANIMATION, VObj [(js "type", VStr (js "fade"))])]
    ∧ reports w' = [].
Proof.
  intros t.
  destruct (constructor_restores_saved_tree page app_options
              (saved (tree_text t)) 7 t (tree_text t) faultless_page resolves_app
              eq_refl eq_refl eq_refl)
    as (this' & w' & Hrun & Htree & _ & _ & _ & Hreports).
  exists this', w'. split; [exact Hrun|]. split; [exact Htree|exact Hreports].
Defined.

(** X17: what an update saves, the next page load restores. On a host
    where nothing raises, after an update whose script parses, a new
    engine with the same key, constructed on the world the update left,
    has the tree of the updated engine, without its empty nested trees,
    when that tree is plain. *)
Theorem update_then_reload
    (h : host) (this : MJSSEngine) (w : world) (newScript : jstring)
    (replace : bool) (newProps : obj) (options : MJSSEngineOptions)
    (elem : element) :
  faultless h → parseMJSS newScript = Returns newProps →
  plain_tree (combined this newProps replace) = true →
  resolves h options elem →
  localStorageKey (new_engine elem options) = localStorageKey this →
  ∃ this1 w1 this2 w2,
    updateMJSS h this w newScript replace = Returns (this1, w1)
    ∧ constructor h options w1 = Returns (this2, w2)
    ∧ currentMJSSProps this2 = without_empty_nested (currentMJSSProps this1)
    ∧ storage w2 = storage w1
    ∧ reports w2 = reports w.
Proof.
  intros Hh Hparse Hplain Hres Hkey. eexists _, _, _, _.
  pose proof (plain_coercible _ Hplain) as Hcoercible.
  split; [by apply updateMJSS_faultless|].
  rewrite (constructor_resolved h options _ elem Hres).
  erewrite initialize_faultless; [by repeat split|done| |].
  - unfold savedScript. cbn [set_storage storage].
    rewrite Hkey, lookup_insert_eq. cbn [default].
    by apply restore_buildMJSS.
  - by apply coercible_without_empty_nested.
Qed.

Lemma update_then_reload_witness :
  ∃ this1 w1 this2 w2,
    updateMJSS page an_engine blank
      (js "width = 200px" ++ [LF] ++ js "animation.type = 'fade'") false
      = Returns (this1, w1)
    ∧ constructor page app_options w1 = Returns (this2, w2)
    ∧ currentMJSSProps this2
        = [(js "text", VStr (js "Hi")); (js "width", VStr (js "200px"));
           (ANIMATION, VObj [(js "type", VStr (js "fade"))])]
    ∧ reports w2 = [].
Proof.
  destruct (update_then_reload page an_engine blank
              (js "width = 200px" ++ [LF] ++ js "animation.type = 'fade'") false
              _ app_options 7 faultless_page eq_refl eq_refl resolves_app eq_refl)
    as (this1 & w1 & this2 & w2 & Hupdate & Hload & Htree & _ & Hreports).
  exists this1, w1, this2, w2. split; [exact Hupdate|]. split; [exact Hload|].
  split; [|exact Hreports]. rewrite Htree.
  unfold updateMJSS in Hupdate. vm_compute in Hupdate.
  injection Hupdate as <- _. reflexivity.
Defined.

(** X18: with nothing stored under its key (or the empty string) the
    constructor, on a host where nothing raises, makes an engine with the
    empty tree and a button without identifier, text or style in the
    container; it stores and reports nothing. *)
Theorem constructor_with_nothing_stored
    (h : host) (options : MJSSEngineOptions) (w : world) (elem : element) :
  faultless h → resolves h options elem →
  savedScript (new_engine elem options) w = [] →
  constructor h options w
    = Returns (set_button (new_engine elem options),
               {| storage := storage w;
                  dom := dom w ++ [CreateElement (js "button"); AppendChild elem];
                  reports := reports w |}).
Proof.
  intros Hh Hres Hsaved.
  rewrite (constructor_resolved h options w elem Hres).
  rewrite (initialize_faultless h _ w []); [done|done| |done].
  unfold restore. by rewrite Hsaved.
Qed.

Lemma constructor_with_nothing_stored_witness :
  constructor page app_options blank
    = Returns (set_button (new_engine 7 app_options),
               {| storage := ∅;
                  dom := [CreateElement (js "button"); AppendChild 7];
                  reports := [] |}).
Proof.
  exact (constructor_with_nothing_stored page app_options blank 7
           faultless_page resolves_app eq_refl).
Defined.

(** What one call of [renderButton] keeps, with the page. *)
Lemma renderButton_frame h this w this' w' thrown :
  renderButton h this w = (this', w', thrown) →
  (buttonElem this = true → buttonElem this' = true)
  ∧ dom w `prefix_of` dom w'.
Proof.
  intros Hrender. unfold renderButton in Hrender.
  destruct (buttonElem this) eqn:Eb.
  - destruct (perform h _ w) as [w1 t1] eqn:E. injection Hrender as <- <- <-.
    apply perform_log in E as (performed & -> & _). split; [done|].
    by apply prefix_app_r.
  - cbn [perform] in Hrender.
    destruct (dom_fault h (CreateElement (js "button"))) as [e|].
    + by injection Hrender as <- <- <-.
    + destruct (perform h _ (log_dom w _)) as [w1 t1] eqn:E.
      injection Hrender as <- <- <-.
      apply perform_log in E as (performed & -> & _). split; [done|].
      cbn [log_dom dom]. rewrite <- app_assoc. by apply prefix_app_r.
Qed.

(** The settings, the button and the logs an engine and a world have in
    common with later ones. *)
Lemma updateMJSS_frame h this w newScript replace this' w' :
  updateMJSS h this w newScript replace = Returns (this', w') →
  localStorageKey this' = localStorageKey this
  ∧ onError this' = onError this
  ∧ containerElem this' = containerElem this
  ∧ (buttonElem this = true → buttonElem this' = true)
  ∧ dom w `prefix_of` dom w'
  ∧ reports w `prefix_of` reports w'
  ∧ ∀ key, key ≠ localStorageKey this → storage w' !! key = storage w !! key.
Proof.
  unfold updateMJSS, updateMJSS_try.
  destruct (parseMJSS newScript) as [newProps| |];
    [|by intros [= <- <-]; repeat split; try done; apply prefix_app_r|done].
  destruct (renderButton h _ w) as [[this2 w2] thrown] eqn:Erender.
  pose proof (renderButton_frame _ _ _ _ _ _ Erender) as [Hbutton Hdom].
  apply renderButton_keeps in Erender as (_ & Hk & He & Hc & Hr & Hs).
  cbn [set_props localStorageKey onError containerElem buttonElem]
    in Hk, He, Hc, Hbutton.
  destruct thrown as [err|].
  { intros [= <- <-]. cbn [handleError log_report storage dom reports].
    rewrite Hr, Hs. repeat split; try done. by apply prefix_app_r. }
  destruct (buildMJSS _) as [script|err].
  2:{ intros [= <- <-]. cbn [handleError log_report storage dom reports].
      rewrite Hr, Hs. repeat split; try done. by apply prefix_app_r. }
  unfold setItem. destruct (setItem_fault h _ _) as [err|]; intros [= <- <-].
  - cbn [handleError log_report storage dom reports].
    rewrite Hr, Hs. repeat split; try done. by apply prefix_app_r.
  - cbn [set_storage storage dom reports]. rewrite Hr, Hs, Hk.
    repeat split; try done. intros key Hkey. by rewrite lookup_insert_ne.
Qed.

Lemma constructor_frame h options w this' w' :
  constructor h options w = Returns (this', w') →
  (∃ elem, resolves h options elem ∧ containerElem this' = elem)
  ∧ localStorageKey this' ≠ []
  ∧ (∀ key, opt_localStorageKey options = Some key → key ≠ [] →
       localStorageKey this' = key)
  ∧ onError this' = opt_onError options
  ∧ dom w `prefix_of` dom w'
  ∧ reports w `prefix_of` reports w'
  ∧ storage w' = storage w.
Proof.
  unfold constructor.
  assert (Hinit : ∀ elem, initialize h (new_engine elem options) w
                          = Returns (this', w') →
            containerElem this' = elem
            ∧ localStorageKey this' = localStorageKey (new_engine elem options)
            ∧ onError this' = opt_onError options
            ∧ dom w `prefix_of` dom w'
            ∧ reports w `prefix_of` reports w'
            ∧ storage w' = storage w).
  { intros elem. unfold initialize, initialize_try.
    destruct (getItem h _ w) as [script|];
      [|by intros [= <- <-]; repeat split; try done; apply prefix_app_r].
    destruct (restore _ script) as [props| |];
      [|by intros [= <- <-]; repeat split; try done; apply prefix_app_r|done].
    destruct (renderButton h _ w) as [[this2 w2] thrown] eqn:Erender.
    pose proof (renderButton_frame _ _ _ _ _ _ Erender) as [_ Hdom].
    apply renderButton_keeps in Erender as (_ & Hk & He & Hc & Hr & Hs).
    cbn [set_props localStorageKey onError containerElem] in Hk, He, Hc.
    destruct thrown as [err|]; intros [= <- <-].
    - cbn [handleError log_report storage dom reports]. rewrite Hr, Hs.
      repeat split; try done. by apply prefix_app_r.
    - rewrite Hr, Hs. by repeat split. }
  assert (Hkey : ∀ elem,
            localStorageKey (new_engine elem options) ≠ []
            ∧ ∀ key, opt_localStorageKey options = Some key → key ≠ [] →
                localStorageKey (new_engine elem options) = key).
  { intros elem. unfold new_engine. cbn [localStorageKey].
    destruct (opt_localStorageKey options) as [[|c key]|]; cbn; split; try done.
    - by intros ? [= <-].
    - by intros ? [= <-]. }
  destruct (container options) as [id|elem] eqn:Ec.
  - destruct (getElementById h id) as [elem|] eqn:Eg; [|done]. cbn [bind].
    intros H. apply Hinit in H as (Hc & Hk & He & Hd & Hr & Hs).
    destruct (Hkey elem) as [Hne Hgiven]. rewrite Hk.
    split; [exists elem; split; [right; by exists id|done]|]. by repeat split.
  - cbn [bind]. intros H. apply Hinit in H as (Hc & Hk & He & Hd & Hr & Hs).
    destruct (Hkey elem) as [Hne Hgiven]. rewrite Hk.
    split; [exists elem; split; [by left|done]|]. by repeat split.
Qed.

Lemma session_frame h updates : ∀ this w this' w',
  session h this w updates = Returns (this', w') →
  localStorageKey this' = localStorageKey this
  ∧ onError this' = onError this
  ∧ containerElem this' = containerElem this
  ∧ (buttonElem this = true → buttonElem this' = true)
  ∧ dom w `prefix_of` dom w'
  ∧ reports w `prefix_of` reports w'
  ∧ ∀ key, key ≠ localStorageKey this → storage w' !! key = storage w !! key.
Proof.
  induction updates as [|[newScript replace] updates IH]; intros this w this' w'.
  - by intros [= <- <-].
  - cbn [session].
    destruct (updateMJSS h this w newScript replace) as [[this1 w1]| |] eqn:E;
      [|done..].
    cbn [bind fst snd]. intros H.
    apply updateMJSS_frame in E as (Hk & He & Hc & Hb & Hd & Hr & Hs).
    apply IH in H as (Hk' & He' & Hc' & Hb' & Hd' & Hr' & Hs').
    rewrite Hk', He', Hc', Hk. repeat split; try done.
    + by intros ?; apply Hb', Hb.
    + by etrans.
    + by etrans.
    + intros key Hkey. rewrite Hs' by by rewrite Hk. by apply Hs.
Qed.

(** X19: the settings of an engine are fixed at construction. Through
    the constructor and any calls of [updateMJSS] after it: the container
    is the one the options name, the key is not empty (the one of the
    options when that is not empty), the error callback is the one of the
    options; a button, once made, is kept; the page log and the reports
    only grow; the constructor leaves the store as it was, and the updates
    change the store at most under the key of the engine. *)
Theorem session_keeps_settings
    (h : host) (options : MJSSEngineOptions) (w w0 w' : world)
    (this0 this' : MJSSEngine) (updates : list (jstring * bool)) :
  constructor h options w = Returns (this0, w0) →
  session h this0 w0 updates = Returns (this', w') →
  resolves h options (containerElem this')
  ∧ localStorageKey this' = localStorageKey this0
  ∧ localStorageKey this' ≠ []
  ∧ (∀ key, opt_localStorageKey options = Some key → key ≠ [] →
       localStorageKey this' = key)
  ∧ onError this' = opt_onError options
  ∧ (buttonElem this0 = true → buttonElem this' = true)
  ∧ dom w `prefix_of` dom w'
  ∧ reports w `prefix_of` reports w'
  ∧ storage w0 = storage w
  ∧ ∀ key, key ≠ localStorageKey this' → storage w' !! key = storage w !! key.
Proof.
  intros Hnew Hrun.
  apply constructor_frame in Hnew
    as ((elem & Hres & Hc0) & Hne & Hgiven & He0 & Hd0 & Hr0 & Hs0).
  apply session_frame in Hrun as (Hk & He & Hc & Hb & Hd & Hr & Hs).
  rewrite Hk, He, Hc, Hc0. repeat split; try done.
  - by etrans.
  - by etrans.
  - intros key Hkey. rewrite Hs by done. by rewrite Hs0.
Qed.

Lemma session_keeps_settings_witness :
  ∃ this0 w0 this' w',
    constructor page app_options (saved (js "text = Hi")) = Returns (this0, w0)
    ∧ session page this0 w0
        [(js "width = 9px", false); (conflicting_script, false);
         (js "color = red", true)] = Returns (this', w')
    ∧ localStorageKey this' = js "MJSS_SCRIPT"
    ∧ storage w' !! js "other" = None.
Proof.
  eexists _, _, _, _. split; [reflexivity|]. split; [reflexivity|].
  edestruct (session_keeps_settings page app_options (saved (js "text = Hi"))
               _ _ _ _ [(js "width = 9px", false); (conflicting_script, false);
                        (js "color = red", true)] eq_refl eq_refl)
    as (_ & Hkey & _ & _ & _ & _ & _ & _ & _ & Hstore).
  split; [exact Hkey|]. apply Hstore.
  intros H. vm_compute in H. discriminate H.
Defined.

Lemma session_well_formed h updates : ∀ this w this' w',
  well_formed (VObj (currentMJSSProps this)) = true →
  session h this w updates = Returns (this', w') →
  well_formed (VObj (currentMJSSProps this')) = true.
Proof.
  induction updates as [|[newScript replace] updates IH]; intros this w this' w'.
  - by intros ? [= <- <-].
  - cbn [session]. intros Hwf.
    destruct (updateMJSS h this w newScript replace) as [[this1 w1]| |] eqn:E;
      [|done..].
    cbn [bind fst snd]. apply IH.
    by apply (Invariant.updateMJSS_well_formed h this w newScript replace this1 w1).
Qed.

(** X20: the tree of an engine is always an object: through the
    constructor and any calls of [updateMJSS] after it, at every level
    the keys of the tree are pairwise different and in the enumeration
    order of JavaScript (array indices first and ascending, then the
    other keys in the order of their creation). *)
Theorem session_tree_is_an_object
    (h : host) (options : MJSSEngineOptions) (w w0 w' : world)
    (this0 this' : MJSSEngine) (updates : list (jstring * bool)) :
  constructor h options w = Returns (this0, w0) →
  session h this0 w0 updates = Returns (this', w') →
  well_formed (VObj (currentMJSSProps this')) = true
  ∧ NoDup (currentMJSSProps this').*1.
Proof.
  intros Hnew Hrun.
  assert (Hwf : well_formed (VObj (currentMJSSProps this')) = true).
  { apply (session_well_formed h updates this0 w0 this' w'); [|done].
    by apply (Invariant.constructor_well_formed h options w this0 w0). }
  split; [done|]. by apply enumeration_order_NoDup, well_formed_order.
Qed.

Lemma session_tree_is_an_object_witness :
  ∃ this0 w0 this' w',
    constructor page app_options (saved (js "text = Hi" ++ [LF] ++ js "7 = g"))
      = Returns (this0, w0)
    ∧ session page this0 w0
        [(js "b.1 = x" ++ [LF] ++ js "b.0 = y", false);
         (js "0 = z" ++ [LF] ++ js "text = Ho", false)] = Returns (this', w')
    ∧ (currentMJSSProps this').*1
        = [js "0"; js "7"; js "text"; js "b"; ANIMATION]
    ∧ NoDup (currentMJSSProps this').*1.
Proof.
  eexists _, _, _, _. split; [reflexivity|]. split; [reflexivity|].
  split; [reflexivity|].
  edestruct (session_tree_is_an_object page app_options
               (saved (js "text = Hi" ++ [LF] ++ js "7 = g")) _ _ _ _
               [(js "b.1 = x" ++ [LF] ++ js "b.0 = y", false);
                (js "0 = z" ++ [LF] ++ js "text = Ho", false)] eq_refl eq_refl)
    as [_ Hnodup].
  exact Hnodup.
Defined.

Lemma merge_props_lookup current newProps k :
  well_formed (VObj current) = true → well_formed (VObj newProps) = true →
  k ≠ ANIMATION →
  obj_get (merge_props current newProps) k
    = match obj_get newProps k with
      | Some v => Some v
      | None => obj_get current k
      end.
Proof.
  intros Hc%well_formed_order Hn%well_formed_order Hk. unfold merge_props.
  rewrite obj_get_define_ne by done.
  rewrite !obj_get_spread by done.
  destruct (obj_get newProps k); [done|]. by destruct (obj_get current k).
Qed.

(** X21: the keys of the merged tree are the keys of the current tree,
    the keys of the new tree, and [animation]. *)
Theorem merge_props_keys (current newProps : obj) (k : jstring) :
  well_formed (VObj current) = true → well_formed (VObj newProps) = true →
  is_Some (obj_get (merge_props current newProps) k)
  ↔ is_Some (obj_get current k) ∨ is_Some (obj_get newProps k) ∨ k = ANIMATION.
Proof.
  intros Hc Hn. destruct (decide (k = ANIMATION)) as [->|Hk].
  - unfold merge_props. rewrite obj_get_define_eq. split; [by right; right|done].
  - rewrite merge_props_lookup by done.
    destruct (obj_get newProps k) as [v|].
    + split; [by right; left|done].
    + split; [by left|]. intros [?|[[? [=]]|?]]; done.
Qed.

Lemma merge_props_keys_witness :
  let current := [(js "text", VStr (js "Hi"))] in
  let newProps := [(js "width", VStr (js "9px"))] in
  is_Some (obj_get (merge_props current newProps) (js "text"))
  ∧ is_Some (obj_get (merge_props current newProps) ANIMATION)
  ∧ ¬ is_Some (obj_get (merge_props current newProps) (js "height")).
Proof.
  intros current newProps. split; [|split].
  - apply (merge_props_keys current newProps (js "text") eq_refl eq_refl).
    left. by eexists.
  - apply (merge_props_keys current newProps ANIMATION eq_refl eq_refl).
    by right; right.
  - intros H.
    apply (merge_props_keys current newProps (js "height") eq_refl eq_refl) in H.
    destruct H as [[? [=]]|[[? [=]]|H]]. vm_compute in H. discriminate H.
Defined.

(** X22: in merge mode an update never removes a key of the tree,
    whatever happens to the update: a key the engine has before the call
    it has after it. *)
Theorem updateMJSS_merge_never_drops_a_key
    (h : host) (this this' : MJSSEngine) (w w' : world) (newScript k : jstring) :
  well_formed (VObj (currentMJSSProps this)) = true →
  updateMJSS h this w newScript false = Returns (this', w') →
  is_Some (obj_get (currentMJSSProps this) k) →
  is_Some (obj_get (currentMJSSProps this') k).
Proof.
  intros Hwf Hrun Hk. unfold updateMJSS in Hrun.
  destruct (parseMJSS newScript) as [newProps| |] eqn:Eparse;
    [|by injection Hrun as <- _|done].
  apply Invariant.parseMJSS_well_formed in Eparse.
  assert (Hmerged : is_Some (obj_get (merge_props (currentMJSSProps this) newProps) k)).
  { destruct (decide (k = ANIMATION)) as [->|Hne].
    - unfold merge_props. by rewrite obj_get_define_eq.
    - rewrite merge_props_lookup by done. by destruct (obj_get newProps k). }
  unfold updateMJSS_try in Hrun.
  destruct (renderButton h _ w) as [[this2 w2] thrown] eqn:Erender.
  apply renderButton_keeps in Erender as (Hprops & _).
  cbn [set_props currentMJSSProps] in Hprops. rewrite <- Hprops in Hmerged.
  destruct thrown; [by injection Hrun as <- _|].
  destruct (buildMJSS _); [|by injection Hrun as <- _].
  destruct (setItem h _ _ w2) as [w3 [err|]]; by injection Hrun as <- _.
Qed.

Lemma updateMJSS_merge_never_drops_a_key_witness :
  ∃ this' w',
    updateMJSS page_store_full an_engine blank (js "width = 9px") false
      = Returns (this', w')
    ∧ is_Some (obj_get (currentMJSSProps this') (js "text")).
Proof.
  eexists _, _. split; [reflexivity|].
  apply (updateMJSS_merge_never_drops_a_key page_store_full an_engine _ blank _
           (js "width = 9px") (js "text") eq_refl eq_refl).
  by eexists.
Defined.

End EngineMore.

(** ** The entry script: environment and configuration *)

Module BootstrapFacts.
Import JS Bootstrap BootstrapSpec.

(** The backtracking run of a pattern succeeds exactly when the string
    splits into a part the pattern matches and a rest that the
    continuation accepts. *)
Lemma run_lang r : ∀ s k,
  run r s k = true ↔ ∃ s1 s2, s = s1 ++ s2 ∧ lang r s1 ∧ k s2 = true.
Proof.
  induction r as [|c|lo hi|r1 IH1 r2 IH2|r1 IH1 r2 IH2|r IH]; intros s k;
    cbn [run lang].
  - split; [intros H; by exists [], s|by intros (s1 & s2 & -> & -> & H)].
  - destruct s as [|x s].
    + split; [done|]. by intros (s1 & s2 & Hs & -> & _).
    + rewrite andb_true_iff, N.eqb_eq. split.
      * intros [-> H]. by exists [c], s.
      * intros (s1 & s2 & Hs & -> & H). by injection Hs as -> ->.
  - destruct s as [|x s].
    + split; [done|]. by intros (s1 & s2 & Hs & (y & -> & _) & _).
    + rewrite !andb_true_iff, !N.leb_le. split.
      * intros [Hx H]. exists [x], s. split; [done|]. split; [by exists x|done].
      * intros (s1 & s2 & Hs & (y & -> & Hy) & H). by injection Hs as -> ->.
  - rewrite IH1. split.
    + intros (s1 & s2 & -> & H1 & (s3 & s4 & -> & H3 & H4)%IH2).
      exists (s1 ++ s3), s4. rewrite app_assoc. split; [done|].
      split; [by exists s1, s3|done].
    + intros (s12 & s4 & -> & (s1 & s3 & -> & H1 & H3) & H4).
      exists s1, (s3 ++ s4). rewrite app_assoc. split; [done|].
      split; [done|]. apply IH2. by exists s3, s4.
  - rewrite orb_true_iff, IH1, IH2. split.
    + intros [(s1 & s2 & -> & H1 & H2)|(s1 & s2 & -> & H1 & H2)];
        exists s1, s2; by auto.
    + intros (s1 & s2 & -> & [H1|H1] & H2); [left|right]; by exists s1, s2.
  - rewrite orb_true_iff, IH. split.
    + intros [(s1 & s2 & -> & H1 & H2)|H]; [exists s1, s2; by auto|].
      exists [], s. by auto.
    + intros (s1 & s2 & -> & [->|H1] & H2); [by right|]. left. by exists s1, s2.
Qed.

Lemma matches_lang r s : matches r s = true ↔ lang r s.
Proof.
  unfold matches. rewrite run_lang. split.
  - intros (s1 & s2 & -> & H1 & H2). destruct s2; [|done]. by rewrite app_nil_r.
  - intros H. exists s, []. by rewrite app_nil_r.
Qed.

Lemma chars_from_range lo n x :
  (lo ≤ x < lo + N.of_nat n)%N → x ∈ chars_from lo n.
Proof.
  intros Hx. unfold chars_from. apply list_elem_of_fmap.
  exists (N.to_nat (x - lo)). split; [lia|]. apply elem_of_seq. lia.
Qed.

Lemma digits_val_digits o : ∀ acc n,
  digits_val acc o = Some n → Forall (λ c, c ∈ chars_from 48 10) o.
Proof.
  induction o as [|c o IH]; intros acc n; [done|]. cbn [digits_val].
  unfold digit_val. destruct ((48 <=? c)%N && (c <=? 57)%N) eqn:E; [|done].
  intros H. constructor; [|by eapply IH].
  apply andb_true_iff in E as [?%N.leb_le ?%N.leb_le].
  apply chars_from_range. lia.
Qed.

Lemma is_octet_shape o :
  is_octet o = true →
  Forall (λ c, c ∈ chars_from 48 10) o ∧ 1 ≤ length o ≤ 3.
Proof.
  unfold is_octet. intros [[Hne Hlen%Nat.leb_le]%andb_true_iff H]%andb_true_iff.
  split.
  - destruct (digits_val 0 o) as [n|] eqn:E; [|done]. by eapply digits_val_digits.
  - destruct o; [done|]. cbn [length] in *. lia.
Qed.

Lemma octet_shape o :
  lang octet o →
  Forall (λ c, c ∈ chars_from 48 10) o ∧ 1 ≤ length o ≤ 3.
Proof.
  unfold octet, digit. cbn [lang].
  intros [(? & ? & -> & -> & ? & ? & -> & -> & x & -> & Hx)
         |[(? & ? & -> & -> & ? & ? & -> & (y & -> & Hy) & x & -> & Hx)
          |(? & ? & -> & Ha & ? & ? & -> & Hb & x & -> & Hx)]].
  - split; [|cbn; lia]. cbn [app]. repeat apply Forall_cons_2; [..|done].
    all: apply chars_from_range; lia.
  - split; [|cbn; lia]. cbn [app]. repeat apply Forall_cons_2; [..|done].
    all: apply chars_from_range; lia.
  - destruct Ha as [->|(a & -> & Ha)], Hb as [->|(b & -> & Hb)];
      (split; [|cbn; lia]); cbn [app]; repeat apply Forall_cons_2; try done.
    all: apply chars_from_range; lia.
Qed.

(** On the strings of one to three digits the pattern and the
    arithmetic agree: by running both on each of them. *)
Lemma octet_table :
  Forall (λ a, matches octet [a] = is_octet [a]
    ∧ Forall (λ b, matches octet [a; b] = is_octet [a; b]
        ∧ Forall (λ c, matches octet [a; b; c] = is_octet [a; b; c])
                 (chars_from 48 10))
             (chars_from 48 10))
         (chars_from 48 10).
Proof. apply (bool_decide_unpack _). vm_compute. exact I. Qed.

Lemma octet_agree o :
  Forall (λ c, c ∈ chars_from 48 10) o → 1 ≤ length o ≤ 3 →
  matches octet o = is_octet o.
Proof.
  intros Hdigits Hlen. pose proof octet_table as Htable.
  rewrite Forall_forall in Htable.
  destruct o as [|a [|b [|c [|d o]]]]; cbn [length] in Hlen; [lia| | | |lia].
  - apply Forall_cons in Hdigits as [Ha _]. by apply Htable.
  - apply Forall_cons in Hdigits as [Ha [Hb _]%Forall_cons].
    destruct (Htable a Ha) as [_ Htable2]. rewrite Forall_forall in Htable2.
    by apply Htable2.
  - apply Forall_cons in Hdigits as [Ha [Hb [Hc _]%Forall_cons]%Forall_cons].
    destruct (Htable a Ha) as [_ Htable2]. rewrite Forall_forall in Htable2.
    destruct (Htable2 b Hb) as [_ Htable3]. rewrite Forall_forall in Htable3.
    by apply Htable3.
Qed.

(** The pattern of an octet matches the numerals of at most three digits
    with a value of at most 255. *)
Lemma octet_lang o : lang octet o ↔ is_octet o = true.
Proof.
  split.
  - intros H. destruct (octet_shape o H) as [Hdigits Hlen].
    rewrite <- octet_agree by done. by apply matches_lang.
  - intros H. destruct (is_octet_shape o H) as [Hdigits Hlen].
    apply matches_lang. by rewrite octet_agree.
Qed.

Lemma loopback_lang s :
  lang loopback s ↔
  ∃ o1 o2 o3, s = dotted_quad o1 o2 o3
    ∧ lang octet o1 ∧ lang octet o2 ∧ lang octet o3.
Proof.
  unfold loopback, dotted, dotted_quad. cbn [lang]. split.
  - intros (? & ? & -> & -> & ? & ? & -> & -> & ? & ? & -> & ->
            & ? & ? & -> & (? & o1 & -> & -> & H1)
            & ? & ? & -> & (? & o2 & -> & -> & H2)
            & (? & o3 & -> & -> & H3)).
    exists o1, o2, o3. split; [|done]. cbn [app]. reflexivity.
  - intros (o1 & o2 & o3 & -> & H1 & H2 & H3).
    exists [49%N], (js "27." ++ o1 ++ js "." ++ o2 ++ js "." ++ o3).
    split; [done|]. split; [done|].
    exists [50%N], (js "7." ++ o1 ++ js "." ++ o2 ++ js "." ++ o3).
    split; [done|]. split; [done|].
    exists [55%N], (js "." ++ o1 ++ js "." ++ o2 ++ js "." ++ o3).
    split; [done|]. split; [done|].
    exists (js "." ++ o1), (js "." ++ o2 ++ js "." ++ o3).
    split; [by rewrite <- app_assoc|]. split; [by exists [DOT], o1|].
    exists (js "." ++ o2), (js "." ++ o3).
    split; [by rewrite <- app_assoc|]. split; [by exists [DOT], o2|].
    by exists [DOT], o3.
Qed.

Lemma isLocalhost_hosts host :
  isLocalhost host = true ↔
  host = js "localhost" ∨ host = js "[::1]"
  ∨ ∃ o1 o2 o3, host = dotted_quad o1 o2 o3
      ∧ is_octet o1 = true ∧ is_octet o2 = true ∧ is_octet o3 = true.
Proof.
  unfold isLocalhost.
  rewrite !orb_true_iff, !bool_decide_eq_true, matches_lang, loopback_lang.
  split.
  - intros [[?|?]|(o1 & o2 & o3 & ? & ?%octet_lang & ?%octet_lang & ?%octet_lang)];
      [by left|by right; left|]. right; right. by exists o1, o2, o3.
  - intros [?|[?|(o1 & o2 & o3 & ? & ?%octet_lang & ?%octet_lang & ?%octet_lang)]];
      [by left; left|by left; right|]. right. by exists o1, o2, o3.
Qed.

(** X23: in a browser the script is in development exactly on the host
    names [localhost], [[::1]] and [127.o1.o2.o3] where each of the three
    octets is a numeral of one to three decimal digits with a value of at
    most 255 (leading zeros included); on every other host name it is in
    production. *)
Theorem browser_development_hosts (p : platform) :
  isNode p = false → isBrowser p = true →
  environment (config p) = development ↔
  hostname p = js "localhost" ∨ hostname p = js "[::1]"
  ∨ ∃ o1 o2 o3, hostname p = dotted_quad o1 o2 o3
      ∧ is_octet o1 = true ∧ is_octet o2 = true ∧ is_octet o3 = true.
Proof.
  intros Hnode Hbrowser. rewrite <- isLocalhost_hosts.
  unfold config, ENV. cbn [environment]. rewrite Hnode, Hbrowser.
  by destruct (isLocalhost (hostname p)).
Qed.

Lemma browser_development_hosts_witness :
  environment (config (browser_at (js "127.0.0.1"))) = development
  ∧ environment (config (browser_at (js "127.000.255.09"))) = development
  ∧ environment (config (browser_at (js "127.0.0.256"))) ≠ development
  ∧ environment (config (browser_at (js "127.0.1"))) ≠ development
  ∧ environment (config (browser_at (js "example.org"))) ≠ development.
Proof.
  split; [|split; [|split; [|split]]].
  - apply (browser_development_hosts (browser_at (js "127.0.0.1")) eq_refl eq_refl).
    right; right. by exists (js "0"), (js "0"), (js "1").
  - apply (browser_development_hosts (browser_at (js "127.000.255.09"))
             eq_refl eq_refl).
    right; right. by exists (js "000"), (js "255"), (js "09").
  - intros H. vm_compute in H. discriminate H.
  - intros H. vm_compute in H. discriminate H.
  - intros H. vm_compute in H. discriminate H.
Defined.

(** X24: the configuration is consistent, on every platform: the debug
    flag is set exactly in development, the endpoint is the local one
    exactly in development, and the error handler writes to
    [console.error] exactly in development (in production it hands the
    error to the monitoring service). Development is: Node.js with
    [NODE_ENV] equal to [development]; or, not on Node.js, a browser on a
    local host name. On Node.js the window and its host name are not
    looked at. *)
Theorem config_is_consistent (p : platform) :
  (debug (config p) = true ↔ environment (config p) = development)
  ∧ (apiEndpoint (config p) = js "http://localhost:3000/api"
     ↔ environment (config p) = development)
  ∧ (∀ context error,
       (∃ label, handleError (config p) context error = ConsoleError label error)
       ↔ environment (config p) = development)
  ∧ (environment (config p) = development ↔
     (isNode p = true ∧ NODE_ENV p = Some (js "development"))
     ∨ (isNode p = false ∧ isBrowser p = true
        ∧ isLocalhost (hostname p) = true)).
Proof.
  assert (Hendpoint : js "https://api.yourdomain.com" ≠ js "http://localhost:3000/api").
  { intros H. vm_compute in H. discriminate H. }
  unfold handleError, sendErrorToMonitoringService, config, ENV, debugMode.
  cbn [environment debug apiEndpoint].
  destruct (isNode p);
    [destruct (bool_decide_reflect (NODE_ENV p = Some (js "development")))
    |destruct (isBrowser p); [destruct (isLocalhost (hostname p))|]].
  - split; [done|]. split; [done|].
    split; [intros context error; split; [done|by eexists]|].
    split; [by left|done].
  - split; [done|]. split; [done|].
    split; [intros context error; split; [by intros [? [=]]|done]|].
    split; [done|]. by intros [[_ ?]|[? _]].
  - split; [done|]. split; [done|].
    split; [intros context error; split; [done|by eexists]|].
    split; [by right|done].
  - split; [done|]. split; [done|].
    split; [intros context error; split; [by intros [? [=]]|done]|].
    split; [done|]. by intros [[? _]|(_ & _ & ?)].
  - split; [done|]. split; [done|].
    split; [intros context error; split; [by intros [? [=]]|done]|].
    split; [done|]. by intros [[? _]|(_ & ? & _)].
Qed.

End BootstrapFacts.
